(** * Room registry and broadcast relay of the mahjong server (server.js)

    A shallow embedding of the room lifecycle functions ([createRoom],
    [joinRoom], [leaveRoom], [broadcastRoomState]) and of the socket
    handlers registered in [io.on('connection', ...)], followed by the
    properties of the room registry that the specification states.

    Modelling decisions.
    - Objects are references.  Room objects and player objects live in two
      append-only stores ([roomObjs], [playerObjs]); a reference is an index.
      The [rooms] Map holds references to room objects, a room's [players]
      array holds references to player objects, and the callback handed to
      [setTimeout] keeps the references it closed over.
    - [Math.random] is an oracle: the identifier produced by
      [generateRoomId] is an argument of the [createRoom] event.
    - Values sent by clients are [jsval]s, the values of JSON.  Room
      identifiers sent by clients are strings (any other value is looked up
      in the Map like a string that is not a key).
    - A message payload that the handler destructures ([data]) may be
      [null]; destructuring it raises a TypeError, which is the [None]
      result of [handle].
    - A handler that can raise a TypeError after it has written or sent
      something has an [Outcome]: it returns or throws, and either way the
      state it has reached and what it has sent are recorded. Nothing
      catches the exception, so [handle] gives [None] for it. The second
      parameter of a handler ([callback]) is the acknowledgement function
      of socket.io or a value that the client put in its place.
    - socket.io is modelled by its channel groups ([groups]): [socket.join],
      [socket.leave], and the removal of a closing socket from every group
      before its [disconnect] handler runs. What is sent is recorded as a
      list of emissions, each with its target and its payload as serialised
      at that moment.
    - [setTimeout] adds a timer to the list [timers]; a pending timer can
      fire in any later turn of the event loop ([Timeout]). Real time is
      not modelled beyond the delay that the timer records.
    - The [rooms] Map is a [gmap]: the disconnect loop visits the entries in
      the order of [map_to_list] and not in insertion order, which matters
      for the order of the emissions of different rooms only.
    - The second source file (part_000) is an older copy of the same server,
      without [hostId], [gameReady] and the delayed relay; its [leaveRoom],
      which differs, is [part_000.leaveRoom]. *)

From stdpp Require Import gmap strings list fin_maps pretty sorting.

Open Scope string_scope.
Open Scope list_scope.
Open Scope nat_scope.

(** ** JavaScript values *)

Inductive jsval :=
| JUndefined
| JNull
| JBool (b : bool)
| JNum (n : Z)
| JStr (s : string)
| JObj (fields : jsfields)
| JArr (elems : jselems)
with jsfields :=
| FNil
| FCons (k : string) (v : jsval) (rest : jsfields)
with jselems :=
| ENil
| ECons (v : jsval) (rest : jselems).

(** Truthiness, as used by [||], [!] and [if]. Numbers are only stored,
    forwarded and tested for truthiness, so integers stand for them. *)
Definition truthy (v : jsval) : bool :=
  match v with
  | JUndefined | JNull => false
  | JBool b => b
  | JNum n => negb (n =? 0)%Z
  | JStr s => negb (String.eqb s "")
  | JObj _ | JArr _ => true
  end.

(** [a || b] *)
Definition js_or (a b : jsval) : jsval := if truthy a then a else b.

(** [o.k] on a record of own properties: a missing key reads [undefined]. *)
Definition prop (o : gmap string jsval) (k : string) : jsval :=
  default JUndefined (o !! k).

(** [v.k] on a value that is not null or undefined. *)
Fixpoint assoc (k : string) (fields : jsfields) : jsval :=
  match fields with
  | FNil => JUndefined
  | FCons k' v rest => if String.eqb k k' then v else assoc k rest
  end.

Definition field (v : jsval) (k : string) : jsval :=
  match v with
  | JObj fields => assoc k fields
  | _ => JUndefined
  end.

(** Whether an object has the own property [k]. *)
Fixpoint has_own (k : string) (fields : jsfields) : bool :=
  match fields with
  | FNil => false
  | FCons k' _ rest => String.eqb k k' || has_own k rest
  end.

(** [`${v}`] in a template literal: whether the conversion of [v] to a
    string completes; it raises a TypeError otherwise. A client cannot send
    a function, so an object that has an own property [toString] cannot be
    converted: that property is not callable, and the [valueOf] that is
    tried next gives no primitive. Any other object is converted by
    [Object.prototype.toString], and an array by joining the conversions
    of its elements. *)
Fixpoint printable (v : jsval) : bool :=
  match v with
  | JObj fields => negb (has_own "toString" fields)
  | JArr elems => printable_all elems
  | _ => true
  end
with printable_all (elems : jselems) : bool :=
  match elems with
  | ENil => true
  | ECons v rest => printable v && printable_all rest
  end.

(** An argument that the caller may omit or send as [null]; a value that
    is neither is given by its own enumerable properties. *)
Inductive arg :=
| ArgUndefined
| ArgNull
| ArgObject (props : gmap string jsval).

(** ** The data model *)

Definition loc := nat.

Record Player := mkPlayer {
  p_id : string;
  p_name : jsval;
  p_isHost : bool;
  p_seat : nat
}.

Inductive Status := waiting | playing.

Record Room := mkRoom {
  r_players : list loc;
  r_gameState : jsval;
  r_hostId : string;
  r_settings : gmap string jsval;
  r_status : Status;
  r_gameReady : bool
}.

(** The closure created by [playerAction]: the delay given to
    [setTimeout] and the variables the callback closes over. *)
Record Timer := mkTimer {
  t_delay : nat;
  t_socket : string;
  t_roomId : string;
  t_room : loc;
  t_player : loc
}.

Record Server := mkServer {
  rooms : gmap string loc;
  roomObjs : list Room;
  playerObjs : list Player;
  groups : gmap string (gset string);
  timers : list Timer
}.

Definition init : Server :=
  {| rooms := ∅; roomObjs := []; playerObjs := []; groups := ∅; timers := [] |}.

#[global] Instance Player_inhabited : Inhabited Player :=
  populate (mkPlayer "" JUndefined false 0).
#[global] Instance Room_inhabited : Inhabited Room :=
  populate (mkRoom [] JNull "" ∅ waiting false).

#[global] Instance Status_eq_dec : EqDecision Status.
Proof. solve_decision. Defined.

(** Reading through a reference. *)
Definition getP (σ : Server) (l : loc) : Player := playerObjs σ !!! l.
Definition getR (σ : Server) (r : loc) : Room := roomObjs σ !!! r.

(** Writing through a reference. *)
Definition setP (l : loc) (p : Player) (σ : Server) : Server :=
  {| rooms := rooms σ; roomObjs := roomObjs σ;
     playerObjs := <[l := p]> (playerObjs σ);
     groups := groups σ; timers := timers σ |}.
Definition setR (r : loc) (room : Room) (σ : Server) : Server :=
  {| rooms := rooms σ; roomObjs := <[r := room]> (roomObjs σ);
     playerObjs := playerObjs σ;
     groups := groups σ; timers := timers σ |}.

(** Allocating an object: the new reference is the next free index. *)
Definition newP (p : Player) (σ : Server) : loc * Server :=
  (length (playerObjs σ),
   {| rooms := rooms σ; roomObjs := roomObjs σ;
      playerObjs := playerObjs σ ++ [p];
      groups := groups σ; timers := timers σ |}).
Definition newR (room : Room) (σ : Server) : loc * Server :=
  (length (roomObjs σ),
   {| rooms := rooms σ; roomObjs := roomObjs σ ++ [room];
      playerObjs := playerObjs σ;
      groups := groups σ; timers := timers σ |}).

Definition set_rooms (m : gmap string loc) (σ : Server) : Server :=
  {| rooms := m; roomObjs := roomObjs σ; playerObjs := playerObjs σ;
     groups := groups σ; timers := timers σ |}.
Definition set_groups (g : gmap string (gset string)) (σ : Server) : Server :=
  {| rooms := rooms σ; roomObjs := roomObjs σ; playerObjs := playerObjs σ;
     groups := g; timers := timers σ |}.
Definition set_timers (ts : list Timer) (σ : Server) : Server :=
  {| rooms := rooms σ; roomObjs := roomObjs σ; playerObjs := playerObjs σ;
     groups := groups σ; timers := ts |}.

(** Field updates of a room object and of a player object. *)
Definition with_players (ps : list loc) (room : Room) : Room :=
  mkRoom ps (r_gameState room) (r_hostId room) (r_settings room)
         (r_status room) (r_gameReady room).
Definition with_gameState (g : jsval) (room : Room) : Room :=
  mkRoom (r_players room) g (r_hostId room) (r_settings room)
         (r_status room) (r_gameReady room).
Definition with_hostId (h : string) (room : Room) : Room :=
  mkRoom (r_players room) (r_gameState room) h (r_settings room)
         (r_status room) (r_gameReady room).
Definition with_status (s : Status) (room : Room) : Room :=
  mkRoom (r_players room) (r_gameState room) (r_hostId room) (r_settings room)
         s (r_gameReady room).
Definition with_gameReady (b : bool) (room : Room) : Room :=
  mkRoom (r_players room) (r_gameState room) (r_hostId room) (r_settings room)
         (r_status room) b.
Definition with_isHost (b : bool) (p : Player) : Player :=
  mkPlayer (p_id p) (p_name p) b (p_seat p).

(** The player objects of a room, in array order. *)
Definition players_of (σ : Server) (room : Room) : list Player :=
  getP σ <$> r_players room.

(** [room.players.find(p => p.id === id)]: the first player object of the
    room whose id is [id]. *)
Definition find_player (σ : Server) (room : Room) (id : string) : option loc :=
  find (λ l, bool_decide (p_id (getP σ l) = id)) (r_players room).

(** ** Room lifecycle *)

Definition default_basePoints : jsval := JNum 2000.
Definition default_perFanPoints : jsval := JNum 1000.
Definition default_initialPoints : jsval := JNum 100000.

(** The object literal
    [{ basePoints: .., perFanPoints: .., initialPoints: .., ...settings }]:
    the three keys are written first and the spread then writes every own
    property of [settings] over them. *)
Definition spread (src dst : gmap string jsval) : gmap string jsval :=
  map_fold (λ k v acc, <[k := v]> acc) dst src.

Definition make_settings (settings : gmap string jsval) : gmap string jsval :=
  spread settings
    (<["initialPoints" := js_or (prop settings "initialPoints") default_initialPoints]>
     (<["perFanPoints" := js_or (prop settings "perFanPoints") default_perFanPoints]>
      (<["basePoints" := js_or (prop settings "basePoints") default_basePoints]> ∅))).

(** [function createRoom(hostId, settings = {})]; the identifier that
    [generateRoomId] draws is [roomId]. [None] is the TypeError raised by
    [settings.playerName] when [settings] is [null]. *)
Definition createRoom (roomId : string) (hostId : string) (settings : arg)
    (σ : Server) : option (string * Server) :=
  let settings := match settings with ArgUndefined => ArgObject ∅ | a => a end in
  match settings with
  | ArgObject settings =>
      let '(host, σ) :=
        newP (mkPlayer hostId (js_or (prop settings "playerName") (JStr "玩家1")) true 0) σ in
      let '(room, σ) :=
        newR {| r_players := [host];
                r_gameState := JNull;
                r_hostId := hostId;
                r_settings := make_settings settings;
                r_status := waiting;
                r_gameReady := false |} σ in
      Some (roomId, set_rooms (<[roomId := room]> (rooms σ)) σ)
  | _ => None
  end.

Definition RoomNotFound : string := "房间不存在".
Definition RoomFull : string := "房间已满".
Definition GameAlreadyStarted : string := "游戏已开始".

Inductive JoinResult :=
| JoinError (error : string)
| JoinOk (room : loc) (seat : nat) (player : loc).

(** [function joinRoom(roomId, playerId, playerName)] *)
Definition joinRoom (roomId playerId : string) (playerName : jsval)
    (σ : Server) : JoinResult * Server :=
  match rooms σ !! roomId with
  | None => (JoinError RoomNotFound, σ)
  | Some r =>
      let room := getR σ r in
      if bool_decide (4 ≤ length (r_players room)) then (JoinError RoomFull, σ)
      else if bool_decide (r_status room ≠ waiting) then (JoinError GameAlreadyStarted, σ)
      else
        let seat := length (r_players room) in
        let '(player, σ) :=
          newP {| p_id := playerId;
                  p_name := js_or playerName (JStr ("玩家" +:+ pretty (seat + 1)));
                  p_isHost := false;
                  p_seat := seat |} σ in
        let σ := setR r (with_players (r_players room ++ [player]) room) σ in
        (JoinOk r seat player, σ)
  end.

(** [function leaveRoom(roomId, playerId)] *)
Definition leaveRoom (roomId playerId : string) (σ : Server) : Server :=
  match rooms σ !! roomId with
  | None => σ
  | Some r =>
      let room := getR σ r in
      let leavingPlayer := find_player σ room playerId in
      let wasHost := from_option (λ l, p_isHost (getP σ l)) false leavingPlayer in
      let remaining := filter (λ l, p_id (getP σ l) ≠ playerId) (r_players room) in
      let σ := setR r (with_players remaining room) σ in
      if bool_decide (length remaining = 0) then
        set_rooms (delete roomId (rooms σ)) σ
      else if wasHost && bool_decide (0 < length remaining) then
        match remaining !! 0 with
        | Some first =>
            let σ := setP first (with_isHost true (getP σ first)) σ in
            setR r (with_hostId (p_id (getP σ first)) (getR σ r)) σ
        | None => σ
        end
      else σ
  end.

(** [leaveRoom] as the other copy of the server (part_000) has it: the
    leaving player is looked up after the array has been filtered. That
    copy has no [hostId] and no [gameReady], which this function does not
    touch. *)
Module part_000.
Definition leaveRoom (roomId playerId : string) (σ : Server) : Server :=
  match rooms σ !! roomId with
  | None => σ
  | Some r =>
      let room := getR σ r in
      let remaining := filter (λ l, p_id (getP σ l) ≠ playerId) (r_players room) in
      let σ := setR r (with_players remaining room) σ in
      if bool_decide (length remaining = 0) then
        set_rooms (delete roomId (rooms σ)) σ
      else
        let wasHost :=
          from_option (λ l, p_isHost (getP σ l)) false
                      (find_player σ (getR σ r) playerId) in
        if wasHost && bool_decide (0 < length remaining) then
          match remaining !! 0 with
          | Some first => setP first (with_isHost true (getP σ first)) σ
          | None => σ
          end
        else σ
  end.
End part_000.

(** ** Messages sent by the server *)

(** What [JSON] serialisation sees of a room object when it is sent. *)
Record RoomSnapshot := mkSnapshot {
  snap_players : list Player;
  snap_gameState : jsval;
  snap_hostId : string;
  snap_settings : gmap string jsval;
  snap_status : Status;
  snap_gameReady : bool
}.

Definition snapshot (σ : Server) (r : loc) : RoomSnapshot :=
  let room := getR σ r in
  {| snap_players := players_of σ room;
     snap_gameState := r_gameState room;
     snap_hostId := r_hostId room;
     snap_settings := r_settings room;
     snap_status := r_status room;
     snap_gameReady := r_gameReady room |}.

Inductive Message :=
| roomState (players : list Player) (status : Status)
            (settings : gmap string jsval) (hostId : string) (gameReady : bool)
| roomCreated (roomId : string) (seat : nat) (isHost : bool)
| roomJoined (roomId : string) (seat : nat) (isHost : bool) (player : Player)
| error (msg : string)
| gameStarted (players : list Player) (settings : gmap string jsval)
              (status : Status) (hostId : string)
| gameReadyNotify (gameState : jsval)
| gameStateSync (gameState : jsval) (fromPlayer : nat) (isHost : bool)
| actionBroadcast (action params : jsval) (playerSeat : nat)
                  (playerName : jsval) (isHost : bool)
| playerDisconnected (playerId newHostId : string)
| ack_created (roomId : string)
| ack_failed (error : string)
| ack_joined (room : RoomSnapshot) (seat : nat) (player : Player)
| ack_roomState (room : RoomSnapshot) (hostId : string) (gameReady : bool)
| ack_turnInfo (turn phase : jsval) (hostId : string).

(** The three delivery modes, and the acknowledgement callback. *)
Inductive Target :=
| ToRoom (roomId : string)                        (* io.to(roomId).emit *)
| ToRoomExcept (roomId : string) (sender : string) (* socket.to(roomId).emit *)
| ToSocket (id : string)                          (* socket.emit *)
| Callback (id : string).                         (* callback(...) *)

Definition Emission : Type := Target * Message.

Definition group (σ : Server) (roomId : string) : gset string :=
  default ∅ (groups σ !! roomId).

(** The connections an emission is delivered to. *)
Definition recipients (σ : Server) (t : Target) : gset string :=
  match t with
  | ToRoom roomId => group σ roomId
  | ToRoomExcept roomId sender => group σ roomId ∖ {[sender]}
  | ToSocket id => {[id]}
  | Callback id => {[id]}
  end.

(** [function broadcastRoomState(roomId)] *)
Definition broadcastRoomState (roomId : string) (σ : Server) : list Emission :=
  match rooms σ !! roomId with
  | None => []
  | Some r =>
      let room := getR σ r in
      [(ToRoom roomId,
        roomState (players_of σ room) (r_status room) (r_settings room)
                  (r_hostId room) (r_gameReady room))]
  end.

(** ** Socket handlers *)

Record Socket := mkSocket { s_id : string; s_connected : bool }.

Definition socket_join (socket : Socket) (roomId : string) (σ : Server) : Server :=
  set_groups (<[roomId := {[s_id socket]} ∪ group σ roomId]> (groups σ)) σ.
Definition socket_leave (socket : Socket) (roomId : string) (σ : Server) : Server :=
  set_groups (alter (λ g, g ∖ {[s_id socket]}) roomId (groups σ)) σ.
(** When a connection closes, socket.io takes it out of every group. *)
Definition socket_leaveAll (socket : Socket) (σ : Server) : Server :=
  set_groups ((λ g, g ∖ {[s_id socket]}) <$> groups σ) σ.

Definition InsufficientPlayers : string := "需要至少2名玩家才能开始游戏".
Definition NotHost : string := "只有房主可以开始游戏".
Definition GameNotStarted : string := "游戏未开始".

(** The [callback] parameter of a handler: the acknowledgement function
    that socket.io passes when the client has asked for one, or the value
    that the client has sent in that position ([JUndefined] when it has
    sent none). *)
Inductive callback_arg :=
| CallbackFunction
| CallbackValue (v : jsval).

(** [if (callback) callback(m)]: what the call sends, or [None] when
    [callback] is truthy and not a function, so that calling it raises a
    TypeError. *)
Definition reply (socket : Socket) (callback : callback_arg) (m : Message)
    : option (list Emission) :=
  match callback with
  | CallbackFunction => Some [(Callback (s_id socket), m)]
  | CallbackValue v => if truthy v then None else Some []
  end.

(** How a handler ends: it returns, or it raises a TypeError, which
    nothing catches. Either way the outcome records the state that the
    handler has reached and what it has sent. *)
Inductive Outcome :=
| Returns (result : Server * list Emission)
| Throws (result : Server * list Emission).

Definition result (o : Outcome) : Server * list Emission :=
  match o with Returns r | Throws r => r end.

(** What the event loop goes on with: nothing, when the handler has
    raised. *)
Definition completed (o : Outcome) : option (Server * list Emission) :=
  match o with Returns r => Some r | Throws _ => None end.

(** The end of a handler whose last statement is
    [if (callback) callback(m)], after it has reached [σ] and sent [out]. *)
Definition reply_last (σ : Server) (out : list Emission)
    (ack : option (list Emission)) : Outcome :=
  match ack with
  | Some ack => Returns (σ, out ++ ack)
  | None => Throws (σ, out)
  end.

(** [socket.on('createRoom', (settings, callback) => ...)] *)
Definition on_createRoom (socket : Socket) (generated : string) (settings : arg)
    (callback : callback_arg) (σ : Server) : Outcome :=
  match createRoom generated (s_id socket) settings σ with
  | None => Throws (σ, [])
  | Some (roomId, σ) =>
      let σ := socket_join socket roomId σ in
      reply_last σ
        ([(ToSocket (s_id socket), roomCreated roomId 0 true)]
         ++ broadcastRoomState roomId σ)
        (reply socket callback (ack_created roomId))
  end.

(** [socket.on('joinRoom', (data, callback) => ...)] *)
Definition on_joinRoom (socket : Socket) (roomId : string) (playerName : jsval)
    (callback : callback_arg) (σ : Server) : Outcome :=
  let '(result, σ) := joinRoom roomId (s_id socket) playerName σ in
  match result with
  | JoinOk room seat player =>
      let σ := socket_join socket roomId σ in
      reply_last σ
        ([(ToSocket (s_id socket), roomJoined roomId seat false (getP σ player))]
         ++ broadcastRoomState roomId σ)
        (reply socket callback (ack_joined (snapshot σ room) seat (getP σ player)))
  | JoinError e => reply_last σ [] (reply socket callback (ack_failed e))
  end.

(** [socket.on('leaveRoom', (roomId) => ...)] *)
Definition on_leaveRoom (socket : Socket) (roomId : string) (σ : Server)
    : Server * list Emission :=
  let σ := leaveRoom roomId (s_id socket) σ in
  let σ := socket_leave socket roomId σ in
  (σ, broadcastRoomState roomId σ).

(** [socket.on('startGame', (roomId) => ...)] *)
Definition on_startGame (socket : Socket) (roomId : string) (σ : Server)
    : Server * list Emission :=
  let failure msg :=
    (σ, if s_connected socket then [(ToSocket (s_id socket), error msg)] else []) in
  match rooms σ !! roomId with
  | None => failure InsufficientPlayers
  | Some r =>
      let room := getR σ r in
      if bool_decide (length (r_players room) < 2) then failure InsufficientPlayers
      else
        match find_player σ room (s_id socket) with
        | None => failure NotHost
        | Some host =>
            if negb (p_isHost (getP σ host)) then failure NotHost
            else
              let σ := setR r (with_status playing (getR σ r)) σ in
              let σ := setR r (with_gameReady false (getR σ r)) σ in
              let room := getR σ r in
              (σ, [(ToRoom roomId,
                    gameStarted (players_of σ room) (r_settings room) playing
                                (r_hostId room))])
        end
  end.

(** [socket.on('getRoomState', (roomId, callback) => ...)] *)
Definition on_getRoomState (socket : Socket) (roomId : string)
    (callback : callback_arg) (σ : Server) : Outcome :=
  match rooms σ !! roomId with
  | Some r =>
      let room := getR σ r in
      reply_last σ []
        (reply socket callback
           (ack_roomState (snapshot σ r) (r_hostId room) (r_gameReady room)))
  | None => reply_last σ [] (reply socket callback (ack_failed RoomNotFound))
  end.

(** [socket.on('gameReady', (data) => ...)] *)
Definition on_gameReady (socket : Socket) (roomId : string) (σ : Server)
    : Server * list Emission :=
  match rooms σ !! roomId with
  | None => (σ, [])
  | Some r =>
      if bool_decide (r_hostId (getR σ r) ≠ s_id socket) then (σ, [])
      else
        let σ := setR r (with_gameReady true (getR σ r)) σ in
        (σ, [(ToRoom roomId, gameReadyNotify (r_gameState (getR σ r)))])
  end.

(** [socket.on('gameStateUpdate', (data) => ...)] *)
Definition on_gameStateUpdate (socket : Socket) (roomId : string)
    (gameState : jsval) (σ : Server) : Server * list Emission :=
  match rooms σ !! roomId with
  | None => (σ, [])
  | Some r =>
      match find_player σ (getR σ r) (s_id socket) with
      | None => (σ, [])
      | Some player =>
          let σ := setR r (with_gameState gameState (getR σ r)) σ in
          (σ, [(ToRoomExcept roomId (s_id socket),
                gameStateSync gameState (p_seat (getP σ player))
                              (p_isHost (getP σ player)))])
      end
  end.

(** The callback that [playerAction] hands to [setTimeout]. It reads the
    room object and the player object it closed over when it runs. *)
Definition delayed_sync (t : Timer) (σ : Server) : list Emission :=
  [(ToRoomExcept (t_roomId t) (t_socket t),
    gameStateSync (r_gameState (getR σ (t_room t)))
                  (p_seat (getP σ (t_player t)))
                  (p_isHost (getP σ (t_player t))))].

(** [socket.on('playerAction', (data) => ...)]. The [console.log] line
    converts the name of the player and [action] to strings before
    anything is sent; [roomId] is a key of the registry there, a string. *)
Definition on_playerAction (socket : Socket) (roomId : string)
    (action params : jsval) (σ : Server) : Outcome :=
  match rooms σ !! roomId with
  | None => Returns (σ, [])
  | Some r =>
      match find_player σ (getR σ r) (s_id socket) with
      | None => Returns (σ, [])
      | Some player =>
          if negb (printable (p_name (getP σ player)) && printable action) then
            Throws (σ, [])
          else
            let out :=
              [(ToRoom roomId,
                actionBroadcast action params (p_seat (getP σ player))
                                (p_name (getP σ player)) (p_isHost (getP σ player)))] in
            if truthy (r_gameState (getR σ r)) then
              Returns
                (set_timers (timers σ ++ [mkTimer 100 (s_id socket) roomId r player]) σ,
                 out)
            else Returns (σ, out)
      end
  end.

(** [socket.on('requestTurnInfo', (roomId, callback) => ...)] *)
Definition on_requestTurnInfo (socket : Socket) (roomId : string)
    (callback : callback_arg) (σ : Server) : Outcome :=
  match rooms σ !! roomId with
  | None => reply_last σ [] (reply socket callback (ack_failed GameNotStarted))
  | Some r =>
      let room := getR σ r in
      if negb (truthy (r_gameState room)) then
        reply_last σ [] (reply socket callback (ack_failed GameNotStarted))
      else
        reply_last σ []
          (reply socket callback
             (ack_turnInfo (field (r_gameState room) "turn")
                           (field (r_gameState room) "phase") (r_hostId room)))
  end.

(** The body of the [for (const [roomId, room] of rooms.entries())] loop of
    the disconnect handler. *)
Definition disconnect_room (socket : Socket) (acc : Server * list Emission)
    (entry : string * loc) : Server * list Emission :=
  let '(σ, out) := acc in
  let '(roomId, room) := entry in
  if existsb (λ p, bool_decide (p_id p = s_id socket)) (players_of σ (getR σ room)) then
    let σ := leaveRoom roomId (s_id socket) σ in
    (σ, out ++ broadcastRoomState roomId σ
            ++ (if bool_decide (r_status (getR σ room) = playing) then
                  [(ToRoom roomId,
                    playerDisconnected (s_id socket) (r_hostId (getR σ room)))]
                else []))
  else (σ, out).

(** [socket.on('disconnect', () => ...)]. The entries are visited in the
    order of [map_to_list]; the order only affects the order of the
    emissions of different rooms. *)
Definition on_disconnect (socket : Socket) (σ : Server) : Server * list Emission :=
  let σ := socket_leaveAll socket σ in
  foldl (disconnect_room socket) (σ, []) (map_to_list (rooms σ)).

(** ** Events *)

Record JoinData := { jd_roomId : string; jd_playerName : jsval }.
Record ReadyData := { rd_roomId : string }.
Record StateData := { sd_roomId : string; sd_gameState : jsval }.
Record ActionData := { ad_roomId : string; ad_action : jsval; ad_params : jsval }.

(** A message of a client. A [data] payload is [None] when the client sent
    [null] or nothing, which the handler cannot destructure. *)
Inductive Inbound :=
| createRoom_msg (generated : string) (settings : arg) (callback : callback_arg)
| joinRoom_msg (data : option JoinData) (callback : callback_arg)
| leaveRoom_msg (roomId : string)
| startGame_msg (roomId : string)
| getRoomState_msg (roomId : string) (callback : callback_arg)
| gameReady_msg (data : option ReadyData)
| gameStateUpdate_msg (data : option StateData)
| playerAction_msg (data : option ActionData)
| requestTurnInfo_msg (roomId : string) (callback : callback_arg)
| disconnect_msg.

Inductive Event :=
| Receive (socket : Socket) (m : Inbound)
| Timeout (i : nat).

(** One turn of the event loop. [None] is an uncaught TypeError, which
    ends the process: no state is reached through it. *)
Definition handle (e : Event) (σ : Server) : option (Server * list Emission) :=
  match e with
  | Receive socket m =>
      match m with
      | createRoom_msg generated settings callback =>
          completed (on_createRoom socket generated settings callback σ)
      | joinRoom_msg data callback =>
          d ← data;
          completed (on_joinRoom socket (jd_roomId d) (jd_playerName d) callback σ)
      | leaveRoom_msg roomId => Some (on_leaveRoom socket roomId σ)
      | startGame_msg roomId => Some (on_startGame socket roomId σ)
      | getRoomState_msg roomId callback =>
          completed (on_getRoomState socket roomId callback σ)
      | gameReady_msg data => d ← data; Some (on_gameReady socket (rd_roomId d) σ)
      | gameStateUpdate_msg data =>
          d ← data; Some (on_gameStateUpdate socket (sd_roomId d) (sd_gameState d) σ)
      | playerAction_msg data =>
          d ← data;
          completed (on_playerAction socket (ad_roomId d) (ad_action d) (ad_params d) σ)
      | requestTurnInfo_msg roomId callback =>
          completed (on_requestTurnInfo socket roomId callback σ)
      | disconnect_msg => Some (on_disconnect socket σ)
      end
  | Timeout i =>
      match timers σ !! i with
      | Some t => Some (set_timers (delete i (timers σ)) σ, delayed_sync t σ)
      | None => Some (σ, [])
      end
  end.

(** The states the server can be in. *)
Inductive reachable : Server → Prop :=
| reachable_init : reachable init
| reachable_step σ e σ' out :
    reachable σ → handle e σ = Some (σ', out) → reachable σ'.

(** Running a list of events from a state, collecting what is sent. *)
Fixpoint run (es : list Event) (σ : Server) : option (Server * list Emission) :=
  match es with
  | [] => Some (σ, [])
  | e :: es =>
      '(σ, out) ← handle e σ;
      '(σ, out') ← run es σ;
      Some (σ, out ++ out')
  end.

(** * Notions used in the statements *)

(** ** Well-formed stores *)

(** What the references of a state satisfy: every reference is allocated,
    no room object is registered twice, and no player object sits twice in
    an array or in the arrays of two room objects. Every pending timer was
    set with a delay of 100. *)
Record wf (σ : Server) : Prop := {
  wf_rooms_alloc : ∀ rid r, rooms σ !! rid = Some r → r < length (roomObjs σ);
  wf_rooms_inj : ∀ rid1 rid2 r,
      rooms σ !! rid1 = Some r → rooms σ !! rid2 = Some r → rid1 = rid2;
  wf_players_alloc : ∀ r room l,
      roomObjs σ !! r = Some room → l ∈ r_players room → l < length (playerObjs σ);
  wf_players_nodup : ∀ r room, roomObjs σ !! r = Some room → NoDup (r_players room);
  wf_players_disj : ∀ r1 r2 room1 room2 l,
      roomObjs σ !! r1 = Some room1 → roomObjs σ !! r2 = Some room2 →
      l ∈ r_players room1 → l ∈ r_players room2 → r1 = r2;
  wf_timers_alloc : ∀ t, t ∈ timers σ →
      t_room t < length (roomObjs σ) ∧ t_player t < length (playerObjs σ);
  wf_timers_delay : ∀ t, t ∈ timers σ → t_delay t = 100
}.

(** ** The lifecycle functions on snapshots *)

(** The host flag that [leaveRoom] reads before it filters the array. *)
Definition was_host (playerId : string) (ps : list Player) : bool :=
  from_option p_isHost false (find (λ p, bool_decide (p_id p = playerId)) ps).

(** [players[0].isHost = true] *)
Definition promote (ps : list Player) : list Player :=
  match ps with
  | [] => []
  | first :: rest => with_isHost true first :: rest
  end.

(** The room object after [leaveRoom], as a function of what it held. *)
Definition after_leave (playerId : string) (s : RoomSnapshot) : RoomSnapshot :=
  let remaining := filter (λ p, p_id p ≠ playerId) (snap_players s) in
  let promoted := was_host playerId (snap_players s) in
  {| snap_players := if promoted then promote remaining else remaining;
     snap_gameState := snap_gameState s;
     snap_hostId :=
       if promoted then from_option p_id (snap_hostId s) (head remaining)
       else snap_hostId s;
     snap_settings := snap_settings s;
     snap_status := snap_status s;
     snap_gameReady := snap_gameReady s |}.

(** The player object that [joinRoom] pushes. *)
Definition joined_player (playerId : string) (playerName : jsval) (seat : nat) : Player :=
  {| p_id := playerId;
     p_name := js_or playerName (JStr ("玩家" +:+ pretty (seat + 1)));
     p_isHost := false;
     p_seat := seat |}.

(** The room object after a successful [joinRoom]. *)
Definition after_join (playerId : string) (playerName : jsval) (s : RoomSnapshot)
    : RoomSnapshot :=
  {| snap_players :=
       snap_players s ++ [joined_player playerId playerName (length (snap_players s))];
     snap_gameState := snap_gameState s;
     snap_hostId := snap_hostId s;
     snap_settings := snap_settings s;
     snap_status := snap_status s;
     snap_gameReady := snap_gameReady s |}.

(** The state after a successful [joinRoom] on the room object [r]. *)
Definition joined_state (r : loc) (playerId : string) (playerName : jsval)
    (σ : Server) : Server :=
  {| rooms := rooms σ;
     roomObjs :=
       <[r := with_players (r_players (getR σ r) ++ [length (playerObjs σ)]) (getR σ r)]>
         (roomObjs σ);
     playerObjs :=
       playerObjs σ ++
         [joined_player playerId playerName (length (r_players (getR σ r)))];
     groups := groups σ;
     timers := timers σ |}.

(** The own properties of the [settings] argument after the default
    parameter value has been applied. *)
Definition settings_props (settings : arg) : gmap string jsval :=
  match settings with
  | ArgObject o => o
  | _ => ∅
  end.

(** The player object and the room object that [createRoom] makes. *)
Definition created_host (hostId : string) (settings : arg) : Player :=
  {| p_id := hostId;
     p_name := js_or (prop (settings_props settings) "playerName") (JStr "玩家1");
     p_isHost := true;
     p_seat := 0 |}.

Definition created_room (hostId : string) (settings : arg) : RoomSnapshot :=
  {| snap_players := [created_host hostId settings];
     snap_gameState := JNull;
     snap_hostId := hostId;
     snap_settings := make_settings (settings_props settings);
     snap_status := waiting;
     snap_gameReady := false |}.

(** The state after [createRoom]. *)
Definition created_state (roomId hostId : string) (settings : arg) (σ : Server)
    : Server :=
  {| rooms := <[roomId := length (roomObjs σ)]> (rooms σ);
     roomObjs := roomObjs σ ++
       [ {| r_players := [length (playerObjs σ)];
            r_gameState := JNull;
            r_hostId := hostId;
            r_settings := make_settings (settings_props settings);
            r_status := waiting;
            r_gameReady := false |} ];
     playerObjs := playerObjs σ ++ [created_host hostId settings];
     groups := groups σ;
     timers := timers σ |}.

(** [settings === null] *)
Definition is_null (a : arg) : bool :=
  match a with ArgNull => true | _ => false end.

(** ** Invariants *)

(** The first player of the array is the host, [hostId] is that player's
    id, and nobody else carries the flag. *)
Definition host_first (s : RoomSnapshot) : Prop :=
  ∃ first rest,
    snap_players s = first :: rest ∧ p_isHost first = true ∧
    snap_hostId s = p_id first ∧ Forall (λ p, p_isHost p = false) rest.

(** Every registered room has its host first. *)
Definition hosts_ok (σ : Server) : Prop :=
  ∀ roomId r, rooms σ !! roomId = Some r → host_first (snapshot σ r).

(** Every player of a registered room is in the channel group of the room. *)
Definition subscribed (σ : Server) : Prop :=
  ∀ roomId r p, rooms σ !! roomId = Some r →
    p ∈ snap_players (snapshot σ r) → p_id p ∈ group σ roomId.

(** The invariant of the reachable states. *)
Record inv (σ : Server) : Prop := {
  inv_wf : wf σ;
  inv_hosts : hosts_ok σ;
  inv_subscribed : subscribed σ
}.

(** The state after a successful [startGame] on the room object [r]. *)
Definition started_state (r : loc) (σ : Server) : Server :=
  setR r (with_gameReady false (with_status playing (getR σ r))) σ.

(** The state that the disconnect loop computes: [leaveRoom] on one room
    id after the other. *)
Definition leave_all (playerId : string) (roomIds : list string) (σ : Server) : Server :=
  foldl (λ σ roomId, leaveRoom roomId playerId σ) σ roomIds.

(** ** Concrete events and states *)

(** A connected socket, and the messages of the scenarios: the draw of
    [generateRoomId] is [roomId], no settings, no display name, no
    acknowledgement callback. *)
Definition sock (id : string) : Socket := mkSocket id true.

(** The client has sent nothing in the position of the callback. *)
Definition no_callback : callback_arg := CallbackValue JUndefined.

Definition create (id roomId : string) : Event :=
  Receive (sock id) (createRoom_msg roomId ArgUndefined no_callback).
Definition join (id roomId : string) : Event :=
  Receive (sock id)
    (joinRoom_msg (Some {| jd_roomId := roomId; jd_playerName := JUndefined |})
                  no_callback).
Definition leave (id roomId : string) : Event :=
  Receive (sock id) (leaveRoom_msg roomId).
Definition start (id roomId : string) : Event :=
  Receive (sock id) (startGame_msg roomId).
Definition update (id roomId : string) (gameState : jsval) : Event :=
  Receive (sock id)
    (gameStateUpdate_msg (Some {| sd_roomId := roomId; sd_gameState := gameState |})).
Definition act (id roomId : string) : Event :=
  Receive (sock id)
    (playerAction_msg
       (Some {| ad_roomId := roomId; ad_action := JStr "discard"; ad_params := JNull |})).

(** The state after a run from the initial state. *)
Definition state_after (es : list Event) : Server :=
  from_option fst init (run es init).

(** The default of a settings key, if it has one. *)
Definition default_of (k : string) : option jsval :=
  if String.eqb k "basePoints" then Some default_basePoints
  else if String.eqb k "perFanPoints" then Some default_perFanPoints
  else if String.eqb k "initialPoints" then Some default_initialPoints
  else None.

(** A caller that sets [basePoints] to 0 and adds a key of its own. *)
Definition custom_settings : arg :=
  ArgObject (<["basePoints" := JNum 0]> (<["flowers" := JBool true]> ∅)).

(** A room with four players whose game has started: A creates it, B, C
    and D join, A starts the game. *)
Definition full_playing : Server :=
  state_after [create "A" "R"; join "B" "R"; join "C" "R"; join "D" "R"; start "A" "R"].

(** A room with two players whose game has started. *)
Definition two_playing : Server :=
  state_after [create "A" "R"; join "B" "R"; start "A" "R"].

(** A sequence of [joinRoom] calls on one room, each given by the id and
    the name of the joining connection; the results are in call order. *)
Fixpoint join_seq (roomId : string) (calls : list (string * jsval)) (σ : Server)
    : list JoinResult * Server :=
  match calls with
  | [] => ([], σ)
  | (playerId, playerName) :: calls =>
      let '(result, σ) := joinRoom roomId playerId playerName σ in
      let '(results, σ) := join_seq roomId calls σ in
      (result :: results, σ)
  end.

(** The seat a call was given, if it succeeded. *)
Definition assigned_seat (result : JoinResult) : option nat :=
  match result with
  | JoinOk _ seat _ => Some seat
  | JoinError _ => None
  end.

(** A room that only its creator is in. *)
Definition alone : Server := state_after [create "A" "R"].

(** A waiting room with the two players A (host) and B. *)
Definition two_waiting : Server := state_after [create "A" "R"; join "B" "R"].

(** A room whose seats are out of order: A creates it, B, C and D join
    (seats 1, 2 and 3), B and C leave, and E joins, which gives E seat 2
    behind D with seat 3. *)
Definition seats_out_of_order : Server :=
  state_after [create "A" "R"; join "B" "R"; join "C" "R"; join "D" "R";
               leave "B" "R"; leave "C" "R"; join "E" "R"].

(** ** Runs without id collisions *)

(** [generateRoomId] does not look at the registry. An event is a fresh
    draw when it does not create a room under an id that is registered. *)
Definition fresh_draw (e : Event) (σ : Server) : Prop :=
  match e with
  | Receive _ (createRoom_msg generated _ _) => rooms σ !! generated = None
  | _ => True
  end.

(** The states reachable by fresh draws only. *)
Inductive reachable_fresh : Server → Prop :=
| reachable_fresh_init : reachable_fresh init
| reachable_fresh_step σ e σ' out :
    reachable_fresh σ → fresh_draw e σ → handle e σ = Some (σ', out) →
    reachable_fresh σ'.

(** Only players of the registered room are in its group. *)
Definition tight (σ : Server) : Prop :=
  ∀ roomId id, id ∈ group σ roomId →
    ∃ r p, rooms σ !! roomId = Some r ∧ p ∈ snap_players (snapshot σ r) ∧ p_id p = id.

(** A room object that has players is registered. *)
Definition no_orphans (σ : Server) : Prop :=
  ∀ r, snap_players (snapshot σ r) ≠ [] → ∃ roomId, rooms σ !! roomId = Some r.

(** [fresh_draw] as a test, and a run that stops at a draw that is not
    fresh. *)
Definition fresh_drawb (e : Event) (σ : Server) : bool :=
  match e with
  | Receive _ (createRoom_msg generated _ _) => bool_decide (rooms σ !! generated = None)
  | _ => true
  end.

Fixpoint run_fresh (es : list Event) (σ : Server) : option Server :=
  match es with
  | [] => Some σ
  | e :: es =>
      if fresh_drawb e σ then '(σ, _) ← handle e σ; run_fresh es σ else None
  end.

(** ** Departures *)

(** The states a departure of [playerId] can leave behind: a call of
    [leaveRoom] on the room, the [leaveRoom] message, and the disconnection
    of the connection [playerId]. *)
Inductive departure (σ : Server) (roomId playerId : string) : Server → Prop :=
| departure_call : departure σ roomId playerId (leaveRoom roomId playerId σ)
| departure_message socket :
    s_id socket = playerId →
    departure σ roomId playerId (on_leaveRoom socket roomId σ).1
| departure_disconnect socket :
    s_id socket = playerId →
    departure σ roomId playerId (on_disconnect socket σ).1.

(** What identifies a player: the fields that no departure rewrites. *)
Definition identity (p : Player) : string * jsval * nat := (p_id p, p_name p, p_seat p).

(** A, B, C and D sit on seats 0 to 3; B leaves. *)
Definition four_waiting : Server :=
  state_after [create "A" "R"; join "B" "R"; join "C" "R"; join "D" "R"].

(** A and B are in a room with a stored game state; B acts and then leaves
    before the timer of the action has fired. *)
Definition actor_left : Server :=
  state_after [create "A" "R"; join "B" "R"; update "A" "R" (JNum 1);
               act "B" "R"; leave "B" "R"].

(** B acts in a room with a stored state; the timer fires after everybody
    has left. *)
Definition everybody_left : list Event :=
  [create "A" "R"; join "B" "R"; update "A" "R" (JNum 1);
   act "B" "R"; leave "B" "R"; leave "A" "R"].

(** ** Transitions of a room object *)

(** [room.status = 'playing'; room.gameReady = false] *)
Definition started (s : RoomSnapshot) : RoomSnapshot :=
  {| snap_players := snap_players s;
     snap_gameState := snap_gameState s;
     snap_hostId := snap_hostId s;
     snap_settings := snap_settings s;
     snap_status := playing;
     snap_gameReady := false |}.

(** [room.gameReady = true] *)
Definition readied (s : RoomSnapshot) : RoomSnapshot :=
  {| snap_players := snap_players s;
     snap_gameState := snap_gameState s;
     snap_hostId := snap_hostId s;
     snap_settings := snap_settings s;
     snap_status := snap_status s;
     snap_gameReady := true |}.

(** [room.gameState = gameState] *)
Definition stored (gameState : jsval) (s : RoomSnapshot) : RoomSnapshot :=
  {| snap_players := snap_players s;
     snap_gameState := gameState;
     snap_hostId := snap_hostId s;
     snap_settings := snap_settings s;
     snap_status := snap_status s;
     snap_gameReady := snap_gameReady s |}.

(** The ways in which one turn of the event loop changes a room object
    that exists. *)
Inductive room_step : RoomSnapshot → RoomSnapshot → Prop :=
| step_same s : room_step s s
| step_join s playerId playerName :
    length (snap_players s) < 4 → snap_status s = waiting →
    room_step s (after_join playerId playerName s)
| step_leave s playerId : room_step s (after_leave playerId s)
| step_start s : 2 ≤ length (snap_players s) → room_step s (started s)
| step_ready s : room_step s (readied s)
| step_store s gameState : room_step s (stored gameState s).

(** ** Player objects, seats and members *)

(** How a turn of the event loop may change a player object: the id, the
    name and the seat stay, and an [isHost] flag that is set stays set. *)
Definition same_player (p p' : Player) : Prop :=
  identity p' = identity p ∧ (p_isHost p = true → p_isHost p' = true).

(** The seats of a room, in array order: the seat at index [i] is at least
    [i] and below four. *)
Definition seat_bounds (seats : list nat) : Prop :=
  ∀ i seat, seats !! i = Some seat → i ≤ seat ∧ seat < 4.

(** The ids of the players of a room. *)
Definition member_ids (s : RoomSnapshot) : gset string :=
  list_to_set (p_id <$> snap_players s).

(** ** What is sent *)

(** The [roomState] message that [broadcastRoomState] makes of a room. *)
Definition roomState_of (s : RoomSnapshot) : Message :=
  roomState (snap_players s) (snap_status s) (snap_settings s)
            (snap_hostId s) (snap_gameReady s).

(** The targets a handler may use while it serves the connection [id]: a
    room, a room without [id], or [id] alone. *)
Definition addressed_for (id : string) (t : Target) : Prop :=
  match t with
  | ToRoom _ => True
  | ToRoomExcept _ sender => sender = id
  | ToSocket id' => id' = id
  | Callback id' => id' = id
  end.

(** What the loop of the disconnect handler sends for one room, given what
    the room holds when the loop reaches it. *)
Definition disconnect_block (socket : Socket) (roomId : string) (s : RoomSnapshot)
    : list Emission :=
  if existsb (λ p, bool_decide (p_id p = s_id socket)) (snap_players s) then
    let s' := after_leave (s_id socket) s in
    (if decide (snap_players s' = []) then []
     else [(ToRoom roomId, roomState_of s')])
    ++ (if bool_decide (snap_status s' = playing)
        then [(ToRoom roomId, playerDisconnected (s_id socket) (snap_hostId s'))]
        else [])
  else [].

(** ** The game fields *)

(** The fields of a room object that the game handlers write. *)
Definition game_fields (s : RoomSnapshot) : jsval * Status * bool :=
  (snap_gameState s, snap_status s, snap_gameReady s).

(** ** The writes of [leaveRoom] *)

(** What [leaveRoom] writes for a registered room: the new value of the
    room object and, when the host flag is passed on, the player object
    that gets it with its new value. *)
Definition leave_effect (σ : Server) (r : loc) (playerId : string)
    : Room * option (loc * Player) :=
  let room := getR σ r in
  let remaining := filter (λ l, p_id (getP σ l) ≠ playerId) (r_players room) in
  match remaining with
  | first :: _ =>
      if was_host playerId (players_of σ room)
      then (with_hostId (p_id (getP σ first)) (with_players remaining room),
            Some (first, with_isHost true (getP σ first)))
      else (with_players remaining room, None)
  | [] => (with_players remaining room, None)
  end.

(** * Properties *)

(** ** Reading after writing *)

Lemma getP_setP_eq l p σ : l < length (playerObjs σ) → getP (setP l p σ) l = p.
Proof. intros. unfold getP; simpl. by apply list_lookup_total_insert_eq. Qed.

Lemma getP_setP_ne l l' p σ : l ≠ l' → getP (setP l p σ) l' = getP σ l'.
Proof. intros. unfold getP; simpl. by apply list_lookup_total_insert_ne. Qed.

Lemma getR_setR_eq r room σ : r < length (roomObjs σ) → getR (setR r room σ) r = room.
Proof. intros. unfold getR; simpl. by apply list_lookup_total_insert_eq. Qed.

Lemma getR_setR_ne r r' room σ : r ≠ r' → getR (setR r room σ) r' = getR σ r'.
Proof. intros. unfold getR; simpl. by apply list_lookup_total_insert_ne. Qed.

Lemma getR_lookup σ r : r < length (roomObjs σ) → roomObjs σ !! r = Some (getR σ r).
Proof. apply list_lookup_lookup_total_lt. Qed.

Lemma getP_lookup σ l : l < length (playerObjs σ) → playerObjs σ !! l = Some (getP σ l).
Proof. apply list_lookup_lookup_total_lt. Qed.

Lemma lookup_getR σ r room : roomObjs σ !! r = Some room → getR σ r = room.
Proof. intros. unfold getR. by apply list_lookup_total_correct. Qed.

(** Writing back what a reference already holds changes nothing. *)
Lemma setR_getR r σ : setR r (getR σ r) σ = σ.
Proof.
  destruct σ as [m ro po g ts]. unfold setR, getR; simpl. f_equal.
  apply list_insert_id'. intros. by apply list_lookup_lookup_total_lt.
Qed.

Lemma players_of_ext σ σ' (ls : list loc) :
  (∀ l, l ∈ ls → getP σ' l = getP σ l) → getP σ' <$> ls = getP σ <$> ls.
Proof.
  intros H. apply list_fmap_ext. intros i l Hl. apply H.
  by eapply list_elem_of_lookup_2.
Qed.

Lemma fmap_filter_deref {A B} (f : A → B) (P : B → Prop) `{∀ y, Decision (P y)}
    (l : list A) :
  f <$> filter (λ x, P (f x)) l = filter P (f <$> l).
Proof.
  induction l as [|x l IH]; [done|].
  rewrite fmap_cons. destruct (decide (P (f x))).
  - rewrite !filter_cons_True by done. by rewrite fmap_cons, IH.
  - by rewrite !filter_cons_False.
Qed.

Lemma find_deref {A B} (f : A → B) (q : B → bool) (l : list A) :
  f <$> find (λ x, q (f x)) l = find q (f <$> l).
Proof.
  induction l as [|x l IH]; [done|]. simpl. by destruct (q (f x)).
Qed.

(** ** Well-formed stores *)

Lemma wf_init : wf init.
Proof.
  split; simpl; intros *; try by rewrite ?lookup_empty, ?lookup_nil.
  all: by intros ?%elem_of_nil.
Qed.

(** Replacing a room object by one whose array holds some of the same
    player objects. *)
Lemma wf_setR σ r room' :
  wf σ → r < length (roomObjs σ) →
  NoDup (r_players room') →
  (∀ l, l ∈ r_players room' → l ∈ r_players (getR σ r)) →
  wf (setR r room' σ).
Proof.
  intros [Ha Hi Hp Hn Hd Ht Hdl] Hr Hnd Hsub.
  assert (Hget := getR_lookup σ r Hr).
  split; simpl.
  - intros. rewrite length_insert. eauto.
  - eauto.
  - intros r0 room l Hl Hin. destruct (decide (r0 = r)) as [->|Hne].
    + rewrite list_lookup_insert_eq in Hl by done. simplify_eq. eauto.
    + rewrite list_lookup_insert_ne in Hl by done. eauto.
  - intros r0 room Hl. destruct (decide (r0 = r)) as [->|Hne].
    + rewrite list_lookup_insert_eq in Hl by done. by simplify_eq.
    + rewrite list_lookup_insert_ne in Hl by done. eauto.
  - intros r1 r2 room1 room2 l H1 H2 Hl1 Hl2.
    destruct (decide (r1 = r)) as [->|Hne1], (decide (r2 = r)) as [->|Hne2];
      [done|..].
    + rewrite list_lookup_insert_eq in H1 by done.
      rewrite list_lookup_insert_ne in H2 by done. simplify_eq. eauto.
    + rewrite list_lookup_insert_ne in H1 by done.
      rewrite list_lookup_insert_eq in H2 by done. simplify_eq. eauto.
    + rewrite list_lookup_insert_ne in H1 by done.
      rewrite list_lookup_insert_ne in H2 by done. eauto.
  - intros t Hin. rewrite length_insert. eauto.
  - done.
Qed.

Lemma wf_setP σ l p : wf σ → wf (setP l p σ).
Proof.
  intros [Ha Hi Hp Hn Hd Ht Hdl].
  split; simpl; eauto; intros *; rewrite length_insert; eauto.
Qed.

Lemma wf_set_rooms_delete σ rid : wf σ → wf (set_rooms (delete rid (rooms σ)) σ).
Proof.
  intros [Ha Hi Hp Hn Hd Ht Hdl].
  split; simpl; eauto.
  - intros rid0 r [_ H]%lookup_delete_Some. eauto.
  - intros rid1 rid2 r [_ H1]%lookup_delete_Some [_ H2]%lookup_delete_Some. eauto.
Qed.

Lemma wf_set_groups σ g : wf σ → wf (set_groups g σ).
Proof. intros [Ha Hi Hp Hn Hd Ht Hdl]. by split. Qed.

(** ** What [leaveRoom] does to a room *)

Lemma was_host_deref σ room playerId :
  from_option (λ l, p_isHost (getP σ l)) false (find_player σ room playerId)
  = was_host playerId (players_of σ room).
Proof.
  unfold was_host, players_of, find_player.
  rewrite <- (find_deref (getP σ) (λ p, bool_decide (p_id p = playerId))).
  by destruct (find _ _).
Qed.

Lemma filter_deref σ room playerId :
  getP σ <$> filter (λ l, p_id (getP σ l) ≠ playerId) (r_players room)
  = filter (λ p, p_id p ≠ playerId) (players_of σ room).
Proof.
  unfold players_of.
  exact (fmap_filter_deref (getP σ) (λ p : Player, p_id p ≠ playerId) (r_players room)).
Qed.

Lemma leaveRoom_absent σ roomId playerId :
  rooms σ !! roomId = None → leaveRoom roomId playerId σ = σ.
Proof. intros H. unfold leaveRoom. by rewrite H. Qed.

(** The three ways [leaveRoom] ends when the room exists. *)
Lemma leaveRoom_cases σ roomId playerId r :
  wf σ → rooms σ !! roomId = Some r →
  let room := getR σ r in
  let remaining := filter (λ l, p_id (getP σ l) ≠ playerId) (r_players room) in
  let σ1 := setR r (with_players remaining room) σ in
  (remaining = [] ∧
   leaveRoom roomId playerId σ = set_rooms (delete roomId (rooms σ)) σ1)
  ∨ (∃ first rest, remaining = first :: rest ∧
       was_host playerId (players_of σ room) = true ∧
       leaveRoom roomId playerId σ =
         setR r (with_hostId (p_id (getP σ first)) (with_players remaining room))
              (setP first (with_isHost true (getP σ first)) σ1))
  ∨ (remaining ≠ [] ∧ was_host playerId (players_of σ room) = false ∧
     leaveRoom roomId playerId σ = σ1).
Proof.
  intros Hwf Hr room remaining σ1.
  assert (Hlt : r < length (roomObjs σ)) by by eapply wf_rooms_alloc.
  unfold leaveRoom. rewrite Hr. fold room. fold remaining. fold σ1.
  rewrite was_host_deref.
  destruct remaining as [|first rest] eqn:Hrem.
  - left. split; [done|]. by rewrite bool_decide_eq_true_2.
  - rewrite bool_decide_eq_false_2 by done.
    destruct (was_host playerId (players_of σ room)) eqn:Hw; simpl.
    + right; left. exists first, rest. split_and!; [done..|].
      assert (getP σ1 first = getP σ first) as -> by done.
      assert (getR (setP first (with_isHost true (getP σ first)) σ1) r
              = with_players (first :: rest) room) as ->.
      { unfold getR; simpl. by apply list_lookup_total_insert_eq. }
      assert (Hfirst : first < length (playerObjs σ)).
      { eapply (wf_players_alloc σ Hwf r room); [by apply getR_lookup|].
        assert (first ∈ filter (λ l, p_id (getP σ l) ≠ playerId) (r_players room))
          as [_ ?]%list_elem_of_filter; [|done].
        fold remaining in Hrem |- *. rewrite Hrem. left. }
      by rewrite getP_setP_eq.
    + right; right. done.
Qed.

Lemma leaveRoom_snapshot σ roomId playerId r :
  wf σ → rooms σ !! roomId = Some r →
  snapshot (leaveRoom roomId playerId σ) r = after_leave playerId (snapshot σ r).
Proof.
  intros Hwf Hr.
  assert (Hlt : r < length (roomObjs σ)) by by eapply wf_rooms_alloc.
  pose proof (filter_deref σ (getR σ r) playerId) as Hfilter.
  destruct (leaveRoom_cases σ roomId playerId r Hwf Hr)
    as [[Hrem ->]|[(first & rest & Hrem & Hw & ->)|(Hrem & Hw & ->)]];
    unfold snapshot, after_leave; simpl.
  - assert (getR (set_rooms (delete roomId (rooms σ))
               (setR r (with_players
                  (filter (λ l, p_id (getP σ l) ≠ playerId) (r_players (getR σ r)))
                  (getR σ r)) σ)) r
            = with_players [] (getR σ r)) as ->.
    { rewrite Hrem. unfold getR at 1; simpl. by apply list_lookup_total_insert_eq. }
    rewrite Hrem in Hfilter. simpl in Hfilter. rewrite <- Hfilter. simpl.
    by destruct (was_host _ _).
  - rewrite getR_setR_eq by (simpl; by rewrite length_insert).
    rewrite Hw, <- Hfilter, Hrem. simpl. f_equal.
    assert (Hnd : NoDup (first :: rest)).
    { rewrite <- Hrem. apply NoDup_filter.
      eapply wf_players_nodup; [done|by apply getR_lookup]. }
    apply NoDup_cons in Hnd as [Hnotin _].
    assert (Hfirst : first < length (playerObjs σ)).
    { eapply (wf_players_alloc σ Hwf r (getR σ r)); [by apply getR_lookup|].
      assert (first ∈ filter (λ l, p_id (getP σ l) ≠ playerId) (r_players (getR σ r)))
        as [_ ?]%list_elem_of_filter; [|done].
      rewrite Hrem. left. }
    unfold players_of; simpl. f_equal.
    + unfold getP; simpl. by apply list_lookup_total_insert_eq.
    + apply list_fmap_ext. intros i l Hl. unfold getP; simpl.
      apply list_lookup_total_insert_ne. intros ->.
      apply Hnotin. by eapply list_elem_of_lookup_2.
  - rewrite getR_setR_eq by done. rewrite Hw. simpl. by rewrite <- Hfilter.
Qed.

(** [leaveRoom] leaves every other room object as it was. *)
Lemma leaveRoom_frame σ roomId playerId r r' :
  wf σ → rooms σ !! roomId = Some r → r' ≠ r →
  snapshot (leaveRoom roomId playerId σ) r' = snapshot σ r'.
Proof.
  intros Hwf Hr Hne.
  assert (Hlt : r < length (roomObjs σ)) by by eapply wf_rooms_alloc.
  destruct (leaveRoom_cases σ roomId playerId r Hwf Hr)
    as [[Hrem ->]|[(first & rest & Hrem & Hw & ->)|(Hrem & Hw & ->)]];
    unfold snapshot.
  - assert (∀ σ0 m, getR (set_rooms m σ0) r' = getR σ0 r') as -> by done.
    by rewrite getR_setR_ne.
  - rewrite getR_setR_ne by done.
    assert (∀ σ0 l p, getR (setP l p σ0) r' = getR σ0 r') as -> by done.
    rewrite getR_setR_ne by done.
    assert (players_of
              (setR r (with_hostId (p_id (getP σ first))
                         (with_players
                            (filter (λ l, p_id (getP σ l) ≠ playerId)
                               (r_players (getR σ r))) (getR σ r)))
                 (setP first (with_isHost true (getP σ first))
                    (setR r (with_players
                       (filter (λ l, p_id (getP σ l) ≠ playerId)
                          (r_players (getR σ r))) (getR σ r)) σ)))
              (getR σ r')
            = players_of σ (getR σ r')) as ->; [|done].
    apply list_fmap_ext. intros i l Hl. unfold getP; simpl.
    apply list_lookup_total_insert_ne. intros ->.
    assert (Hin : l ∈ r_players (getR σ r')) by by eapply list_elem_of_lookup_2.
    assert (Hlt' : r' < length (roomObjs σ)).
    { destruct (decide (r' < length (roomObjs σ))) as [|Hge]; [done|].
      unfold getR in Hin. rewrite list_lookup_total_alt in Hin.
      rewrite lookup_ge_None_2 in Hin by lia. simpl in Hin. by apply elem_of_nil in Hin. }
    apply Hne. eapply (wf_players_disj σ Hwf r' r); [by apply getR_lookup..|done|].
    assert (l ∈ filter (λ l, p_id (getP σ l) ≠ playerId) (r_players (getR σ r)))
      as [_ ?]%list_elem_of_filter; [|done].
    rewrite Hrem. left.
  - by rewrite getR_setR_ne.
Qed.

Lemma leaveRoom_rooms σ roomId playerId r :
  wf σ → rooms σ !! roomId = Some r →
  rooms (leaveRoom roomId playerId σ) =
    if decide (filter (λ p, p_id p ≠ playerId) (snap_players (snapshot σ r)) = [])
    then delete roomId (rooms σ) else rooms σ.
Proof.
  intros Hwf Hr.
  pose proof (filter_deref σ (getR σ r) playerId) as Hfilter. simpl.
  rewrite <- Hfilter.
  destruct (leaveRoom_cases σ roomId playerId r Hwf Hr)
    as [[Hrem ->]|[(first & rest & Hrem & Hw & ->)|(Hrem & Hw & ->)]]; simpl.
  - rewrite Hrem. by rewrite decide_True.
  - rewrite Hrem. by rewrite decide_False.
  - rewrite decide_False; [done|]. by intros ?%fmap_nil_inv.
Qed.

Lemma leaveRoom_wf σ roomId playerId : wf σ → wf (leaveRoom roomId playerId σ).
Proof.
  intros Hwf. destruct (rooms σ !! roomId) as [r|] eqn:Hr;
    [|by rewrite leaveRoom_absent].
  assert (Hlt : r < length (roomObjs σ)) by by eapply wf_rooms_alloc.
  assert (H1 : wf (setR r (with_players
                 (filter (λ l, p_id (getP σ l) ≠ playerId) (r_players (getR σ r)))
                 (getR σ r)) σ)).
  { apply wf_setR; [done..| |]; simpl.
    - apply NoDup_filter. eapply wf_players_nodup; [done|by apply getR_lookup].
    - by intros l [_ ?]%list_elem_of_filter. }
  destruct (leaveRoom_cases σ roomId playerId r Hwf Hr)
    as [[Hrem ->]|[(first & rest & Hrem & Hw & ->)|(Hrem & Hw & ->)]].
  - by apply (wf_set_rooms_delete _ roomId) in H1.
  - apply wf_setR; simpl.
    + by apply wf_setP.
    + by rewrite length_insert.
    + apply NoDup_filter. eapply (wf_players_nodup σ Hwf). by apply getR_lookup.
    + intros l Hl.
      assert (getR (setP first (with_isHost true (getP σ first))
                (setR r (with_players
                   (filter (λ l, p_id (getP σ l) ≠ playerId) (r_players (getR σ r)))
                   (getR σ r)) σ)) r
              = with_players
                  (filter (λ l, p_id (getP σ l) ≠ playerId) (r_players (getR σ r)))
                  (getR σ r)) as ->; [|done].
      unfold getR; simpl. by apply list_lookup_total_insert_eq.
  - done.
Qed.

Lemma leaveRoom_groups σ roomId playerId :
  groups (leaveRoom roomId playerId σ) = groups σ.
Proof.
  unfold leaveRoom. destruct (rooms σ !! roomId); [|done].
  repeat (case_bool_decide || case_match); done.
Qed.

Lemma leaveRoom_timers σ roomId playerId :
  timers (leaveRoom roomId playerId σ) = timers σ.
Proof.
  unfold leaveRoom. destruct (rooms σ !! roomId); [|done].
  repeat (case_bool_decide || case_match); done.
Qed.

Lemma leaveRoom_other_rooms σ roomId playerId roomId' :
  roomId' ≠ roomId →
  rooms (leaveRoom roomId playerId σ) !! roomId' = rooms σ !! roomId'.
Proof.
  intros Hne. unfold leaveRoom. destruct (rooms σ !! roomId); [|done].
  repeat (case_bool_decide || case_match); simpl; try done.
  all: by rewrite lookup_delete_ne.
Qed.

(** ** What [joinRoom] does to a room *)

(** The outcome of [joinRoom], by the state of the room. *)
Lemma joinRoom_cases σ roomId playerId playerName :
  match rooms σ !! roomId with
  | None => joinRoom roomId playerId playerName σ = (JoinError RoomNotFound, σ)
  | Some r =>
      let room := getR σ r in
      if decide (4 ≤ length (r_players room)) then
        joinRoom roomId playerId playerName σ = (JoinError RoomFull, σ)
      else if decide (r_status room = waiting) then
        joinRoom roomId playerId playerName σ =
          (JoinOk r (length (r_players room)) (length (playerObjs σ)),
           joined_state r playerId playerName σ)
      else joinRoom roomId playerId playerName σ = (JoinError GameAlreadyStarted, σ)
  end.
Proof.
  unfold joinRoom. destruct (rooms σ !! roomId) as [r|]; [|done]. simpl.
  destruct (decide (4 ≤ _)).
  - by rewrite bool_decide_eq_true_2.
  - rewrite bool_decide_eq_false_2 by done.
    destruct (decide (_ = waiting)).
    + by rewrite bool_decide_eq_false_2 by naive_solver.
    + by rewrite bool_decide_eq_true_2.
Qed.

Section join_ok.
Context (σ : Server) (roomId playerId : string) (playerName : jsval) (r : loc).
Hypothesis Hwf : wf σ.
Hypothesis Hr : rooms σ !! roomId = Some r.

Local Abbreviation room := (getR σ r).
Local Abbreviation σ' := (joined_state r playerId playerName σ).

Local Lemma join_r_lt : r < length (roomObjs σ).
Proof. by eapply wf_rooms_alloc. Qed.

Local Lemma join_old_player l r0 :
  l ∈ r_players (getR σ r0) → l < length (playerObjs σ).
Proof.
  intros Hin. destruct (decide (r0 < length (roomObjs σ))) as [Hlt|Hge].
  - eapply wf_players_alloc; [done|by apply getR_lookup|done].
  - unfold getR in Hin. rewrite list_lookup_total_alt in Hin.
    rewrite lookup_ge_None_2 in Hin by lia. by apply elem_of_nil in Hin.
Qed.

Local Lemma join_getP_old l : l < length (playerObjs σ) → getP σ' l = getP σ l.
Proof. intros. unfold getP; simpl. by apply lookup_total_app_l. Qed.

Lemma join_getP_new :
  getP σ' (length (playerObjs σ))
  = joined_player playerId playerName (length (r_players room)).
Proof.
  unfold getP; simpl. rewrite lookup_total_app_r by lia.
  by rewrite Nat.sub_diag.
Qed.

Lemma join_snapshot : snapshot σ' r = after_join playerId playerName (snapshot σ r).
Proof.
  pose proof join_r_lt as Hlt.
  unfold snapshot, after_join.
  assert (getR (joined_state r playerId playerName σ) r
          = with_players (r_players room ++ [length (playerObjs σ)]) room) as ->.
  { unfold getR at 1; simpl. by apply list_lookup_total_insert_eq. }
  simpl. f_equal.
  unfold players_of, with_players; cbn [r_players]. rewrite fmap_app. simpl. f_equal.
  - apply list_fmap_ext. intros i l Hl. unfold getP; simpl.
    apply lookup_total_app_l. eapply (join_old_player l r).
    by eapply list_elem_of_lookup_2.
  - unfold getP; simpl. rewrite lookup_total_app_r by lia.
    rewrite Nat.sub_diag. simpl. by rewrite length_fmap.
Qed.

Lemma join_frame r' : r' ≠ r → snapshot σ' r' = snapshot σ r'.
Proof.
  intros Hne. unfold snapshot.
  assert (getR (joined_state r playerId playerName σ) r' = getR σ r') as ->.
  { unfold getR; simpl. by apply list_lookup_total_insert_ne. }
  f_equal. apply list_fmap_ext. intros i l Hl. unfold getP; simpl.
  apply lookup_total_app_l. eapply (join_old_player l r').
  by eapply list_elem_of_lookup_2.
Qed.

Lemma join_wf : wf σ'.
Proof.
  pose proof join_r_lt as Hlt. destruct Hwf as [Ha Hi Hp Hn Hd Ht Hdl].
  assert (Hfresh : ∀ r0 room0, roomObjs σ !! r0 = Some room0 →
                     length (playerObjs σ) ∉ r_players room0).
  { intros r0 room0 H0 Hin. apply Hp with (l := length (playerObjs σ)) in H0; [lia|done]. }
  assert (Hget := getR_lookup σ r Hlt).
  split; simpl.
  - intros. rewrite length_insert. eauto.
  - eauto.
  - intros r0 room0 l Hl Hin. rewrite length_app. simpl.
    destruct (decide (r0 = r)) as [->|Hne].
    + rewrite list_lookup_insert_eq in Hl by done. simplify_eq. simpl in Hin.
      apply elem_of_app in Hin as [Hin|Hin%list_elem_of_singleton]; [|lia].
      apply Hp with (l := l) in Hget; [lia|done].
    + rewrite list_lookup_insert_ne in Hl by done.
      apply Hp with (l := l) in Hl; [lia|done].
  - intros r0 room0 Hl. destruct (decide (r0 = r)) as [->|Hne].
    + rewrite list_lookup_insert_eq in Hl by done. simplify_eq. simpl.
      apply NoDup_app. split_and!; [by eapply Hn| |apply NoDup_singleton].
      intros l Hin ->%list_elem_of_singleton. by eapply Hfresh.
    + rewrite list_lookup_insert_ne in Hl by done. eauto.
  - intros r1 r2 room1 room2 l H1 H2 Hl1 Hl2.
    destruct (decide (r1 = r)) as [->|Hne1], (decide (r2 = r)) as [->|Hne2];
      [done|..].
    + rewrite list_lookup_insert_eq in H1 by done.
      rewrite list_lookup_insert_ne in H2 by done. simplify_eq. simpl in Hl1.
      apply elem_of_app in Hl1 as [Hl1|Hl1%list_elem_of_singleton]; [eauto|].
      subst l. by apply Hfresh in H2.
    + rewrite list_lookup_insert_ne in H1 by done.
      rewrite list_lookup_insert_eq in H2 by done. simplify_eq. simpl in Hl2.
      apply elem_of_app in Hl2 as [Hl2|Hl2%list_elem_of_singleton]; [eauto|].
      subst l. by apply Hfresh in H1.
    + rewrite list_lookup_insert_ne in H1 by done.
      rewrite list_lookup_insert_ne in H2 by done. eauto.
  - intros t Hin. rewrite length_insert, length_app. simpl.
    destruct (Ht t Hin). lia.
  - done.
Qed.
End join_ok.

(** ** What [createRoom] does *)

Lemma createRoom_cases roomId hostId settings σ :
  createRoom roomId hostId settings σ =
    if is_null settings then None
    else Some (roomId, created_state roomId hostId settings σ).
Proof. by destruct settings. Qed.

Section create_ok.
Context (σ : Server) (roomId hostId : string) (settings : arg).
Hypothesis Hwf : wf σ.

Local Abbreviation σ' := (created_state roomId hostId settings σ).

Lemma create_snapshot :
  snapshot σ' (length (roomObjs σ)) = created_room hostId settings.
Proof.
  unfold snapshot, created_room, getR; simpl.
  rewrite lookup_total_app_r by lia. rewrite Nat.sub_diag. simpl.
  unfold players_of, getP; simpl.
  rewrite lookup_total_app_r by lia. by rewrite Nat.sub_diag.
Qed.

Lemma create_frame r : r < length (roomObjs σ) → snapshot σ' r = snapshot σ r.
Proof.
  intros Hlt. unfold snapshot.
  assert (getR σ' r = getR σ r) as ->.
  { unfold getR; simpl. by apply lookup_total_app_l. }
  f_equal. apply list_fmap_ext. intros i l Hl. unfold getP; simpl.
  apply lookup_total_app_l.
  eapply (wf_players_alloc σ Hwf r); [by apply getR_lookup|].
  by eapply list_elem_of_lookup_2.
Qed.

Lemma create_wf : wf σ'.
Proof.
  destruct Hwf as [Ha Hi Hp Hn Hd Ht Hdl].
  assert (Hold : ∀ r room, (roomObjs σ ++
             [ {| r_players := [length (playerObjs σ)]; r_gameState := JNull;
                  r_hostId := hostId;
                  r_settings := make_settings (settings_props settings);
                  r_status := waiting; r_gameReady := false |} ]) !! r = Some room →
           (r < length (roomObjs σ) ∧ roomObjs σ !! r = Some room)
           ∨ (r = length (roomObjs σ) ∧ r_players room = [length (playerObjs σ)])).
  { intros r room Hl. destruct (decide (r < length (roomObjs σ))).
    - left. by rewrite lookup_app_l in Hl.
    - right. rewrite lookup_app_r in Hl by lia.
      destruct (r - length (roomObjs σ)) as [|k] eqn:Hk; simpl in Hl; [|done].
      simplify_eq. split; [lia|done]. }
  split; simpl.
  - intros rid r Hl. rewrite length_app. simpl.
    apply lookup_insert_Some in Hl as [[_ <-]|[_ Hl]]; [lia|].
    apply Ha in Hl. lia.
  - intros rid1 rid2 r H1 H2.
    apply lookup_insert_Some in H1 as [[<- <-]|[Hne1 H1]];
      apply lookup_insert_Some in H2 as [[<- Heq]|[Hne2 H2]]; try done.
    + apply Ha in H2. lia.
    + apply Ha in H1. lia.
    + eauto.
  - intros r room l Hl Hin. rewrite length_app. simpl.
    apply Hold in Hl as [[_ Hl]|[_ Hl]].
    + apply Hp with (l := l) in Hl; [lia|done].
    + rewrite Hl in Hin. apply list_elem_of_singleton in Hin. lia.
  - intros r room Hl. apply Hold in Hl as [[_ Hl]|[_ Hl]]; [eauto|].
    rewrite Hl. apply NoDup_singleton.
  - intros r1 r2 room1 room2 l H1 H2 Hl1 Hl2.
    apply Hold in H1 as [[Hlt1 H1]|[-> H1]]; apply Hold in H2 as [[Hlt2 H2]|[-> H2]].
    + eauto.
    + rewrite H2 in Hl2. apply list_elem_of_singleton in Hl2. subst l.
      apply Hp with (l := length (playerObjs σ)) in H1; [lia|done].
    + rewrite H1 in Hl1. apply list_elem_of_singleton in Hl1. subst l.
      apply Hp with (l := length (playerObjs σ)) in H2; [lia|done].
    + done.
  - intros t Hin. rewrite !length_app. simpl. destruct (Ht t Hin). lia.
  - done.
Qed.
End create_ok.

(** ** The host of a room *)

Lemma was_host_cons p ps playerId :
  was_host playerId (p :: ps) =
    if bool_decide (p_id p = playerId) then p_isHost p else was_host playerId ps.
Proof. unfold was_host. simpl. by case_bool_decide. Qed.

Lemma was_host_guests ps playerId :
  Forall (λ p, p_isHost p = false) ps → was_host playerId ps = false.
Proof.
  induction 1 as [|p ps Hp _ IH]; [done|].
  rewrite was_host_cons. by case_bool_decide.
Qed.

Lemma was_host_nonmember ps playerId :
  Forall (λ p, p_id p ≠ playerId) ps → was_host playerId ps = false.
Proof.
  induction 1 as [|p ps Hp _ IH]; [done|].
  rewrite was_host_cons. by rewrite bool_decide_eq_false_2.
Qed.

Lemma filter_nonmember (ps : list Player) playerId :
  Forall (λ p, p_id p ≠ playerId) ps → filter (λ p, p_id p ≠ playerId) ps = ps.
Proof.
  induction 1 as [|p ps Hp _ IH]; [done|].
  by rewrite filter_cons_True, IH.
Qed.

Lemma after_leave_nonmember s playerId :
  Forall (λ p, p_id p ≠ playerId) (snap_players s) → after_leave playerId s = s.
Proof.
  intros H. unfold after_leave.
  rewrite was_host_nonmember, filter_nonmember by done. by destruct s.
Qed.

Lemma host_first_after_leave s playerId :
  host_first s →
  filter (λ p, p_id p ≠ playerId) (snap_players s) ≠ [] →
  host_first (after_leave playerId s).
Proof.
  intros (first & rest & Hps & Hhost & Hid & Hrest) Hne.
  unfold after_leave. rewrite Hps in *. rewrite was_host_cons.
  assert (Hsub : Forall (λ p, p_isHost p = false) (filter (λ p, p_id p ≠ playerId) rest)).
  { apply Forall_forall. intros p [_ Hin]%list_elem_of_filter.
    by eapply Forall_forall in Hrest. }
  case_bool_decide as Hfirst.
  - rewrite Hhost. rewrite filter_cons_False in * by naive_solver.
    destruct (filter _ rest) as [|p ps] eqn:Hf; [done|].
    apply Forall_cons in Hsub as [_ Hps'].
    exists (with_isHost true p), ps. by simpl.
  - rewrite was_host_guests by done. rewrite filter_cons_True by done.
    exists first, (filter (λ p, p_id p ≠ playerId) rest). by simpl.
Qed.

Lemma host_first_after_join s playerId playerName :
  host_first s → host_first (after_join playerId playerName s).
Proof.
  intros (first & rest & Hps & Hhost & Hid & Hrest).
  exists first, (rest ++ [joined_player playerId playerName (length (snap_players s))]).
  unfold after_join; simpl. rewrite Hps. split_and!; try done.
  apply Forall_app. split; [done|]. by apply Forall_singleton.
Qed.

Lemma host_first_created hostId settings : host_first (created_room hostId settings).
Proof. exists (created_host hostId settings), []. by simpl. Qed.

(** ** The invariant of the registry *)

Lemma inv_init : inv init.
Proof. split; [apply wf_init|..]; by intros ??. Qed.

Lemma snapshot_setR_eq σ r room' :
  r < length (roomObjs σ) →
  snapshot (setR r room' σ) r =
    {| snap_players := getP σ <$> r_players room';
       snap_gameState := r_gameState room';
       snap_hostId := r_hostId room';
       snap_settings := r_settings room';
       snap_status := r_status room';
       snap_gameReady := r_gameReady room' |}.
Proof. intros. unfold snapshot. by rewrite getR_setR_eq. Qed.

Lemma snapshot_setR_ne σ r r' room' :
  r ≠ r' → snapshot (setR r room' σ) r' = snapshot σ r'.
Proof. intros. unfold snapshot. by rewrite getR_setR_ne. Qed.

(** The invariant only looks at the registry, the groups, and the players
    and [hostId] of each room object. *)
Lemma inv_transfer σ σ' :
  inv σ → wf σ' → rooms σ' = rooms σ → groups σ' = groups σ →
  (∀ r, snap_players (snapshot σ' r) = snap_players (snapshot σ r)
        ∧ snap_hostId (snapshot σ' r) = snap_hostId (snapshot σ r)) →
  inv σ'.
Proof.
  intros [Hwf Hh Hs] Hwf' Hrooms Hgroups Hsame. split; [done|..].
  - intros roomId r Hr. rewrite Hrooms in Hr.
    destruct (Hh roomId r Hr) as (first & rest & Hps & ? & Hid & ?).
    destruct (Hsame r) as [Hp Hi].
    exists first, rest. by rewrite Hp, Hi.
  - intros roomId r p Hr Hin. rewrite Hrooms in Hr.
    destruct (Hsame r) as [Hp _]. rewrite Hp in Hin.
    unfold group. rewrite Hgroups. by eapply Hs.
Qed.

(** Writing fields of a registered room object other than [players] and
    [hostId]. *)
Lemma inv_setR_fields σ r room' :
  inv σ → r < length (roomObjs σ) →
  r_players room' = r_players (getR σ r) →
  r_hostId room' = r_hostId (getR σ r) →
  inv (setR r room' σ).
Proof.
  intros Hinv Hlt Hps Hid. apply (inv_transfer σ); [done| |done|done|].
  - apply wf_setR; [apply Hinv|done|..]; rewrite Hps.
    + eapply wf_players_nodup; [apply Hinv|by apply getR_lookup].
    + done.
  - intros r'. destruct (decide (r = r')) as [<-|Hne].
    + rewrite snapshot_setR_eq by done. simpl. by rewrite Hps, Hid.
    + by rewrite snapshot_setR_ne.
Qed.

Lemma inv_set_timers σ ts :
  inv σ →
  (∀ t, t ∈ ts → t_room t < length (roomObjs σ) ∧ t_player t < length (playerObjs σ)
                 ∧ t_delay t = 100) →
  inv (set_timers ts σ).
Proof.
  intros Hinv Hts. apply (inv_transfer σ); [done| |done|done|done].
  destruct Hinv as [[Ha Hi Hp Hn Hd Ht Hdl] _ _]. split; try done.
  - intros t Hin. destruct (Hts t Hin) as (? & ? & ?). done.
  - intros t Hin. by destruct (Hts t Hin) as (? & ? & ?).
Qed.

Lemma find_player_Some σ room id l :
  find_player σ room id = Some l → l ∈ r_players room ∧ p_id (getP σ l) = id.
Proof.
  unfold find_player. intros [Hin Hb]%find_some.
  apply list_elem_of_In in Hin. by apply bool_decide_eq_true in Hb.
Qed.

Lemma find_player_None σ room id :
  find_player σ room id = None →
  Forall (λ p, p_id p ≠ id) (players_of σ room).
Proof.
  unfold find_player, players_of. intros Hnone.
  apply Forall_fmap, Forall_forall. intros l Hin.
  apply list_elem_of_In in Hin.
  apply (find_none _ _ Hnone) in Hin. simpl. by apply bool_decide_eq_false in Hin.
Qed.

(** *** [leaveRoom] keeps the invariant on hosts *)

Lemma leaveRoom_hosts_ok σ roomId playerId :
  wf σ → hosts_ok σ → hosts_ok (leaveRoom roomId playerId σ).
Proof.
  intros Hwf Hh. destruct (rooms σ !! roomId) as [r|] eqn:Hr;
    [|by rewrite leaveRoom_absent].
  intros roomId' r' Hr'. destruct (decide (roomId' = roomId)) as [->|Hne].
  - rewrite (leaveRoom_rooms σ roomId playerId r) in Hr' by done.
    destruct (decide (filter _ _ = [])) as [|Hrem].
    { by rewrite lookup_delete_eq in Hr'. }
    simplify_eq. rewrite (leaveRoom_snapshot σ roomId) by done.
    apply host_first_after_leave; [by eapply Hh|done].
  - rewrite leaveRoom_other_rooms in Hr' by done.
    rewrite (leaveRoom_frame σ roomId playerId r) by
      (try done; intros ->; apply Hne; by eapply wf_rooms_inj).
    by eapply Hh.
Qed.

Lemma after_leave_ids playerId s p :
  p ∈ snap_players (after_leave playerId s) →
  p_id p ≠ playerId ∧ ∃ q, q ∈ snap_players s ∧ p_id q = p_id p.
Proof.
  unfold after_leave; simpl. intros Hin.
  assert (∃ q, q ∈ filter (λ p, p_id p ≠ playerId) (snap_players s) ∧ p_id q = p_id p)
    as (q & [Hq Hqin]%list_elem_of_filter & Heq).
  { destruct (was_host _ _); [|by exists p].
    destruct (filter _ _) as [|first rest]; simpl in Hin; [by apply elem_of_nil in Hin|].
    apply elem_of_cons in Hin as [->|Hin].
    - exists first. split; [left|done].
    - exists p. split; [by right|done]. }
  split; [congruence|eauto].
Qed.

(** ** Channel groups *)

Lemma group_socket_join socket roomId σ roomId' :
  group (socket_join socket roomId σ) roomId' =
    if decide (roomId' = roomId) then {[s_id socket]} ∪ group σ roomId
    else group σ roomId'.
Proof.
  unfold group, socket_join; simpl. destruct (decide (roomId' = roomId)) as [->|H].
  - by rewrite lookup_insert_eq.
  - by rewrite lookup_insert_ne.
Qed.

Lemma group_socket_leave socket roomId σ roomId' :
  group (socket_leave socket roomId σ) roomId' =
    if decide (roomId' = roomId) then group σ roomId ∖ {[s_id socket]}
    else group σ roomId'.
Proof.
  unfold group, socket_leave; simpl. destruct (decide (roomId' = roomId)) as [->|H].
  - rewrite lookup_alter_eq. destruct (groups σ !! roomId); simpl; [done|].
    by rewrite empty_difference_L.
  - by rewrite lookup_alter_ne.
Qed.

Lemma group_socket_leaveAll socket σ roomId :
  group (socket_leaveAll socket σ) roomId = group σ roomId ∖ {[s_id socket]}.
Proof.
  unfold group, socket_leaveAll; simpl. rewrite lookup_fmap.
  destruct (groups σ !! roomId); simpl; [done|]. by rewrite empty_difference_L.
Qed.

(** ** Outcomes of the handlers *)

Lemma completed_result o r : completed o = Some r → r = result o.
Proof. destruct o; [by intros [= <-]|done]. Qed.

Lemma result_reply_last σ out ack : (result (reply_last σ out ack)).1 = σ.
Proof. by destruct ack. Qed.

Lemma completed_reply_last σ out ack σ' out' :
  completed (reply_last σ out ack) = Some (σ', out') →
  σ' = σ ∧ ∃ sent, ack = Some sent ∧ out' = out ++ sent.
Proof. destruct ack as [sent|]; [|done]. intros [= <- <-]. eauto. Qed.

Lemma reply_Some socket callback m sent :
  reply socket callback m = Some sent →
  sent = [] ∨ sent = [(Callback (s_id socket), m)].
Proof.
  destruct callback as [|v]; simpl; [intros [= <-]; by right|].
  destruct (truthy v); [done|]. intros [= <-]. by left.
Qed.

Lemma reply_last_cases σ out socket callback m :
  reply_last σ out (reply socket callback m) =
    match callback with
    | CallbackFunction => Returns (σ, out ++ [(Callback (s_id socket), m)])
    | CallbackValue v => if truthy v then Throws (σ, out) else Returns (σ, out)
    end.
Proof.
  unfold reply_last, reply. destruct callback as [|v]; [done|].
  destruct (truthy v); [done|]. by rewrite app_nil_r.
Qed.

Lemma on_createRoom_cases socket generated settings callback σ :
  on_createRoom socket generated settings callback σ =
    if is_null settings then Throws (σ, [])
    else
      let σ' := socket_join socket generated
                  (created_state generated (s_id socket) settings σ) in
      reply_last σ'
        ([(ToSocket (s_id socket), roomCreated generated 0 true)]
         ++ broadcastRoomState generated σ')
        (reply socket callback (ack_created generated)).
Proof. unfold on_createRoom. rewrite createRoom_cases. by destruct (is_null settings). Qed.

(** The state that the [joinRoom] handler reaches, whatever the callback. *)
Lemma on_joinRoom_state socket roomId playerName callback σ :
  (result (on_joinRoom socket roomId playerName callback σ)).1 =
    (let '(outcome, σ1) := joinRoom roomId (s_id socket) playerName σ in
     match outcome with
     | JoinOk _ _ _ => socket_join socket roomId σ1
     | JoinError _ => σ1
     end).
Proof.
  unfold on_joinRoom. destruct (joinRoom _ _ _ _) as [[e|room seat player] σ1];
    by rewrite result_reply_last.
Qed.

Lemma on_getRoomState_state socket roomId callback σ :
  (result (on_getRoomState socket roomId callback σ)).1 = σ.
Proof.
  unfold on_getRoomState. destruct (rooms σ !! roomId); by rewrite result_reply_last.
Qed.

Lemma on_requestTurnInfo_state socket roomId callback σ :
  (result (on_requestTurnInfo socket roomId callback σ)).1 = σ.
Proof.
  unfold on_requestTurnInfo. destruct (rooms σ !! roomId); [|by rewrite result_reply_last].
  simpl. destruct (negb _); by rewrite result_reply_last.
Qed.

(** The state that the [playerAction] handler reaches: it adds the timer
    when it has not raised and a game state is stored. *)
Lemma on_playerAction_state socket roomId action params σ :
  (result (on_playerAction socket roomId action params σ)).1 = σ
  ∨ ∃ r player,
      rooms σ !! roomId = Some r ∧
      find_player σ (getR σ r) (s_id socket) = Some player ∧
      (result (on_playerAction socket roomId action params σ)).1
      = set_timers (timers σ ++ [mkTimer 100 (s_id socket) roomId r player]) σ.
Proof.
  unfold on_playerAction. destruct (rooms σ !! roomId) as [r|] eqn:Hr; [|by left].
  destruct (find_player _ _ _) as [player|] eqn:Hp; [|by left].
  destruct (negb _); [by left|].
  destruct (truthy _); [right|by left]. by exists r, player.
Qed.

(** ** Every handler keeps the invariant *)

Lemma on_createRoom_inv socket generated settings callback σ :
  inv σ → inv (result (on_createRoom socket generated settings callback σ)).1.
Proof.
  intros Hinv. rewrite on_createRoom_cases.
  destruct (is_null settings); [done|]. cbv zeta. rewrite result_reply_last.
  destruct Hinv as [Hwf Hh Hs].
  set (σ1 := created_state generated (s_id socket) settings σ).
  assert (Hreg : ∀ roomId r, rooms σ1 !! roomId = Some r →
            (roomId = generated ∧ r = length (roomObjs σ))
            ∨ (roomId ≠ generated ∧ rooms σ !! roomId = Some r ∧ r < length (roomObjs σ))).
  { subst σ1; simpl.
    intros roomId r [[<- <-]|[? Hr]]%lookup_insert_Some; [by left|right].
    split_and!; [done..|]. by eapply wf_rooms_alloc. }
  split.
  - apply wf_set_groups. by apply create_wf.
  - intros roomId r Hr. change (snapshot _ r) with (snapshot σ1 r).
    apply Hreg in Hr as [[-> ->]|(Hne & Hr & Hlt)].
    + subst σ1. rewrite create_snapshot. apply host_first_created.
    + subst σ1. rewrite create_frame by done. by eapply Hh.
  - intros roomId r p Hr Hin. change (snapshot _ r) with (snapshot σ1 r) in Hin.
    rewrite group_socket_join.
    apply Hreg in Hr as [[-> ->]|(Hne & Hr & Hlt)].
    + rewrite decide_True by done. subst σ1. rewrite create_snapshot in Hin.
      simpl in Hin. apply list_elem_of_singleton in Hin. subst p. simpl. set_solver.
    + rewrite decide_False by done. subst σ1. rewrite create_frame in Hin by done.
      by eapply Hs.
Qed.

Lemma on_joinRoom_inv socket roomId playerName callback σ :
  inv σ → inv (result (on_joinRoom socket roomId playerName callback σ)).1.
Proof.
  intros Hinv. rewrite on_joinRoom_state.
  pose proof (joinRoom_cases σ roomId (s_id socket) playerName) as Hj.
  destruct (rooms σ !! roomId) as [r|] eqn:Hr; [|by rewrite Hj].
  simpl in Hj. destruct (decide (4 ≤ _)); [by rewrite Hj|].
  destruct (decide (_ = waiting)); [|by rewrite Hj].
  rewrite Hj. cbv beta iota zeta. destruct Hinv as [Hwf Hh Hs].
  set (σ1 := joined_state r (s_id socket) playerName σ).
  split; cbn [fst].
  - apply wf_set_groups. by eapply join_wf.
  - intros roomId' r' Hr'. change (snapshot _ r') with (snapshot σ1 r').
    change (rooms σ !! roomId' = Some r') in Hr'.
    destruct (decide (r' = r)) as [->|Hne].
    + unfold σ1. erewrite join_snapshot by done.
      apply host_first_after_join. by eapply Hh.
    + unfold σ1. erewrite join_frame by done. by eapply Hh.
  - intros roomId' r' p Hr' Hin. change (snapshot _ r') with (snapshot σ1 r') in Hin.
    change (rooms σ !! roomId' = Some r') in Hr'.
    rewrite group_socket_join.
    destruct (decide (r' = r)) as [->|Hne].
    + assert (roomId' = roomId) as -> by by eapply wf_rooms_inj.
      rewrite decide_True by done.
      unfold σ1 in Hin. erewrite join_snapshot in Hin by done. simpl in Hin.
      apply elem_of_app in Hin as [Hin|Hin%list_elem_of_singleton].
      * apply elem_of_union_r. by eapply Hs.
      * subst p. simpl. set_solver.
    + unfold σ1 in Hin. erewrite join_frame in Hin by done.
      case_decide as Heq; [|by eapply Hs].
      subst roomId'. apply elem_of_union_r. by eapply Hs.
Qed.

Lemma on_leaveRoom_inv socket roomId σ :
  inv σ → inv (on_leaveRoom socket roomId σ).1.
Proof.
  intros [Hwf Hh Hs]. unfold on_leaveRoom; simpl.
  set (σ1 := leaveRoom roomId (s_id socket) σ).
  split.
  - apply wf_set_groups. by apply leaveRoom_wf.
  - intros roomId' r' Hr'. change (snapshot _ r') with (snapshot σ1 r').
    by eapply leaveRoom_hosts_ok.
  - intros roomId' r' p Hr' Hin. change (snapshot _ r') with (snapshot σ1 r') in Hin.
    change (rooms σ1 !! roomId' = Some r') in Hr'.
    rewrite group_socket_leave. unfold group at 1 2.
    unfold σ1. rewrite leaveRoom_groups. fold (group σ roomId) (group σ roomId').
    destruct (decide (roomId' = roomId)) as [->|Hne].
    + destruct (rooms σ !! roomId) as [r|] eqn:Hr.
      * unfold σ1 in Hr'. rewrite (leaveRoom_rooms σ roomId _ r) in Hr' by done.
        case_decide; [by rewrite lookup_delete_eq in Hr'|]. simplify_eq.
        unfold σ1 in Hin. rewrite (leaveRoom_snapshot σ roomId) in Hin by done.
        apply after_leave_ids in Hin as (Hid & q & Hq & Heq).
        apply elem_of_difference. split; [|set_solver].
        rewrite <- Heq. by eapply Hs.
      * unfold σ1 in Hr'. rewrite leaveRoom_absent in Hr' by done. congruence.
    + unfold σ1 in Hr'. rewrite leaveRoom_other_rooms in Hr' by done.
      destruct (rooms σ !! roomId) as [r|] eqn:Hr.
      * unfold σ1 in Hin.
        rewrite (leaveRoom_frame σ roomId _ r) in Hin by
          (try done; intros ->; apply Hne; by eapply wf_rooms_inj).
        by eapply Hs.
      * unfold σ1 in Hin. rewrite leaveRoom_absent in Hin by done. by eapply Hs.
Qed.

Lemma on_startGame_cases socket roomId σ :
  let failure msg :=
    (σ, if s_connected socket then [(ToSocket (s_id socket), error msg)] else []) in
  match rooms σ !! roomId with
  | None => on_startGame socket roomId σ = failure InsufficientPlayers
  | Some r =>
      if decide (length (r_players (getR σ r)) < 2) then
        on_startGame socket roomId σ = failure InsufficientPlayers
      else if was_host (s_id socket) (players_of σ (getR σ r)) then
        r < length (roomObjs σ) →
        on_startGame socket roomId σ =
          (started_state r σ,
           [(ToRoom roomId,
             gameStarted (players_of σ (getR σ r)) (r_settings (getR σ r)) playing
                         (r_hostId (getR σ r)))])
      else on_startGame socket roomId σ = failure NotHost
  end.
Proof.
  unfold on_startGame. destruct (rooms σ !! roomId) as [r|]; [|done]. simpl.
  destruct (decide (_ < 2)).
  { by rewrite bool_decide_eq_true_2. }
  rewrite bool_decide_eq_false_2 by done.
  rewrite <- was_host_deref.
  destruct (find_player σ (getR σ r) (s_id socket)) as [host|]; simpl; [|done].
  destruct (p_isHost (getP σ host)); simpl; [|done].
  intros Hlt. unfold started_state.
  rewrite !getR_setR_eq by (simpl; rewrite ?length_insert; done).
  f_equal. unfold setR; simpl. f_equal. by rewrite list_insert_insert_eq.
Qed.

Lemma on_startGame_inv socket roomId σ :
  inv σ → inv (on_startGame socket roomId σ).1.
Proof.
  intros Hinv. pose proof (on_startGame_cases socket roomId σ) as Hc. simpl in Hc.
  destruct (rooms σ !! roomId) as [r|] eqn:Hr; [|by rewrite Hc].
  destruct (decide (_ < 2)); [by rewrite Hc|].
  destruct (was_host _ _); [|by rewrite Hc].
  assert (Hlt : r < length (roomObjs σ)) by (eapply wf_rooms_alloc; [apply Hinv|done]).
  rewrite Hc by done. simpl. by apply inv_setR_fields.
Qed.

Lemma on_gameReady_inv socket roomId σ :
  inv σ → inv (on_gameReady socket roomId σ).1.
Proof.
  intros Hinv. unfold on_gameReady.
  destruct (rooms σ !! roomId) as [r|] eqn:Hr; [|done].
  case_bool_decide; [done|]. simpl.
  apply inv_setR_fields; [done| |done..].
  eapply wf_rooms_alloc; [apply Hinv|done].
Qed.

Lemma on_gameStateUpdate_inv socket roomId gameState σ :
  inv σ → inv (on_gameStateUpdate socket roomId gameState σ).1.
Proof.
  intros Hinv. unfold on_gameStateUpdate.
  destruct (rooms σ !! roomId) as [r|] eqn:Hr; [|done].
  destruct (find_player _ _ _); [|done]. simpl.
  apply inv_setR_fields; [done| |done..].
  eapply wf_rooms_alloc; [apply Hinv|done].
Qed.

Lemma on_playerAction_inv socket roomId action params σ :
  inv σ → inv (result (on_playerAction socket roomId action params σ)).1.
Proof.
  intros Hinv.
  destruct (on_playerAction_state socket roomId action params σ)
    as [->|(r & player & Hr & Hfind & ->)]; [done|].
  assert (Hlt : r < length (roomObjs σ)) by (eapply wf_rooms_alloc; [apply Hinv|done]).
  apply inv_set_timers; [done|].
  intros t [Hin|Hin%list_elem_of_singleton]%elem_of_app.
  - destruct (wf_timers_alloc σ (inv_wf σ Hinv) t Hin).
    pose proof (wf_timers_delay σ (inv_wf σ Hinv) t Hin). done.
  - subst t; simpl. split_and!; [done| |done].
    apply find_player_Some in Hfind as [Hin _].
    eapply (wf_players_alloc σ (inv_wf σ Hinv) r); [by apply getR_lookup|done].
Qed.

Lemma timeout_inv i σ : inv σ → inv (set_timers (delete i (timers σ)) σ).
Proof.
  intros Hinv. apply inv_set_timers; [done|].
  intros t Hin%list_elem_of_delete_inv.
  destruct (wf_timers_alloc σ (inv_wf σ Hinv) t Hin).
  pose proof (wf_timers_delay σ (inv_wf σ Hinv) t Hin). done.
Qed.

(** ** The disconnect loop *)

Lemma filter_locs_nonmember σ (ls : list loc) playerId :
  Forall (λ p, p_id p ≠ playerId) (getP σ <$> ls) →
  filter (λ l, p_id (getP σ l) ≠ playerId) ls = ls.
Proof.
  induction ls as [|l ls IH]; [done|].
  rewrite fmap_cons. intros [Hl Hls]%Forall_cons.
  by rewrite filter_cons_True, IH.
Qed.

(** [leaveRoom] for a connection that is not in the room changes nothing. *)
Lemma leaveRoom_nonmember σ roomId playerId r :
  wf σ → rooms σ !! roomId = Some r →
  players_of σ (getR σ r) ≠ [] →
  Forall (λ p, p_id p ≠ playerId) (players_of σ (getR σ r)) →
  leaveRoom roomId playerId σ = σ.
Proof.
  intros Hwf Hr Hne Hall.
  pose proof (filter_locs_nonmember σ (r_players (getR σ r)) playerId Hall) as Hf.
  destruct (leaveRoom_cases σ roomId playerId r Hwf Hr)
    as [[Hrem ->]|[(first & rest & Hrem & Hw & ->)|(Hrem & Hw & ->)]].
  - rewrite Hf in Hrem. unfold players_of in Hne. by rewrite Hrem in Hne.
  - by rewrite was_host_nonmember in Hw.
  - rewrite Hf.
    assert (with_players (r_players (getR σ r)) (getR σ r) = getR σ r) as ->
      by by destruct (getR σ r).
    apply setR_getR.
Qed.

Lemma existsb_member (ps : list Player) playerId :
  existsb (λ p, bool_decide (p_id p = playerId)) ps = false →
  Forall (λ p, p_id p ≠ playerId) ps.
Proof.
  induction ps as [|p ps IH]; simpl; [done|].
  intros [Hp Hps]%orb_false_elim. apply bool_decide_eq_false in Hp. auto.
Qed.

Lemma host_first_nonempty s : host_first s → snap_players s ≠ [].
Proof. intros (first & rest & -> & _). done. Qed.

(** On a state that satisfies the invariant, the membership test of the
    loop body makes no difference to the state. *)
Lemma disconnect_room_state socket σ out roomId r :
  wf σ → hosts_ok σ → rooms σ !! roomId = Some r →
  (disconnect_room socket (σ, out) (roomId, r)).1 = leaveRoom roomId (s_id socket) σ.
Proof.
  intros Hwf Hh Hr. unfold disconnect_room.
  destruct (existsb _ _) eqn:Hex; [done|]. simpl.
  symmetry. eapply leaveRoom_nonmember; [done..| |by apply existsb_member].
  apply (host_first_nonempty (snapshot σ r)). by eapply Hh.
Qed.

Lemma disconnect_loop_state socket (entries : list (string * loc)) σ out :
  wf σ → hosts_ok σ → NoDup entries.*1 →
  (∀ roomId r, (roomId, r) ∈ entries → rooms σ !! roomId = Some r) →
  (foldl (disconnect_room socket) (σ, out) entries).1
  = leave_all (s_id socket) entries.*1 σ.
Proof.
  revert σ out. induction entries as [|[roomId r] entries IH]; intros σ out Hwf Hh Hnd Hreg;
    [done|].
  rewrite fmap_cons in *. cbn [foldl fst] in *.
  apply NoDup_cons in Hnd as [Hnotin Hnd].
  pose proof (disconnect_room_state socket σ out roomId r Hwf Hh) as Hstep.
  destruct (disconnect_room socket (σ, out) (roomId, r)) as [σ2 out2] eqn:Hbody.
  cbn [fst] in Hstep. rewrite Hstep by (apply Hreg; left).
  unfold leave_all; cbn [foldl]. apply IH.
  - by apply leaveRoom_wf.
  - by apply leaveRoom_hosts_ok.
  - done.
  - intros roomId' r' Hin. rewrite leaveRoom_other_rooms.
    + apply Hreg. by right.
    + intros ->. apply Hnotin. apply list_elem_of_fmap. by exists (roomId, r').
Qed.

Lemma leave_all_wf playerId roomIds σ :
  wf σ → wf (leave_all playerId roomIds σ).
Proof.
  revert σ. induction roomIds as [|k ks IH]; intros σ Hwf; [done|].
  simpl. apply IH. by apply leaveRoom_wf.
Qed.

Lemma leave_all_hosts_ok playerId roomIds σ :
  wf σ → hosts_ok σ → hosts_ok (leave_all playerId roomIds σ).
Proof.
  revert σ. induction roomIds as [|k ks IH]; intros σ Hwf Hh; [done|].
  simpl. apply IH; [by apply leaveRoom_wf|by apply leaveRoom_hosts_ok].
Qed.

Lemma leave_all_groups playerId roomIds σ :
  groups (leave_all playerId roomIds σ) = groups σ.
Proof.
  revert σ. induction roomIds as [|k ks IH]; intros σ; [done|].
  simpl. by rewrite IH, leaveRoom_groups.
Qed.

Lemma leave_all_timers playerId roomIds σ :
  timers (leave_all playerId roomIds σ) = timers σ.
Proof.
  revert σ. induction roomIds as [|k ks IH]; intros σ; [done|].
  simpl. by rewrite IH, leaveRoom_timers.
Qed.

(** A room object that is not registered under any of the ids is left as
    it was. *)
Lemma leave_all_frame playerId roomIds σ r :
  wf σ → (∀ roomId, roomId ∈ roomIds → rooms σ !! roomId ≠ Some r) →
  snapshot (leave_all playerId roomIds σ) r = snapshot σ r.
Proof.
  revert σ. induction roomIds as [|k ks IH]; intros σ Hwf Hnot; [done|].
  simpl. rewrite IH.
  - destruct (rooms σ !! k) as [rk|] eqn:Hk; [|by rewrite leaveRoom_absent].
    apply (leaveRoom_frame σ k playerId rk); [done..|].
    intros ->. by apply (Hnot k); [left|].
  - by apply leaveRoom_wf.
  - intros roomId Hin Hr. destruct (decide (roomId = k)) as [->|Hne].
    + destruct (rooms σ !! k) as [rk|] eqn:Hk.
      * rewrite (leaveRoom_rooms σ k playerId rk) in Hr by done.
        case_decide; [by rewrite lookup_delete_eq in Hr|].
        apply (Hnot k); [left|congruence].
      * rewrite leaveRoom_absent in Hr by done. congruence.
    + rewrite leaveRoom_other_rooms in Hr by done. apply (Hnot roomId); [by right|done].
Qed.

Lemma leave_all_snapshot playerId roomIds σ roomId r :
  wf σ → NoDup roomIds → roomId ∈ roomIds → rooms σ !! roomId = Some r →
  snapshot (leave_all playerId roomIds σ) r = after_leave playerId (snapshot σ r).
Proof.
  revert σ. induction roomIds as [|k ks IH]; intros σ Hwf Hnd Hin Hr.
  { by apply elem_of_nil in Hin. }
  apply NoDup_cons in Hnd as [Hnotin Hnd]. simpl.
  destruct (decide (roomId = k)) as [->|Hne].
  - rewrite leave_all_frame; [by apply leaveRoom_snapshot|by apply leaveRoom_wf|].
    intros roomId' Hin' Hr'.
    rewrite leaveRoom_other_rooms in Hr' by (by intros ->).
    assert (roomId' = k) as -> by by eapply wf_rooms_inj. done.
  - apply elem_of_cons in Hin as [?|Hin]; [done|].
    rewrite IH; [|by apply leaveRoom_wf|done|done|by rewrite leaveRoom_other_rooms].
    f_equal. destruct (rooms σ !! k) as [rk|] eqn:Hk; [|by rewrite leaveRoom_absent].
    apply (leaveRoom_frame σ k playerId rk); [done..|].
    intros ->. apply Hne. by eapply wf_rooms_inj.
Qed.

Lemma leave_all_rooms playerId roomIds σ roomId :
  wf σ → NoDup roomIds →
  rooms (leave_all playerId roomIds σ) !! roomId =
    if decide (roomId ∈ roomIds) then rooms (leaveRoom roomId playerId σ) !! roomId
    else rooms σ !! roomId.
Proof.
  revert σ. induction roomIds as [|k ks IH]; intros σ Hwf Hnd.
  { rewrite decide_False; [done|]. apply not_elem_of_nil. }
  apply NoDup_cons in Hnd as [Hnotin Hnd]. simpl.
  rewrite IH by (done || by apply leaveRoom_wf).
  destruct (decide (roomId = k)) as [->|Hne].
  - rewrite decide_False by done. rewrite decide_True by left. done.
  - destruct (decide (roomId ∈ ks)) as [Hin|Hin].
    + rewrite decide_True by by right.
      destruct (rooms σ !! roomId) as [r|] eqn:Hr.
      * assert (Hr2 : rooms (leaveRoom k playerId σ) !! roomId = Some r)
          by by rewrite leaveRoom_other_rooms.
        rewrite (leaveRoom_rooms _ roomId playerId r) by (done || by apply leaveRoom_wf).
        rewrite (leaveRoom_rooms σ roomId playerId r) by done.
        assert (snapshot (leaveRoom k playerId σ) r = snapshot σ r) as ->.
        { destruct (rooms σ !! k) as [rk|] eqn:Hk; [|by rewrite leaveRoom_absent].
          apply (leaveRoom_frame σ k playerId rk); [done..|].
          intros ->. apply Hne. by eapply wf_rooms_inj. }
        case_decide; [by rewrite !lookup_delete_eq|].
        by rewrite leaveRoom_other_rooms.
      * rewrite (leaveRoom_absent σ roomId) by done.
        rewrite (leaveRoom_absent (leaveRoom k playerId σ) roomId)
          by by rewrite leaveRoom_other_rooms.
        by rewrite leaveRoom_other_rooms.
    + rewrite decide_False by (intros [?|?]%elem_of_cons; done).
      by rewrite leaveRoom_other_rooms.
Qed.

Lemma leaveRoom_lookup_Some σ roomId playerId roomId' r :
  rooms (leaveRoom roomId playerId σ) !! roomId' = Some r → rooms σ !! roomId' = Some r.
Proof.
  unfold leaveRoom. destruct (rooms σ !! roomId); [|done].
  repeat (case_bool_decide || case_match); simpl; try done.
  all: by intros [_ ?]%lookup_delete_Some.
Qed.

Section disconnect.
Context (socket : Socket) (σ : Server).
Hypothesis Hinv : inv σ.

Local Abbreviation σ0 := (socket_leaveAll socket σ).

Local Lemma disconnect_wf0 : wf σ0.
Proof. apply wf_set_groups, Hinv. Qed.

Local Lemma disconnect_hosts0 : hosts_ok σ0.
Proof. intros roomId r Hr. by apply (inv_hosts σ Hinv roomId r). Qed.

Lemma on_disconnect_state :
  (on_disconnect socket σ).1
  = leave_all (s_id socket) (map_to_list (rooms σ)).*1 σ0.
Proof.
  unfold on_disconnect. apply disconnect_loop_state.
  - apply disconnect_wf0.
  - apply disconnect_hosts0.
  - apply NoDup_fst_map_to_list.
  - intros roomId r Hin. by apply elem_of_map_to_list in Hin.
Qed.

Local Lemma disconnect_keys roomId :
  roomId ∈ (map_to_list (rooms σ)).*1 ↔ is_Some (rooms σ !! roomId).
Proof.
  rewrite list_elem_of_fmap. split.
  - intros ([k r] & -> & Hin%elem_of_map_to_list). by exists r.
  - intros [r Hr]. exists (roomId, r). split; [done|]. by apply elem_of_map_to_list.
Qed.

Lemma on_disconnect_snapshot roomId r :
  rooms σ !! roomId = Some r →
  snapshot (on_disconnect socket σ).1 r = after_leave (s_id socket) (snapshot σ r).
Proof.
  intros Hr. rewrite on_disconnect_state.
  rewrite (leave_all_snapshot _ _ σ0 roomId r).
  - done.
  - apply disconnect_wf0.
  - apply NoDup_fst_map_to_list.
  - apply disconnect_keys. by exists r.
  - done.
Qed.

Lemma on_disconnect_rooms roomId :
  rooms (on_disconnect socket σ).1 !! roomId =
    match rooms σ !! roomId with
    | Some r =>
        if decide (filter (λ p, p_id p ≠ s_id socket) (snap_players (snapshot σ r)) = [])
        then None else Some r
    | None => None
    end.
Proof.
  rewrite on_disconnect_state.
  rewrite leave_all_rooms by (apply disconnect_wf0 || apply NoDup_fst_map_to_list).
  destruct (rooms σ !! roomId) as [r|] eqn:Hr.
  - rewrite decide_True by (apply disconnect_keys; by exists r).
    rewrite (leaveRoom_rooms σ0 roomId _ r) by (apply disconnect_wf0 || done).
    change (snapshot σ0 r) with (snapshot σ r).
    case_decide; [by rewrite lookup_delete_eq|done].
  - rewrite decide_False; [done|].
    intros [r Hr']%disconnect_keys. congruence.
Qed.

Lemma on_disconnect_group roomId :
  group (on_disconnect socket σ).1 roomId = group σ roomId ∖ {[s_id socket]}.
Proof.
  rewrite on_disconnect_state. unfold group at 1.
  rewrite leave_all_groups. apply group_socket_leaveAll.
Qed.

Lemma on_disconnect_timers : timers (on_disconnect socket σ).1 = timers σ.
Proof. rewrite on_disconnect_state. by rewrite leave_all_timers. Qed.

Lemma on_disconnect_inv : inv (on_disconnect socket σ).1.
Proof.
  split.
  - rewrite on_disconnect_state. apply leave_all_wf, disconnect_wf0.
  - rewrite on_disconnect_state.
    apply leave_all_hosts_ok; [apply disconnect_wf0|apply disconnect_hosts0].
  - intros roomId r p Hr Hin.
    rewrite on_disconnect_rooms in Hr.
    destruct (rooms σ !! roomId) as [r'|] eqn:Hr'; [|done].
    case_decide; [done|]. simplify_eq.
    rewrite (on_disconnect_snapshot roomId) in Hin by done.
    apply after_leave_ids in Hin as (Hid & q & Hq & Heq).
    rewrite on_disconnect_group. apply elem_of_difference. split; [|set_solver].
    rewrite <- Heq. by eapply (inv_subscribed σ Hinv).
Qed.
End disconnect.

(** ** Reachable states satisfy the invariant *)

Arguments on_createRoom : simpl never.
Arguments on_joinRoom : simpl never.
Arguments on_leaveRoom : simpl never.
Arguments on_startGame : simpl never.
Arguments on_getRoomState : simpl never.
Arguments on_gameReady : simpl never.
Arguments on_gameStateUpdate : simpl never.
Arguments on_playerAction : simpl never.
Arguments on_requestTurnInfo : simpl never.
Arguments on_disconnect : simpl never.

Arguments completed : simpl never.
Arguments result : simpl never.
Arguments reply_last : simpl never.

(** From [Some (h σ) = Some (σ', out)] to [σ' = (h σ).1], and from
    [completed (h σ) = Some (σ', out)] to [σ' = (result (h σ)).1]. *)
Ltac state_of_result :=
  let Heq := fresh "Heq" in
  intros Heq;
  first
    [ apply completed_result in Heq; apply (f_equal fst) in Heq;
      cbn [fst] in Heq; rewrite Heq; clear Heq
    | apply (f_equal (fmap fst)) in Heq;
      cbn [fmap option_fmap option_map fst] in Heq;
      injection Heq as <- ].

Lemma handle_inv e σ σ' out : inv σ → handle e σ = Some (σ', out) → inv σ'.
Proof.
  intros Hinv. destruct e as [socket m|i]; simpl.
  - destruct m as [generated settings callback|[d|] callback|roomId|roomId
                   |roomId callback|[d|]|[d|]|[d|]|roomId callback|];
      simpl; try done.
    + state_of_result. by apply on_createRoom_inv.
    + state_of_result. by apply on_joinRoom_inv.
    + state_of_result. by apply on_leaveRoom_inv.
    + state_of_result. by apply on_startGame_inv.
    + state_of_result. by rewrite on_getRoomState_state.
    + state_of_result. by apply on_gameReady_inv.
    + state_of_result. by apply on_gameStateUpdate_inv.
    + state_of_result. by apply on_playerAction_inv.
    + state_of_result. by rewrite on_requestTurnInfo_state.
    + state_of_result. by apply on_disconnect_inv.
  - destruct (timers σ !! i); intros [= <- _]; [by apply timeout_inv|done].
Qed.

Lemma reachable_inv σ : reachable σ → inv σ.
Proof.
  induction 1 as [|σ e σ' out _ IH Hstep]; [apply inv_init|by eapply handle_inv].
Qed.

Lemma run_reachable es σ σ' out :
  reachable σ → run es σ = Some (σ', out) → reachable σ'.
Proof.
  revert σ out. induction es as [|e es IH]; intros σ out Hreach; simpl.
  - by intros [= <- _].
  - destruct (handle e σ) as [[σ1 out1]|] eqn:He; simpl; [|done].
    destruct (run es σ1) as [[σ2 out2]|] eqn:Hrun; simpl; [|done].
    intros [= <- _]. eapply IH; [|done]. by eapply reachable_step.
Qed.

(** * The claims *)

(** ** Concrete states *)

Lemma state_after_reachable es : run es init ≠ None → reachable (state_after es).
Proof.
  unfold state_after. destruct (run es init) as [[σ out]|] eqn:Hrun; [|done].
  intros _. simpl. eapply run_reachable; [apply reachable_init|done].
Defined.

(** ** Settings of a new room *)

Lemma lookup_spread src dst k :
  spread src dst !! k = match src !! k with Some v => Some v | None => dst !! k end.
Proof.
  unfold spread.
  apply (map_fold_weak_ind
           (λ acc m, acc !! k = match m !! k with Some v => Some v | None => dst !! k end)).
  - by rewrite lookup_empty.
  - intros i x m acc Hi IH. destruct (decide (i = k)) as [->|Hne].
    + by rewrite !lookup_insert_eq.
    + by rewrite !lookup_insert_ne.
Qed.

Lemma make_settings_lookup settings k :
  make_settings settings !! k =
    match settings !! k with
    | Some v => Some v
    | None => default_of k
    end.
Proof.
  unfold make_settings. rewrite lookup_spread.
  destruct (settings !! k) as [v|] eqn:Hk; [done|].
  unfold default_of, prop.
  destruct (String.eqb_spec k "basePoints") as [->|H1].
  { rewrite lookup_insert_ne, lookup_insert_ne, lookup_insert_eq by done.
    by rewrite Hk. }
  destruct (String.eqb_spec k "perFanPoints") as [->|H2].
  { rewrite lookup_insert_ne, lookup_insert_eq by done. by rewrite Hk. }
  destruct (String.eqb_spec k "initialPoints") as [->|H3].
  { rewrite lookup_insert_eq. by rewrite Hk. }
  by rewrite !lookup_insert_ne, lookup_empty by done.
Qed.

(** C8. [createRoom] with a [settings] argument that is not [null] returns,
    and registers under the generated id a room whose settings hold 2000,
    1000 and 100000 under [basePoints], [perFanPoints] and [initialPoints]
    where the caller gave no such key, every key/value pair of the caller
    as given (also for those three keys), and nothing else. *)
Theorem createRoom_settings (σ : Server) (generated hostId : string) (settings : arg) :
  is_null settings = false →
  ∃ σ' r,
    createRoom generated hostId settings σ = Some (generated, σ') ∧
    rooms σ' !! generated = Some r ∧
    let caller := settings_props settings in
    let stored := r_settings (getR σ' r) in
    (caller !! "basePoints" = None → stored !! "basePoints" = Some (JNum 2000)) ∧
    (caller !! "perFanPoints" = None → stored !! "perFanPoints" = Some (JNum 1000)) ∧
    (caller !! "initialPoints" = None → stored !! "initialPoints" = Some (JNum 100000)) ∧
    (∀ k v, caller !! k = Some v → stored !! k = Some v) ∧
    (∀ k, caller !! k = None → stored !! k = default_of k).
Proof.
  intros Hnull. rewrite createRoom_cases, Hnull.
  exists (created_state generated hostId settings σ), (length (roomObjs σ)).
  split; [done|]. split; [by simpl; rewrite lookup_insert_eq|].
  assert (r_settings (getR (created_state generated hostId settings σ)
                        (length (roomObjs σ)))
          = make_settings (settings_props settings)) as ->.
  { unfold getR; simpl. rewrite lookup_total_app_r by lia. by rewrite Nat.sub_diag. }
  cbv zeta. split_and!.
  - intros H. by rewrite make_settings_lookup, H.
  - intros H. by rewrite make_settings_lookup, H.
  - intros H. by rewrite make_settings_lookup, H.
  - intros k v H. by rewrite make_settings_lookup, H.
  - intros k H. by rewrite make_settings_lookup, H.
Qed.

Lemma createRoom_settings_witness :
  ∃ σ' r,
    createRoom "R" "A" custom_settings init = Some ("R", σ') ∧
    rooms σ' !! "R" = Some r ∧
    r_settings (getR σ' r) !! "basePoints" = Some (JNum 0) ∧
    r_settings (getR σ' r) !! "perFanPoints" = Some (JNum 1000) ∧
    r_settings (getR σ' r) !! "flowers" = Some (JBool true).
Proof.
  destruct (createRoom_settings init "R" "A" custom_settings eq_refl)
    as (σ' & r & Hc & Hr & _ & Hfan & _ & Hcaller & _).
  exists σ', r. split_and!; [done|done|..].
  - by apply Hcaller.
  - by apply Hfan.
  - by apply Hcaller.
Defined.

(** ** Joining *)

Lemma full_playing_reachable : reachable full_playing.
Proof. apply state_after_reachable. by vm_compute. Defined.

(** C3, as stated, fails: joining a room that is playing and full is
    refused with [RoomFull], not with [GameAlreadyStarted]. *)
Lemma join_playing_room_full :
  reachable full_playing ∧
  (∃ r, rooms full_playing !! "R" = Some r ∧ r_status (getR full_playing r) = playing) ∧
  joinRoom "R" "E" JUndefined full_playing = (JoinError RoomFull, full_playing) ∧
  (joinRoom "R" "E" JUndefined full_playing).1 ≠ JoinError GameAlreadyStarted.
Proof.
  split; [apply full_playing_reachable|]. split; [by exists 0|].
  assert (H : joinRoom "R" "E" JUndefined full_playing = (JoinError RoomFull, full_playing))
    by by vm_compute.
  split; [done|]. by rewrite H.
Qed.

(** C3, amended. [joinRoom] fails with [RoomNotFound] for an id that is not
    registered, with [RoomFull] for a room that has four players (or more),
    and with [GameAlreadyStarted] for a room that has fewer than four
    players and is not waiting. In each case the state of the server is
    left as it was, by [joinRoom] and by the handler, which does nothing
    but pass the error to the callback. *)
Theorem joinRoom_failures (σ : Server) (socket : Socket) (roomId : string)
    (playerName : jsval) (callback : callback_arg) :
  let refused e :=
    joinRoom roomId (s_id socket) playerName σ = (JoinError e, σ) ∧
    on_joinRoom socket roomId playerName callback σ
      = reply_last σ [] (reply socket callback (ack_failed e)) in
  (rooms σ !! roomId = None → refused RoomNotFound) ∧
  (∀ r, rooms σ !! roomId = Some r →
        4 ≤ length (snap_players (snapshot σ r)) → refused RoomFull) ∧
  (∀ r, rooms σ !! roomId = Some r →
        length (snap_players (snapshot σ r)) < 4 →
        snap_status (snapshot σ r) = playing → refused GameAlreadyStarted).
Proof.
  pose proof (joinRoom_cases σ roomId (s_id socket) playerName) as Hj.
  cbv zeta. unfold on_joinRoom. simpl. unfold players_of. setoid_rewrite length_fmap.
  split_and!.
  - intros Hr. rewrite Hr in Hj. by rewrite Hj.
  - intros r Hr Hfull. rewrite Hr in Hj. simpl in Hj.
    rewrite decide_True in Hj by done. by rewrite Hj.
  - intros r Hr Hlt Hst. rewrite Hr in Hj. simpl in Hj.
    rewrite decide_False in Hj by lia.
    rewrite decide_False in Hj by by rewrite Hst.
    by rewrite Hj.
Qed.

Lemma joinRoom_failures_witness :
  joinRoom "X" "E" JUndefined full_playing = (JoinError RoomNotFound, full_playing) ∧
  joinRoom "R" "E" JUndefined full_playing = (JoinError RoomFull, full_playing) ∧
  joinRoom "R" "E" JUndefined two_playing = (JoinError GameAlreadyStarted, two_playing).
Proof.
  split_and!.
  - apply (joinRoom_failures full_playing (sock "E") "X" JUndefined no_callback).
    by vm_compute.
  - apply (joinRoom_failures full_playing (sock "E") "R" JUndefined no_callback)
      with (r := 0).
    + by vm_compute.
    + vm_compute. lia.
  - apply (joinRoom_failures two_playing (sock "E") "R" JUndefined no_callback)
      with (r := 0).
    + by vm_compute.
    + vm_compute. lia.
    + by vm_compute.
Defined.

Lemma joinRoom_waiting σ roomId playerId playerName r :
  wf σ → rooms σ !! roomId = Some r →
  r_status (getR σ r) = waiting → length (r_players (getR σ r)) < 4 →
  let σ' := joined_state r playerId playerName σ in
  joinRoom roomId playerId playerName σ
    = (JoinOk r (length (r_players (getR σ r))) (length (playerObjs σ)), σ') ∧
  wf σ' ∧ rooms σ' !! roomId = Some r ∧
  r_status (getR σ' r) = waiting ∧
  length (r_players (getR σ' r)) = S (length (r_players (getR σ r))).
Proof.
  intros Hwf Hr Hst Hlt.
  pose proof (joinRoom_cases σ roomId playerId playerName) as Hj.
  rewrite Hr in Hj. simpl in Hj. rewrite decide_False in Hj by lia.
  rewrite decide_True in Hj by done.
  assert (Halloc : r < length (roomObjs σ)) by by eapply wf_rooms_alloc.
  assert (Hget : getR (joined_state r playerId playerName σ) r
                 = with_players (r_players (getR σ r) ++ [length (playerObjs σ)]) (getR σ r)).
  { unfold getR at 1; simpl. by apply list_lookup_total_insert_eq. }
  cbv zeta. rewrite Hget. split_and!; [done|by eapply join_wf|done|done|].
  simpl. rewrite length_app. simpl. lia.
Qed.

Lemma join_seq_ok σ roomId r calls :
  wf σ → rooms σ !! roomId = Some r →
  r_status (getR σ r) = waiting →
  length (r_players (getR σ r)) + length calls ≤ 4 →
  let n := length (r_players (getR σ r)) in
  let '(results, σ') := join_seq roomId calls σ in
  assigned_seat <$> results = Some <$> seq n (length calls) ∧
  wf σ' ∧ rooms σ' !! roomId = Some r ∧ r_status (getR σ' r) = waiting ∧
  length (r_players (getR σ' r)) = n + length calls.
Proof.
  revert σ. induction calls as [|[playerId playerName] calls IH];
    intros σ Hwf Hr Hst Hlen; simpl.
  { split_and!; [done..|lia]. }
  simpl in Hlen.
  destruct (joinRoom_waiting σ roomId playerId playerName r Hwf Hr Hst)
    as (Hj & Hwf' & Hr' & Hst' & Hlen'); [lia|].
  rewrite Hj.
  specialize (IH (joined_state r playerId playerName σ) Hwf' Hr' Hst').
  rewrite Hlen' in IH. specialize (IH ltac:(lia)).
  destruct (join_seq roomId calls (joined_state r playerId playerName σ))
    as [results σ'] eqn:Hseq.
  destruct IH as (Hseats & Hwf'' & Hr'' & Hst'' & Hfinal).
  split_and!; [|done..|lia].
  rewrite fmap_cons. cbn [assigned_seat]. by rewrite Hseats.
Qed.

(** C4. On a registered room that is waiting, a sequence of joins that
    keeps the number of players at four or fewer succeeds call after call:
    the seats assigned are the player count before the first call, then the
    next number, and so on, so they increase strictly; the seat of each
    call is the player count of the room right before that call; and the
    room ends with one more player per call. *)
Theorem join_seq_seats (σ : Server) (roomId : string) (r : loc)
    (calls : list (string * jsval)) :
  reachable σ → rooms σ !! roomId = Some r →
  snap_status (snapshot σ r) = waiting →
  length (snap_players (snapshot σ r)) + length calls ≤ 4 →
  let n := length (snap_players (snapshot σ r)) in
  assigned_seat <$> (join_seq roomId calls σ).1 = Some <$> seq n (length calls) ∧
  StronglySorted lt (seq n (length calls)) ∧
  (∀ i playerId playerName,
     calls !! i = Some (playerId, playerName) →
     let σi := (join_seq roomId (take i calls) σ).2 in
     assigned_seat (joinRoom roomId playerId playerName σi).1
       = Some (length (snap_players (snapshot σi r)))) ∧
  rooms (join_seq roomId calls σ).2 !! roomId = Some r ∧
  length (snap_players (snapshot (join_seq roomId calls σ).2 r)) = n + length calls.
Proof.
  intros Hreach. apply reachable_inv in Hreach as [Hwf _ _].
  simpl. unfold players_of. setoid_rewrite length_fmap. intros Hr Hst Hlen.
  pose proof (join_seq_ok σ roomId r calls Hwf Hr Hst Hlen) as Hall.
  destruct (join_seq roomId calls σ) as [results σ'].
  destruct Hall as (Hseats & _ & Hr' & _ & Hfinal).
  split_and!; [done| |  |done..].
  - clear. generalize (length (r_players (getR σ r))).
    induction (length calls) as [|k IH]; intros n; simpl; constructor; [done|].
    apply Forall_forall. intros x Hx. apply elem_of_seq in Hx. lia.
  - intros i playerId playerName Hi.
    assert (Hi' : i < length calls) by by eapply lookup_lt_Some.
    pose proof (join_seq_ok σ roomId r (take i calls) Hwf Hr Hst) as Hpre.
    rewrite length_take in Hpre. specialize (Hpre ltac:(lia)).
    destruct (join_seq roomId (take i calls) σ) as [results_i σi].
    destruct Hpre as (_ & Hwfi & Hri & Hsti & Hleni). simpl.
    destruct (joinRoom_waiting σi roomId playerId playerName r Hwfi Hri Hsti)
      as (Hj & _); [lia|].
    by rewrite Hj.
Qed.

(** Two joins on a fresh room get seats 1 and 2. *)
Lemma join_seq_seats_witness :
  assigned_seat <$> (join_seq "R" [("B", JStr "Bob"); ("C", JUndefined)]
                       (state_after [create "A" "R"])).1
  = [Some 1; Some 2].
Proof.
  apply (join_seq_seats (state_after [create "A" "R"]) "R" 0
           [("B", JStr "Bob"); ("C", JUndefined)]).
  - apply state_after_reachable. by vm_compute.
  - by vm_compute.
  - by vm_compute.
  - vm_compute. lia.
Defined.

(** ** Starting the game *)

Lemma was_host_hostId s id :
  host_first s → was_host id (snap_players s) = bool_decide (snap_hostId s = id).
Proof.
  intros (first & rest & -> & Hhost & -> & Hrest). rewrite was_host_cons.
  case_bool_decide; [done|]. by apply was_host_guests.
Qed.

Lemma find_player_value σ room id :
  getP σ <$> find_player σ room id
  = find (λ p, bool_decide (p_id p = id)) (players_of σ room).
Proof.
  exact (find_deref (getP σ) (λ p : Player, bool_decide (p_id p = id)) (r_players room)).
Qed.

(** C6, as stated, fails: in a room with one player, a requester who is
    not the host is refused with [InsufficientPlayers], not with
    [NotHost]. *)
Lemma startGame_single_player_not_host :
  reachable alone ∧
  (∃ r, rooms alone !! "R" = Some r ∧ snap_hostId (snapshot alone r) ≠ "B") ∧
  on_startGame (sock "B") "R" alone = (alone, [(ToSocket "B", error InsufficientPlayers)]) ∧
  (on_startGame (sock "B") "R" alone).2 ≠ [(ToSocket "B", error NotHost)].
Proof.
  split; [apply state_after_reachable; by vm_compute|]. split; [by exists 0|].
  assert (H : on_startGame (sock "B") "R" alone
              = (alone, [(ToSocket "B", error InsufficientPlayers)])) by by vm_compute.
  split; [done|]. by rewrite H.
Qed.

(** C6, amended. A [startGame] request is refused with
    [InsufficientPlayers] when the room is not registered or has fewer than
    two players, and with [NotHost] when the room has at least two players
    and the requester is not its host; a refusal leaves the state as it was
    and reaches the requester only (if still connected). A request of the
    host of a room with at least two players sets [status] to [playing] and
    [gameReady] to [false], changes nothing else, and sends [gameStarted]
    to the group of the room, which every player of the room is in. *)
Theorem startGame_outcomes (σ : Server) (socket : Socket) (roomId : string) :
  reachable σ →
  let refused msg :=
    on_startGame socket roomId σ
    = (σ, if s_connected socket then [(ToSocket (s_id socket), error msg)] else []) in
  (rooms σ !! roomId = None → refused InsufficientPlayers) ∧
  (∀ r, rooms σ !! roomId = Some r →
        length (snap_players (snapshot σ r)) < 2 → refused InsufficientPlayers) ∧
  (∀ r, rooms σ !! roomId = Some r →
        2 ≤ length (snap_players (snapshot σ r)) →
        snap_hostId (snapshot σ r) ≠ s_id socket → refused NotHost) ∧
  (∀ r, rooms σ !! roomId = Some r →
        2 ≤ length (snap_players (snapshot σ r)) →
        snap_hostId (snapshot σ r) = s_id socket →
        ∃ σ',
          on_startGame socket roomId σ
          = (σ', [(ToRoom roomId,
                   gameStarted (snap_players (snapshot σ r)) (snap_settings (snapshot σ r))
                               playing (snap_hostId (snapshot σ r)))]) ∧
          snapshot σ' r =
            {| snap_players := snap_players (snapshot σ r);
               snap_gameState := snap_gameState (snapshot σ r);
               snap_hostId := snap_hostId (snapshot σ r);
               snap_settings := snap_settings (snapshot σ r);
               snap_status := playing;
               snap_gameReady := false |} ∧
          rooms σ' = rooms σ ∧
          (∀ r', r' ≠ r → snapshot σ' r' = snapshot σ r') ∧
          (∀ p, p ∈ snap_players (snapshot σ r) → p_id p ∈ recipients σ' (ToRoom roomId))).
Proof.
  intros Hreach. apply reachable_inv in Hreach as [Hwf Hh Hs].
  pose proof (on_startGame_cases socket roomId σ) as Hc. cbv zeta in *.
  split_and!.
  - intros Hr. by rewrite Hr in Hc.
  - intros r Hr Hlt. rewrite Hr in Hc. simpl in Hlt. unfold players_of in Hlt.
    rewrite length_fmap in Hlt. by rewrite decide_True in Hc.
  - intros r Hr Hlen Hhost. rewrite Hr in Hc. simpl in Hlen. unfold players_of in Hlen.
    rewrite length_fmap in Hlen. rewrite decide_False in Hc by lia.
    change (players_of σ (getR σ r)) with (snap_players (snapshot σ r)) in Hc.
    rewrite was_host_hostId in Hc by by eapply Hh.
    by rewrite bool_decide_eq_false_2 in Hc.
  - intros r Hr Hlen Hhost. rewrite Hr in Hc. simpl in Hlen. unfold players_of in Hlen.
    rewrite length_fmap in Hlen. rewrite decide_False in Hc by lia.
    change (players_of σ (getR σ r)) with (snap_players (snapshot σ r)) in Hc.
    rewrite was_host_hostId in Hc by by eapply Hh.
    rewrite bool_decide_eq_true_2 in Hc by done.
    assert (Hlt : r < length (roomObjs σ)) by by eapply wf_rooms_alloc.
    exists (started_state r σ). split_and!.
    + by apply Hc.
    + unfold started_state. by rewrite snapshot_setR_eq.
    + done.
    + intros r' Hne. unfold started_state. by rewrite snapshot_setR_ne.
    + intros p Hp. by eapply Hs.
Qed.

Lemma startGame_outcomes_witness :
  on_startGame (sock "B") "X" two_waiting
    = (two_waiting, [(ToSocket "B", error InsufficientPlayers)]) ∧
  on_startGame (sock "A") "R" alone
    = (alone, [(ToSocket "A", error InsufficientPlayers)]) ∧
  on_startGame (sock "B") "R" two_waiting
    = (two_waiting, [(ToSocket "B", error NotHost)]) ∧
  snap_status (snapshot (on_startGame (sock "A") "R" two_waiting).1 0) = playing.
Proof.
  split_and!.
  - apply (startGame_outcomes two_waiting (sock "B") "X").
    + apply state_after_reachable. by vm_compute.
    + by vm_compute.
  - apply (startGame_outcomes alone (sock "A") "R") with (r := 0).
    + apply state_after_reachable. by vm_compute.
    + by vm_compute.
    + vm_compute. lia.
  - apply (startGame_outcomes two_waiting (sock "B") "R") with (r := 0).
    + apply state_after_reachable. by vm_compute.
    + by vm_compute.
    + vm_compute. lia.
    + by vm_compute.
  - destruct (startGame_outcomes two_waiting (sock "A") "R") as (_ & _ & _ & Hok).
    + apply state_after_reachable. by vm_compute.
    + destruct (Hok 0) as (σ' & Hrun & Hsnap & _).
      * by vm_compute.
      * vm_compute. lia.
      * by vm_compute.
      * rewrite Hrun. cbn [fst]. by rewrite Hsnap.
Defined.

(** ** Game state updates *)

(** C7. [gameStateUpdate] for an id that is not registered, or from a
    connection that is not a player of the room, changes nothing and sends
    nothing. From a player of the room it stores the submitted value as the
    [gameState] of the room, whatever was stored, changes nothing else, and
    sends [gameStateSync] with that value and the seat and host flag of the
    submitter to the group of the room without the submitter, which every
    other player of the room is in. *)
Theorem gameStateUpdate_outcomes (σ : Server) (socket : Socket) (roomId : string)
    (gameState : jsval) :
  reachable σ →
  (rooms σ !! roomId = None → on_gameStateUpdate socket roomId gameState σ = (σ, [])) ∧
  (∀ r, rooms σ !! roomId = Some r →
        Forall (λ p, p_id p ≠ s_id socket) (snap_players (snapshot σ r)) →
        on_gameStateUpdate socket roomId gameState σ = (σ, [])) ∧
  (∀ r submitter,
      rooms σ !! roomId = Some r →
      find (λ p, bool_decide (p_id p = s_id socket)) (snap_players (snapshot σ r))
        = Some submitter →
      ∃ σ',
        on_gameStateUpdate socket roomId gameState σ
        = (σ', [(ToRoomExcept roomId (s_id socket),
                 gameStateSync gameState (p_seat submitter) (p_isHost submitter))]) ∧
        snapshot σ' r =
          {| snap_players := snap_players (snapshot σ r);
             snap_gameState := gameState;
             snap_hostId := snap_hostId (snapshot σ r);
             snap_settings := snap_settings (snapshot σ r);
             snap_status := snap_status (snapshot σ r);
             snap_gameReady := snap_gameReady (snapshot σ r) |} ∧
        rooms σ' = rooms σ ∧
        (∀ r', r' ≠ r → snapshot σ' r' = snapshot σ r') ∧
        (∀ p, p ∈ snap_players (snapshot σ r) → p_id p ≠ s_id socket →
              p_id p ∈ recipients σ' (ToRoomExcept roomId (s_id socket))) ∧
        s_id socket ∉ recipients σ' (ToRoomExcept roomId (s_id socket))).
Proof.
  intros Hreach. apply reachable_inv in Hreach as [Hwf Hh Hs].
  unfold on_gameStateUpdate. split_and!.
  - intros Hr. by rewrite Hr.
  - intros r Hr Hall. rewrite Hr.
    pose proof (find_player_value σ (getR σ r) (s_id socket)) as Hfind.
    destruct (find_player σ (getR σ r) (s_id socket)) as [l|]; [|done].
    simpl in Hfind. symmetry in Hfind. apply find_some in Hfind as [Hin Hid].
    apply list_elem_of_In in Hin. apply bool_decide_eq_true in Hid.
    by eapply Forall_forall in Hall.
  - intros r submitter Hr Hsub. rewrite Hr.
    pose proof (find_player_value σ (getR σ r) (s_id socket)) as Hfind.
    simpl in Hsub. rewrite Hsub in Hfind.
    destruct (find_player σ (getR σ r) (s_id socket)) as [l|]; [|done].
    simpl in Hfind. injection Hfind as Hl.
    assert (Hlt : r < length (roomObjs σ)) by by eapply wf_rooms_alloc.
    eexists. split_and!.
    + assert (∀ room, getP (setR r room σ) l = getP σ l) as -> by done.
      by rewrite Hl.
    + by rewrite snapshot_setR_eq.
    + done.
    + intros r' Hne. by rewrite snapshot_setR_ne.
    + intros p Hp Hne. simpl. apply elem_of_difference. split; [|set_solver].
      by eapply Hs.
    + simpl. intros [_ Hnot]%elem_of_difference. apply Hnot. by apply elem_of_singleton.
Qed.

(** B, who is in the room, submits a state; E, who is not, submits one. *)
Lemma gameStateUpdate_outcomes_witness :
  on_gameStateUpdate (sock "E") "X" (JNum 7) two_waiting = (two_waiting, []) ∧
  on_gameStateUpdate (sock "E") "R" (JNum 7) two_waiting = (two_waiting, []) ∧
  (on_gameStateUpdate (sock "B") "R" (JNum 7) two_waiting).2
    = [(ToRoomExcept "R" "B", gameStateSync (JNum 7) 1 false)].
Proof.
  assert (Hreach : reachable two_waiting)
    by (apply state_after_reachable; by vm_compute).
  destruct (gameStateUpdate_outcomes two_waiting (sock "E") "X" (JNum 7) Hreach)
    as (Habsent & _ & _).
  destruct (gameStateUpdate_outcomes two_waiting (sock "E") "R" (JNum 7) Hreach)
    as (_ & Hother & _).
  destruct (gameStateUpdate_outcomes two_waiting (sock "B") "R" (JNum 7) Hreach)
    as (_ & _ & Hmember).
  split_and!.
  - apply Habsent. by vm_compute.
  - apply (Hother 0); [by vm_compute|].
    vm_compute. repeat constructor; discriminate.
  - destruct (Hmember 0 (mkPlayer "B" (JStr "玩家2") false 1)) as (σ' & Hrun & _).
    + by vm_compute.
    + by vm_compute.
    + by rewrite Hrun.
Defined.

(** ** Host transfer *)

Lemma filter_hosts_guests (ps : list Player) :
  Forall (λ p, p_isHost p = false) ps → filter (λ p, p_isHost p = true) ps = [].
Proof.
  induction 1 as [|p ps Hp _ IH]; [done|].
  rewrite filter_cons_False; [done|]. by rewrite Hp.
Qed.

Lemma host_first_unique s :
  host_first s →
  ∃ host, filter (λ p, p_isHost p = true) (snap_players s) = [host]
          ∧ snap_hostId s = p_id host.
Proof.
  intros (first & rest & -> & Hhost & -> & Hrest). exists first. split; [|done].
  rewrite filter_cons_True by done. f_equal. by apply filter_hosts_guests.
Qed.

(** C1, as stated, fails: when the host A leaves this room, D (seat 3)
    becomes the host although E has the smaller seat 2. *)
Lemma host_transfer_not_smallest_seat :
  reachable seats_out_of_order ∧
  rooms seats_out_of_order !! "R" = Some 0 ∧
  snap_hostId (snapshot seats_out_of_order 0) = "A" ∧
  let σ' := leaveRoom "R" "A" seats_out_of_order in
  rooms σ' !! "R" = Some 0 ∧
  snap_players (snapshot σ' 0)
    = [mkPlayer "D" (JStr "玩家4") true 3; mkPlayer "E" (JStr "玩家3") false 2] ∧
  ¬ (∀ host p, host ∈ snap_players (snapshot σ' 0) → p_isHost host = true →
               p ∈ snap_players (snapshot σ' 0) → p_seat host ≤ p_seat p).
Proof.
  split; [apply state_after_reachable; by vm_compute|].
  split; [by vm_compute|]. split; [by vm_compute|].
  cbv zeta.
  assert (Hps : snap_players (snapshot (leaveRoom "R" "A" seats_out_of_order) 0)
                = [mkPlayer "D" (JStr "玩家4") true 3; mkPlayer "E" (JStr "玩家3") false 2])
    by by vm_compute.
  split; [by vm_compute|]. split; [done|].
  rewrite Hps. intros Hclaim.
  specialize (Hclaim (mkPlayer "D" (JStr "玩家4") true 3)
                     (mkPlayer "E" (JStr "玩家3") false 2)).
  simpl in Hclaim. assert (3 ≤ 2); [|lia].
  apply Hclaim; [left|done|right; left].
Qed.

(** C1, amended. When the host of a registered room leaves through
    [leaveRoom] and somebody remains, the room stays registered, the first
    of the remaining players (index 0 of the remaining sequence, whatever
    its seat) becomes the host, it is the only player with [isHost] set,
    and [hostId] is its id. *)
Theorem leaveRoom_host_transfer (σ : Server) (roomId : string) (r : loc) :
  reachable σ → rooms σ !! roomId = Some r →
  let host := snap_hostId (snapshot σ r) in
  let remaining := filter (λ p, p_id p ≠ host) (snap_players (snapshot σ r)) in
  let σ' := leaveRoom roomId host σ in
  remaining ≠ [] →
  rooms σ' !! roomId = Some r ∧
  ∃ first rest,
    remaining = first :: rest ∧
    snap_players (snapshot σ' r) = with_isHost true first :: rest ∧
    filter (λ p, p_isHost p = true) (snap_players (snapshot σ' r))
      = [with_isHost true first] ∧
    snap_hostId (snapshot σ' r) = p_id first.
Proof.
  intros Hreach Hr. apply reachable_inv in Hreach as [Hwf Hh Hs].
  cbv zeta. intros Hrem.
  rewrite (leaveRoom_rooms σ roomId _ r) by done.
  rewrite decide_False by done. split; [done|].
  rewrite (leaveRoom_snapshot σ roomId _ r) by done.
  destruct (Hh roomId r Hr) as (h & rest0 & Hps & Hhost & Hid & Hrest).
  unfold after_leave. rewrite Hps, Hid in *. rewrite was_host_cons.
  rewrite bool_decide_eq_true_2 by done. rewrite Hhost.
  rewrite filter_cons_False in * by (intros Hn; by apply Hn).
  destruct (filter _ rest0) as [|first rest] eqn:Hf; [done|].
  exists first, rest. simpl. split; [done|]. split; [done|]. split; [|done].
  rewrite filter_cons_True by done. f_equal.
  assert (Hguests : Forall (λ p, p_isHost p = false) (first :: rest)).
  { rewrite <- Hf. apply Forall_forall. intros p [_ Hin]%list_elem_of_filter.
    by eapply Forall_forall in Hrest. }
  apply Forall_cons in Hguests as [_ Hguests].
  by apply filter_hosts_guests.
Qed.

Lemma leaveRoom_host_transfer_witness :
  snap_players (snapshot (leaveRoom "R" "A" two_waiting) 0)
    = [mkPlayer "B" (JStr "玩家2") true 1] ∧
  snap_hostId (snapshot (leaveRoom "R" "A" two_waiting) 0) = "B".
Proof.
  destruct (leaveRoom_host_transfer two_waiting "R" 0)
    as (_ & first & rest & Hrem & Hps & _ & Hid).
  - apply state_after_reachable. by vm_compute.
  - by vm_compute.
  - by vm_compute.
  - assert (Hhost : snap_hostId (snapshot two_waiting 0) = "A") by by vm_compute.
    rewrite Hhost in Hrem, Hps, Hid. rewrite Hps, Hid.
    assert (Hf : filter (λ p, p_id p ≠ "A") (snap_players (snapshot two_waiting 0))
                 = [mkPlayer "B" (JStr "玩家2") false 1]) by by vm_compute.
    rewrite Hf in Hrem. by injection Hrem as <- <-.
Defined.

(** C2. In every reachable state, and in the state that any handler (or a
    timer that fires) leaves behind, every registered room with at least one
    player has exactly one player with [isHost] set, and [hostId] is the id
    of that player. *)
Theorem one_host (σ : Server) :
  reachable σ →
  let ok σ :=
    ∀ roomId r, rooms σ !! roomId = Some r →
      1 ≤ length (snap_players (snapshot σ r)) →
      ∃ host, filter (λ p, p_isHost p = true) (snap_players (snapshot σ r)) = [host]
              ∧ snap_hostId (snapshot σ r) = p_id host in
  ok σ ∧ ∀ e σ' out, handle e σ = Some (σ', out) → ok σ'.
Proof.
  intros Hreach. cbv zeta. split.
  - intros roomId r Hr _. apply host_first_unique.
    by eapply (inv_hosts σ (reachable_inv σ Hreach)).
  - intros e σ' out Hstep roomId r Hr _. apply host_first_unique.
    assert (Hinv' : inv σ') by (eapply handle_inv; [by apply reachable_inv|done]).
    by eapply (inv_hosts σ' Hinv').
Qed.

Lemma one_host_witness :
  ∃ host,
    filter (λ p, p_isHost p = true) (snap_players (snapshot two_playing 0)) = [host]
    ∧ snap_hostId (snapshot two_playing 0) = p_id host.
Proof.
  destruct (one_host two_waiting) as [_ Hstep].
  - apply state_after_reachable. by vm_compute.
  - apply (Hstep (start "A" "R") two_playing
             [(ToRoom "R", gameStarted (snap_players (snapshot two_waiting 0))
                             (snap_settings (snapshot two_waiting 0)) playing "A")]
             ltac:(by vm_compute) "R" 0).
    + by vm_compute.
    + vm_compute. lia.
Defined.

(** ** Runs without id collisions *)

Lemma reachable_fresh_reachable σ : reachable_fresh σ → reachable σ.
Proof.
  induction 1 as [|σ e σ' out _ IH _ Hstep]; [apply reachable_init|].
  by eapply reachable_step.
Qed.

Lemma fresh_transfer σ σ' :
  rooms σ' = rooms σ → groups σ' = groups σ →
  (∀ r, snap_players (snapshot σ' r) = snap_players (snapshot σ r)) →
  tight σ ∧ no_orphans σ → tight σ' ∧ no_orphans σ'.
Proof.
  intros Hrooms Hgroups Hps [Ht Hn]. split.
  - intros roomId id Hin. unfold group in Hin. rewrite Hgroups in Hin.
    destruct (Ht roomId id Hin) as (r & p & Hr & Hp & Hid).
    exists r, p. by rewrite Hrooms, Hps.
  - intros r Hne. rewrite Hps in Hne. rewrite Hrooms. by apply Hn.
Qed.

Lemma setR_fields_players σ r room' r' :
  r < length (roomObjs σ) → r_players room' = r_players (getR σ r) →
  snap_players (snapshot (setR r room' σ) r') = snap_players (snapshot σ r').
Proof.
  intros Hlt Hps. destruct (decide (r = r')) as [<-|Hne].
  - rewrite snapshot_setR_eq by done. simpl. by rewrite Hps.
  - by rewrite snapshot_setR_ne.
Qed.

Lemma snapshot_unallocated σ r :
  length (roomObjs σ) ≤ r → snap_players (snapshot σ r) = [].
Proof.
  intros Hge. simpl. unfold getR. rewrite list_lookup_total_alt.
  by rewrite lookup_ge_None_2.
Qed.

Lemma after_leave_keeps playerId s p :
  p ∈ snap_players s → p_id p ≠ playerId →
  filter (λ p, p_id p ≠ playerId) (snap_players s) ≠ [] ∧
  ∃ p', p' ∈ snap_players (after_leave playerId s) ∧ p_id p' = p_id p.
Proof.
  intros Hin Hne.
  assert (Hf : p ∈ filter (λ p, p_id p ≠ playerId) (snap_players s))
    by by apply list_elem_of_filter.
  split; [intros Hnil; rewrite Hnil in Hf; by apply elem_of_nil in Hf|].
  unfold after_leave; simpl. destruct (was_host _ _); [|by exists p].
  destruct (filter _ _) as [|first rest]; [by apply elem_of_nil in Hf|].
  apply elem_of_cons in Hf as [->|Hf]; simpl.
  - exists (with_isHost true first). split; [left|done].
  - exists p. split; [by right|done].
Qed.

Lemma after_leave_nonempty playerId s :
  snap_players (after_leave playerId s) ≠ [] →
  filter (λ p, p_id p ≠ playerId) (snap_players s) ≠ [].
Proof.
  unfold after_leave; simpl. intros Hne Hnil. rewrite Hnil in Hne.
  by destruct (was_host _ _).
Qed.

Lemma on_disconnect_frame socket σ r :
  inv σ → (∀ roomId, rooms σ !! roomId ≠ Some r) →
  snapshot (on_disconnect socket σ).1 r = snapshot σ r.
Proof.
  intros Hinv Hnot. rewrite on_disconnect_state by done.
  rewrite leave_all_frame; [done|apply wf_set_groups, Hinv|].
  intros roomId _. apply Hnot.
Qed.

Lemma on_createRoom_fresh socket generated settings callback σ σ' out :
  inv σ → tight σ → no_orphans σ → rooms σ !! generated = None →
  completed (on_createRoom socket generated settings callback σ) = Some (σ', out) →
  tight σ' ∧ no_orphans σ'.
Proof.
  intros [Hwf Hh Hs] Ht Hn Hfresh. rewrite on_createRoom_cases.
  destruct (is_null settings); [done|]. cbv zeta. intros [-> _]%completed_reply_last.
  set (σ1 := created_state generated (s_id socket) settings σ).
  assert (Hrooms : rooms σ1 = <[generated := length (roomObjs σ)]> (rooms σ)) by done.
  assert (Hgroup : ∀ k, group σ1 k = group σ k) by done.
  assert (Hlen : length (roomObjs σ1) = S (length (roomObjs σ))).
  { subst σ1. simpl. rewrite length_app. simpl. lia. }
  assert (Hnew : snapshot σ1 (length (roomObjs σ)) = created_room (s_id socket) settings)
    by apply create_snapshot.
  assert (Hold : ∀ r, r < length (roomObjs σ) → snapshot σ1 r = snapshot σ r)
    by (intros r; by apply create_frame).
  clearbody σ1.
  split.
  - intros roomId id. rewrite group_socket_join, !Hgroup.
    change (snapshot (socket_join socket generated σ1)) with (snapshot σ1).
    change (rooms (socket_join socket generated σ1)) with (rooms σ1).
    rewrite Hrooms.
    destruct (decide (roomId = generated)) as [->|Hne].
    + intros [Hid%elem_of_singleton|Hin]%elem_of_union.
      * exists (length (roomObjs σ)), (created_host (s_id socket) settings).
        rewrite Hnew, lookup_insert_eq. split_and!; [done|left|done].
      * destruct (Ht generated id Hin) as (r & p & Hr & _). congruence.
    + intros Hin. destruct (Ht roomId id Hin) as (r & p & Hr & Hp & Hid).
      exists r, p. rewrite lookup_insert_ne by done.
      rewrite Hold by by eapply wf_rooms_alloc. done.
  - intros r. change (snapshot (socket_join socket generated σ1)) with (snapshot σ1).
    change (rooms (socket_join socket generated σ1)) with (rooms σ1).
    rewrite Hrooms.
    intros Hne. destruct (decide (r < length (roomObjs σ))) as [Hlt|Hge].
    + rewrite Hold in Hne by done.
      destruct (Hn r Hne) as [roomId Hr]. exists roomId.
      rewrite lookup_insert_ne; [done|]. intros <-. congruence.
    + destruct (decide (r = length (roomObjs σ))) as [->|Hne'].
      * exists generated. by rewrite lookup_insert_eq.
      * rewrite snapshot_unallocated in Hne; [done|]. lia.
Qed.

Lemma on_joinRoom_fresh socket roomId playerName callback σ :
  inv σ → tight σ → no_orphans σ →
  tight (result (on_joinRoom socket roomId playerName callback σ)).1
  ∧ no_orphans (result (on_joinRoom socket roomId playerName callback σ)).1.
Proof.
  intros [Hwf Hh Hs] Ht Hn. rewrite on_joinRoom_state.
  pose proof (joinRoom_cases σ roomId (s_id socket) playerName) as Hj.
  destruct (rooms σ !! roomId) as [r|] eqn:Hr; [|by rewrite Hj].
  simpl in Hj. destruct (decide (4 ≤ _)); [by rewrite Hj|].
  destruct (decide (_ = waiting)); [|by rewrite Hj].
  rewrite Hj. cbv beta iota zeta.
  set (σ1 := joined_state r (s_id socket) playerName σ). cbn [fst].
  split.
  - intros roomId' id. rewrite group_socket_join.
    change (snapshot (socket_join socket roomId σ1)) with (snapshot σ1).
    change (rooms (socket_join socket roomId σ1)) with (rooms σ).
    destruct (decide (roomId' = roomId)) as [->|Hne].
    + intros Hin. exists r. unfold σ1. erewrite join_snapshot by done. simpl.
      apply elem_of_union in Hin as [Hid%elem_of_singleton|Hin].
      * eexists. split_and!; [done|apply elem_of_app; right; left|done].
      * destruct (Ht roomId id Hin) as (r0 & p & Hr0 & Hp & Hid). simplify_eq.
        exists p. split_and!; [done|apply elem_of_app; by left|done].
    + intros Hin. destruct (Ht roomId' id Hin) as (r' & p & Hr' & Hp & Hid).
      exists r', p. unfold σ1. erewrite join_frame; [done..|].
      intros ->. apply Hne. by eapply wf_rooms_inj.
  - intros r'. change (snapshot (socket_join socket roomId σ1)) with (snapshot σ1).
    change (rooms (socket_join socket roomId σ1)) with (rooms σ).
    destruct (decide (r' = r)) as [->|Hne]; [by exists roomId|].
    unfold σ1. erewrite join_frame by done. apply Hn.
Qed.

Lemma on_leaveRoom_fresh socket roomId σ :
  inv σ → tight σ → no_orphans σ →
  tight (on_leaveRoom socket roomId σ).1 ∧ no_orphans (on_leaveRoom socket roomId σ).1.
Proof.
  intros [Hwf Hh Hs] Ht Hn. unfold on_leaveRoom; cbn [fst].
  set (σ1 := leaveRoom roomId (s_id socket) σ).
  destruct (rooms σ !! roomId) as [r|] eqn:Hr.
  - split.
    + intros roomId' id. rewrite group_socket_leave. unfold group.
      unfold σ1 at 1 2. rewrite leaveRoom_groups.
      fold (group σ roomId) (group σ roomId').
      change (snapshot (socket_leave socket roomId σ1)) with (snapshot σ1).
      change (rooms (socket_leave socket roomId σ1)) with (rooms σ1).
      destruct (decide (roomId' = roomId)) as [->|Hne].
      * intros [Hin Hid]%elem_of_difference.
        destruct (Ht roomId id Hin) as (r0 & p & Hr0 & Hp & Hpid). simplify_eq.
        destruct (after_leave_keeps (s_id socket) (snapshot σ r) p) as (Hrem & p' & Hp' & Hid');
          [done|set_solver|].
        exists r, p'. unfold σ1.
        rewrite (leaveRoom_rooms σ roomId _ r), (leaveRoom_snapshot σ roomId) by done.
        by rewrite decide_False.
      * intros Hin. destruct (Ht roomId' id Hin) as (r' & p & Hr' & Hp & Hid).
        exists r', p. unfold σ1. rewrite leaveRoom_other_rooms by done.
        rewrite (leaveRoom_frame σ roomId _ r); [done..|].
        intros ->. apply Hne. by eapply wf_rooms_inj.
    + intros r'. change (snapshot (socket_leave socket roomId σ1)) with (snapshot σ1).
      change (rooms (socket_leave socket roomId σ1)) with (rooms σ1).
      destruct (decide (r' = r)) as [->|Hne].
      * unfold σ1. rewrite (leaveRoom_snapshot σ roomId) by done.
        intros Hrem%after_leave_nonempty. exists roomId.
        rewrite (leaveRoom_rooms σ roomId _ r) by done. by rewrite decide_False.
      * unfold σ1. rewrite (leaveRoom_frame σ roomId _ r) by done.
        intros [roomId' Hr']%Hn. exists roomId'.
        rewrite leaveRoom_other_rooms; [done|]. intros ->. congruence.
  - assert (σ1 = σ) as -> by by apply leaveRoom_absent.
    split.
    + intros roomId' id. rewrite group_socket_leave.
      change (snapshot (socket_leave socket roomId σ)) with (snapshot σ).
      change (rooms (socket_leave socket roomId σ)) with (rooms σ).
      case_decide; [|apply Ht]. subst roomId'.
      intros [Hin _]%elem_of_difference. by apply Ht.
    + apply Hn.
Qed.

Lemma on_disconnect_fresh socket σ :
  inv σ → tight σ → no_orphans σ →
  tight (on_disconnect socket σ).1 ∧ no_orphans (on_disconnect socket σ).1.
Proof.
  intros Hinv Ht Hn. split.
  - intros roomId id. rewrite on_disconnect_group by done.
    intros [Hin Hid]%elem_of_difference.
    destruct (Ht roomId id Hin) as (r & p & Hr & Hp & Hpid).
    destruct (after_leave_keeps (s_id socket) (snapshot σ r) p) as (Hrem & p' & Hp' & Hid');
      [done|set_solver|].
    exists r, p'. rewrite on_disconnect_rooms, Hr by done.
    rewrite (on_disconnect_snapshot socket σ Hinv roomId) by done.
    rewrite decide_False by done. split_and!; [done..|congruence].
  - intros r Hne.
    destruct (snap_players (snapshot σ r)) as [|p ps] eqn:Hps.
    + assert (Hunreg : ∀ roomId, rooms σ !! roomId ≠ Some r).
      { intros roomId Hr. apply (host_first_nonempty (snapshot σ r)); [|done].
        by eapply (inv_hosts σ Hinv). }
      rewrite on_disconnect_frame in Hne by done.
      by rewrite Hps in Hne.
    + destruct (Hn r) as [roomId Hr]; [by rewrite Hps|].
      rewrite (on_disconnect_snapshot socket σ Hinv roomId) in Hne by done.
      apply after_leave_nonempty in Hne. exists roomId.
      rewrite on_disconnect_rooms, Hr by done. by rewrite decide_False.
Qed.

Lemma handle_fresh e σ σ' out :
  inv σ → tight σ ∧ no_orphans σ → fresh_draw e σ →
  handle e σ = Some (σ', out) → tight σ' ∧ no_orphans σ'.
Proof.
  intros Hinv [Ht Hn] Hfresh. destruct e as [socket m|i]; simpl.
  - destruct m as [generated settings callback|[d|] callback|roomId|roomId
                   |roomId callback|[d|]|[d|]|[d|]|roomId callback|];
      simpl; try done.
    + by apply on_createRoom_fresh.
    + state_of_result. by apply on_joinRoom_fresh.
    + state_of_result. by apply on_leaveRoom_fresh.
    + state_of_result.
      pose proof (on_startGame_cases socket roomId σ) as Hc. simpl in Hc.
      destruct (rooms σ !! roomId) as [r|] eqn:Hr; [|by rewrite Hc].
      destruct (decide (_ < 2)); [by rewrite Hc|].
      destruct (was_host _ _); [|by rewrite Hc].
      assert (Hlt : r < length (roomObjs σ))
        by (eapply wf_rooms_alloc; [apply Hinv|done]).
      rewrite Hc by done. cbn [fst].
      apply (fresh_transfer σ); [done..| |done].
      intros r'. by apply setR_fields_players.
    + state_of_result. by rewrite on_getRoomState_state.
    + state_of_result. unfold on_gameReady.
      destruct (rooms σ !! _) as [r|] eqn:Hr; [|done].
      case_bool_decide; [done|]. cbn [fst].
      apply (fresh_transfer σ); [done..| |done].
      intros r'. apply setR_fields_players; [|done].
      eapply wf_rooms_alloc; [apply Hinv|done].
    + state_of_result. unfold on_gameStateUpdate.
      destruct (rooms σ !! _) as [r|] eqn:Hr; [|done].
      destruct (find_player _ _ _); [|done]. cbn [fst].
      apply (fresh_transfer σ); [done..| |done].
      intros r'. apply setR_fields_players; [|done].
      eapply wf_rooms_alloc; [apply Hinv|done].
    + state_of_result.
      destruct (on_playerAction_state socket (ad_roomId d) (ad_action d) (ad_params d) σ)
        as [->|(r & player & Hr & Hfind & ->)]; [done|].
      by apply (fresh_transfer σ).
    + state_of_result. by rewrite on_requestTurnInfo_state.
    + state_of_result. by apply on_disconnect_fresh.
  - destruct (timers σ !! i); intros [= <- _]; [|done].
    by apply (fresh_transfer σ).
Qed.

Lemma reachable_fresh_inv σ : reachable_fresh σ → tight σ ∧ no_orphans σ.
Proof.
  induction 1 as [|σ e σ' out Hreach IH Hfresh Hstep].
  - split.
    + intros roomId id Hin. unfold group in Hin. simpl in Hin.
      rewrite lookup_empty in Hin. by apply elem_of_empty in Hin.
    + intros r Hne. by rewrite snapshot_unallocated in Hne by (simpl; lia).
  - eapply handle_fresh; [|done..].
    by apply reachable_inv, reachable_fresh_reachable.
Qed.

Lemma fresh_drawb_spec e σ : fresh_drawb e σ = true → fresh_draw e σ.
Proof.
  destruct e as [socket m|i]; [|done]. destruct m; try done.
  simpl. by intros ?%bool_decide_eq_true.
Defined.

Lemma run_fresh_reachable es σ σ' :
  reachable_fresh σ → run_fresh es σ = Some σ' → reachable_fresh σ'.
Proof.
  revert σ. induction es as [|e es IH]; intros σ Hreach; simpl.
  - by intros [= <-].
  - destruct (fresh_drawb e σ) eqn:Hfresh; [|done].
    destruct (handle e σ) as [[σ1 out1]|] eqn:He; simpl; [|done].
    intros Hrun. eapply IH; [|done].
    eapply reachable_fresh_step; [done|by apply fresh_drawb_spec|done].
Defined.

(** ** Rooms and their players *)

(** What a departure does to the room object and to its registration. *)
Lemma departure_room σ roomId playerId r σ' :
  inv σ → rooms σ !! roomId = Some r → departure σ roomId playerId σ' →
  snapshot σ' r = after_leave playerId (snapshot σ r) ∧
  rooms σ' !! roomId =
    if decide (filter (λ p, p_id p ≠ playerId) (snap_players (snapshot σ r)) = [])
    then None else Some r.
Proof.
  intros Hinv Hr [|socket <-|socket <-].
  - rewrite (leaveRoom_snapshot σ roomId), (leaveRoom_rooms σ roomId _ r)
      by (done || apply Hinv).
    split; [done|]. case_decide; [by rewrite lookup_delete_eq|done].
  - unfold on_leaveRoom; cbn [fst].
    change (snapshot (socket_leave socket roomId (leaveRoom roomId (s_id socket) σ)) r)
      with (snapshot (leaveRoom roomId (s_id socket) σ) r).
    change (rooms (socket_leave socket roomId (leaveRoom roomId (s_id socket) σ)))
      with (rooms (leaveRoom roomId (s_id socket) σ)).
    rewrite (leaveRoom_snapshot σ roomId), (leaveRoom_rooms σ roomId _ r)
      by (done || apply Hinv).
    split; [done|]. case_decide; [by rewrite lookup_delete_eq|done].
  - rewrite (on_disconnect_snapshot socket σ Hinv roomId), on_disconnect_rooms, Hr by done.
    done.
Qed.

Lemma after_leave_empty playerId s :
  snap_players (after_leave playerId s) = [] ↔
  filter (λ p, p_id p ≠ playerId) (snap_players s) = [].
Proof.
  unfold after_leave; simpl. split.
  - destruct (was_host _ _); [|done]. by destruct (filter _ _).
  - intros ->. by destruct (was_host _ _).
Qed.

(** C5, as stated, fails: when [generateRoomId] draws the id of a
    registered room, [createRoom] overwrites the entry, and the room that
    was registered under the id keeps its players but is registered under
    no id. Such a state is not reached when every draw is fresh. *)
Lemma collision_leaves_room_unregistered :
  let σ := state_after [create "A" "R"; join "B" "R"; create "C" "R"] in
  reachable σ ∧
  p_id <$> snap_players (snapshot σ 0) = ["A"; "B"] ∧
  map_to_list (rooms σ) = [("R", 1)] ∧
  (∀ roomId, rooms σ !! roomId ≠ Some 0) ∧
  ¬ reachable_fresh σ.
Proof.
  intros σ.
  assert (Hrooms : map_to_list (rooms σ) = [("R", 1 : loc)]) by by vm_compute.
  assert (Hnone : ∀ roomId, rooms σ !! roomId ≠ Some (0 : loc)).
  { intros roomId Hr. apply elem_of_map_to_list in Hr. rewrite Hrooms in Hr.
    apply list_elem_of_singleton in Hr. discriminate Hr. }
  split; [apply state_after_reachable; by vm_compute|].
  split; [by vm_compute|]. split; [done|]. split; [done|].
  intros [_ Horphans]%reachable_fresh_inv.
  destruct (Horphans 0) as [roomId Hr]; [by vm_compute|]. by apply (Hnone roomId).
Qed.

(** C5, amended. In every reachable state the room registered under an id
    has at least one player: no registered room is empty. A departure (a
    call of [leaveRoom], the [leaveRoom] message, or a disconnection)
    keeps the room registered exactly when it leaves a player in it: if it
    removes the last player, looking the id up afterwards finds nothing.
    And in a run in which [generateRoomId] never draws the id of a
    registered room, a room object is registered under some id exactly
    when it has at least one player. *)
Theorem registered_iff_players (σ : Server) :
  reachable σ →
  (∀ roomId r, rooms σ !! roomId = Some r →
               1 ≤ length (snap_players (snapshot σ r))) ∧
  (∀ roomId playerId r σ',
     rooms σ !! roomId = Some r → departure σ roomId playerId σ' →
     (snap_players (snapshot σ' r) = [] ↔ rooms σ' !! roomId = None) ∧
     (1 ≤ length (snap_players (snapshot σ' r)) ↔ rooms σ' !! roomId = Some r)) ∧
  (reachable_fresh σ →
   ∀ r, (∃ roomId, rooms σ !! roomId = Some r)
        ↔ 1 ≤ length (snap_players (snapshot σ r))).
Proof.
  intros Hreach. pose proof (reachable_inv σ Hreach) as Hinv.
  assert (Hplayers : ∀ roomId r, rooms σ !! roomId = Some r →
                                 1 ≤ length (snap_players (snapshot σ r))).
  { intros roomId r Hr.
    destruct (inv_hosts σ Hinv roomId r Hr) as (first & rest & Hps & _).
    rewrite Hps. simpl. lia. }
  split_and!.
  - done.
  - intros roomId playerId r σ' Hr Hdep.
    destruct (departure_room σ roomId playerId r σ' Hinv Hr Hdep) as [Hsnap Hrooms].
    rewrite Hsnap, Hrooms.
    pose proof (after_leave_empty playerId (snapshot σ r)) as Hempty.
    destruct (snap_players (after_leave playerId (snapshot σ r))) as [|p ps] eqn:Hps.
    + rewrite decide_True by by apply Hempty. simpl. split; split; (done || lia).
    + rewrite decide_False by (intros Hnil; by apply Hempty in Hnil).
      simpl. split; split; (done || lia).
  - intros Hfresh r. split; [intros [roomId Hr]; by eapply Hplayers|].
    intros Hlen. apply (reachable_fresh_inv σ Hfresh).
    intros Hnil. rewrite Hnil in Hlen. simpl in Hlen. lia.
Qed.

(** B leaves the room of A and B, then A disconnects. *)
Lemma registered_iff_players_witness :
  rooms (on_leaveRoom (sock "B") "R" two_waiting).1 !! "R" = Some 0 ∧
  rooms (on_disconnect (sock "A") alone).1 !! "R" = None ∧
  ∃ roomId, rooms two_waiting !! roomId = Some 0.
Proof.
  assert (Hreach : reachable_fresh two_waiting).
  { apply (run_fresh_reachable [create "A" "R"; join "B" "R"] init);
      [apply reachable_fresh_init|by vm_compute]. }
  destruct (registered_iff_players two_waiting) as (_ & Hleave & Hfresh);
    [by apply reachable_fresh_reachable|].
  destruct (registered_iff_players alone) as (_ & Hlast & _);
    [apply state_after_reachable; by vm_compute|].
  split_and!.
  - apply (Hleave "R" "B" 0); [by vm_compute|by apply departure_message|].
    vm_compute. lia.
  - apply (Hlast "R" "A" 0); [by vm_compute|by apply departure_disconnect|].
    by vm_compute.
  - apply (Hfresh Hreach 0). vm_compute. lia.
Defined.

(** ** Seats *)

Lemma after_leave_identity playerId s :
  identity <$> snap_players (after_leave playerId s)
  = identity <$> filter (λ p, p_id p ≠ playerId) (snap_players s).
Proof.
  unfold after_leave; simpl. destruct (was_host _ _); [|done].
  by destruct (filter _ _).
Qed.

(** C9. A departure of [playerId] (a call of [leaveRoom], the [leaveRoom]
    message, or a disconnection) keeps, in the room object, exactly the
    players whose id is not [playerId], in their order and with their id,
    name and seat as they were. So the seats before are the seats of the
    removed records together with the seats after; when one record is
    removed, the seats after are the seats before without its seat. No seat
    is renumbered, whether or not the seats that remain are contiguous. *)
Theorem departure_keeps_seats (σ σ' : Server) (roomId playerId : string) (r : loc) :
  reachable σ → rooms σ !! roomId = Some r → departure σ roomId playerId σ' →
  let before := snap_players (snapshot σ r) in
  let after := snap_players (snapshot σ' r) in
  identity <$> after = identity <$> filter (λ p, p_id p ≠ playerId) before ∧
  p_seat <$> before
    ≡ₚ (p_seat <$> filter (λ p, p_id p = playerId) before) ++ (p_seat <$> after) ∧
  (∀ leaver, filter (λ p, p_id p = playerId) before = [leaver] →
             p_seat <$> before ≡ₚ p_seat leaver :: (p_seat <$> after)).
Proof.
  intros Hreach Hr Hdep. pose proof (reachable_inv σ Hreach) as Hinv.
  destruct (departure_room σ roomId playerId r σ' Hinv Hr Hdep) as [Hsnap _].
  cbv zeta. rewrite Hsnap.
  pose proof (after_leave_identity playerId (snapshot σ r)) as Hid.
  assert (Hseats : p_seat <$> snap_players (after_leave playerId (snapshot σ r))
                   = p_seat <$> filter (λ p, p_id p ≠ playerId) (snap_players (snapshot σ r))).
  { apply (f_equal (fmap (λ t : string * jsval * nat, t.2))) in Hid.
    by rewrite <- !list_fmap_compose in Hid. }
  assert (Hperm : p_seat <$> snap_players (snapshot σ r)
            ≡ₚ (p_seat <$> filter (λ p, p_id p = playerId) (snap_players (snapshot σ r)))
               ++ (p_seat <$> snap_players (after_leave playerId (snapshot σ r)))).
  { rewrite Hseats, <- fmap_app. apply fmap_Permutation. symmetry.
    apply (filter_app_complement (λ p, p_id p = playerId)). }
  split_and!; [done|done|].
  intros leaver Hone. by rewrite Hone in Hperm.
Qed.

Lemma departure_keeps_seats_witness :
  p_seat <$> snap_players (snapshot (on_leaveRoom (sock "B") "R" four_waiting).1 0)
  = [0; 2; 3].
Proof.
  destruct (departure_keeps_seats four_waiting
              (on_leaveRoom (sock "B") "R" four_waiting).1 "R" "B" 0)
    as (Hid & _).
  - apply state_after_reachable. by vm_compute.
  - by vm_compute.
  - by apply departure_message.
  - apply (f_equal (fmap (λ t : string * jsval * nat, t.2))) in Hid.
    rewrite <- !list_fmap_compose in Hid.
    etrans; [exact Hid|]. by vm_compute.
Defined.

(** ** The delayed relay of [playerAction] *)

(** C10, as stated, fails: the timer of a player who has left still sends
    [gameStateSync], and the player who is left in the room receives it. *)
Lemma delayed_sync_after_leave_is_delivered :
  reachable actor_left ∧
  timers actor_left = [mkTimer 100 "B" "R" 0 1] ∧
  rooms actor_left !! "R" = Some 0 ∧
  Forall (λ p, p_id p ≠ "B") (snap_players (snapshot actor_left 0)) ∧
  handle (Timeout 0) actor_left
  = Some (set_timers [] actor_left,
          [(ToRoomExcept "R" "B", gameStateSync (JNum 1) 1 false)]) ∧
  recipients (set_timers [] actor_left) (ToRoomExcept "R" "B") = {["A"]}.
Proof.
  split; [apply state_after_reachable; by vm_compute|].
  split; [by vm_compute|]. split; [by vm_compute|].
  split; [vm_compute; repeat constructor; discriminate|].
  split; by vm_compute.
Qed.

Lemma reachable_timers σ t :
  reachable σ → t ∈ timers σ →
  t_room t < length (roomObjs σ) ∧ t_player t < length (playerObjs σ)
  ∧ t_delay t = 100.
Proof.
  intros Hreach Hin. apply reachable_inv in Hreach as [Hwf _ _].
  destruct (wf_timers_alloc σ Hwf t Hin).
  pose proof (wf_timers_delay σ Hwf t Hin). done.
Qed.

(** C10, amended. A [playerAction] for an id that is not registered, or of
    a connection that is not a player of the room, does nothing. A
    [playerAction] of a player of the room first logs the name of the
    player and the action; when one of the two cannot be converted to a
    string the handler raises there, and nothing is sent and no timer is
    added. Otherwise the action is broadcast to the group of the room at
    once; if the stored [gameState] is truthy at that moment, one timer
    with a delay of 100 is added, which closes over the connection, the
    room id, the room object and the player object, and if it is not, no
    timer is added. Every pending timer has that delay. A timer that fires
    never faults and checks nothing: it reads the two objects, which
    exist, sends [gameStateSync] with the [gameState] the room object then
    holds and the seat and host flag of the player object to the group of
    the room id without the sender, and changes nothing but the list of
    timers; so the players, other than the sender, of the room that is
    registered under the id when the timer fires receive it, also after
    the acting player has left, and also when that room is one that has
    been created under the id since. Nobody receives it when no room is
    registered under the id at that moment, in a run in which
    [generateRoomId] never draws the id of a registered room. *)
Theorem playerAction_delayed_sync (σ : Server) :
  reachable σ →
  (∀ socket roomId action params,
     rooms σ !! roomId = None →
     on_playerAction socket roomId action params σ = Returns (σ, [])) ∧
  (∀ socket roomId action params r,
     rooms σ !! roomId = Some r →
     find_player σ (getR σ r) (s_id socket) = None →
     on_playerAction socket roomId action params σ = Returns (σ, [])) ∧
  (∀ socket roomId action params r player,
     rooms σ !! roomId = Some r →
     find_player σ (getR σ r) (s_id socket) = Some player →
     printable (p_name (getP σ player)) && printable action = false →
     on_playerAction socket roomId action params σ = Throws (σ, [])) ∧
  (∀ socket roomId action params r player,
     rooms σ !! roomId = Some r →
     find_player σ (getR σ r) (s_id socket) = Some player →
     printable (p_name (getP σ player)) && printable action = true →
     on_playerAction socket roomId action params σ
     = Returns
         (set_timers
            (timers σ ++
               if truthy (snap_gameState (snapshot σ r))
               then [mkTimer 100 (s_id socket) roomId r player] else []) σ,
          [(ToRoom roomId,
            actionBroadcast action params (p_seat (getP σ player))
                            (p_name (getP σ player)) (p_isHost (getP σ player)))])) ∧
  (∀ i t,
     timers σ !! i = Some t →
     t_delay t = 100 ∧
     t_room t < length (roomObjs σ) ∧ t_player t < length (playerObjs σ) ∧
     handle (Timeout i) σ
     = Some (set_timers (delete i (timers σ)) σ,
             [(ToRoomExcept (t_roomId t) (t_socket t),
               gameStateSync (r_gameState (getR σ (t_room t)))
                             (p_seat (getP σ (t_player t)))
                             (p_isHost (getP σ (t_player t))))]) ∧
     (∀ r p, rooms σ !! t_roomId t = Some r → p ∈ snap_players (snapshot σ r) →
             p_id p ≠ t_socket t →
             p_id p ∈ recipients σ (ToRoomExcept (t_roomId t) (t_socket t))) ∧
     (reachable_fresh σ → rooms σ !! t_roomId t = None →
      recipients σ (ToRoomExcept (t_roomId t) (t_socket t)) = ∅)).
Proof.
  intros Hreach. pose proof (reachable_inv σ Hreach) as Hinv. split_and!.
  - intros socket roomId action params Hr. unfold on_playerAction. by rewrite Hr.
  - intros socket roomId action params r Hr Hfind.
    unfold on_playerAction. by rewrite Hr, Hfind.
  - intros socket roomId action params r player Hr Hfind Hlog.
    unfold on_playerAction. by rewrite Hr, Hfind, Hlog.
  - intros socket roomId action params r player Hr Hfind Hlog.
    unfold on_playerAction. rewrite Hr, Hfind, Hlog. simpl.
    destruct (truthy _); [done|].
    rewrite app_nil_r. by destruct σ.
  - intros i t Hi.
    assert (Hin : t ∈ timers σ) by by eapply list_elem_of_lookup_2.
    destruct (reachable_timers σ t Hreach Hin) as (Hroom & Hplayer & Hdelay).
    split_and!; [done|done|done| | |].
    + simpl. by rewrite Hi.
    + intros r p Hr Hp Hne. simpl. apply elem_of_difference. split; [|set_solver].
      by eapply (inv_subscribed σ Hinv).
    + intros Hfresh Hnone. simpl.
      destruct (reachable_fresh_inv σ Hfresh) as [Htight _].
      apply set_eq. intros id. split; [|by intros ?%elem_of_empty].
      intros [Hid _]%elem_of_difference.
      destruct (Htight _ _ Hid) as (r & _ & Hr & _). congruence.
Qed.

Lemma playerAction_delayed_sync_witness :
  timers (result
            (on_playerAction (sock "B") "R" (JStr "discard") JNull
               (state_after [create "A" "R"; join "B" "R"; update "A" "R" (JNum 1)]))).1
  = [mkTimer 100 "B" "R" 0 1] ∧
  handle (Timeout 0) (state_after everybody_left)
  = Some (set_timers [] (state_after everybody_left),
          [(ToRoomExcept "R" "B", gameStateSync (JNum 1) 1 false)]) ∧
  recipients (state_after everybody_left) (ToRoomExcept "R" "B") = ∅.
Proof.
  assert (Hfresh : reachable_fresh (state_after everybody_left)).
  { apply (run_fresh_reachable everybody_left init);
      [apply reachable_fresh_init|by vm_compute]. }
  destruct (playerAction_delayed_sync
              (state_after [create "A" "R"; join "B" "R"; update "A" "R" (JNum 1)]))
    as (_ & _ & _ & Hact & _); [apply state_after_reachable; by vm_compute|].
  destruct (playerAction_delayed_sync (state_after everybody_left))
    as (_ & _ & _ & _ & Hfire); [by apply reachable_fresh_reachable|].
  destruct (Hfire 0 (mkTimer 100 "B" "R" 0 1)) as (_ & _ & _ & Hrun & _ & Hsilent);
    [by vm_compute|].
  split_and!.
  - rewrite (Hact (sock "B") "R" (JStr "discard") JNull 0 1) by by vm_compute.
    by vm_compute.
  - etrans; [exact Hrun|]. by vm_compute.
  - apply Hsilent; [done|by vm_compute].
Defined.

(** The timer reads the player object when it fires, not when it was
    created: B acts as a guest, the host A leaves, B is promoted, and the
    relay of B's action then carries [isHost: true]. *)
Example delayed_sync_reads_current_flag :
  handle (Timeout 0)
    (state_after [create "A" "R"; join "B" "R"; update "A" "R" (JNum 1);
                  act "B" "R"; leave "A" "R"])
  = Some (set_timers []
            (state_after [create "A" "R"; join "B" "R"; update "A" "R" (JNum 1);
                          act "B" "R"; leave "A" "R"]),
          [(ToRoomExcept "R" "B", gameStateSync (JNum 1) 1 true)]).
Proof. by vm_compute. Qed.

(** The timer outlives the room: A acts and leaves, the room is deleted, C
    creates a room for which the same id is drawn, which is free by then,
    and the relay of A's action, with the [gameState] of the room that is
    gone, reaches C. *)
Example delayed_sync_reaches_new_room :
  let σ := state_after [create "A" "R"; update "A" "R" (JNum 1); act "A" "R";
                        leave "A" "R"; create "C" "R"] in
  reachable_fresh σ ∧
  timers σ = [mkTimer 100 "A" "R" 0 0] ∧
  snap_players (snapshot σ 0) = [] ∧
  rooms σ !! "R" = Some 1 ∧
  handle (Timeout 0) σ
  = Some (set_timers [] σ, [(ToRoomExcept "R" "A", gameStateSync (JNum 1) 0 true)]) ∧
  recipients (set_timers [] σ) (ToRoomExcept "R" "A") = {["C"]}.
Proof.
  intros σ. split.
  { apply (run_fresh_reachable
             [create "A" "R"; update "A" "R" (JNum 1); act "A" "R";
              leave "A" "R"; create "C" "R"] init);
      [apply reachable_fresh_init|by vm_compute]. }
  split; [by vm_compute|]. split; [by vm_compute|]. split; [by vm_compute|].
  split; by vm_compute.
Qed.

(** ** The other copy of the server (part_000)

    The second source file is the same server without [hostId] and
    [gameReady]. Its [leaveRoom] looks the leaving player up after the
    array has been filtered, so it never finds it and never transfers the
    host flag. *)

Example part_000_host_not_transferred :
  snap_players (snapshot (part_000.leaveRoom "R" "A" two_waiting) 0)
  = [mkPlayer "B" (JStr "玩家2") false 1].
Proof. by vm_compute. Qed.

Lemma find_all_false {A} (q : A → bool) (l : list A) :
  (∀ x, x ∈ l → q x = false) → find q l = None.
Proof.
  induction l as [|x l IH]; intros Hall; [done|]. simpl.
  rewrite Hall by left. apply IH. intros y Hy. apply Hall. by right.
Qed.

Lemma part_000_never_promotes σ roomId playerId l :
  getP (part_000.leaveRoom roomId playerId σ) l = getP σ l.
Proof.
  unfold part_000.leaveRoom. destruct (rooms σ !! roomId) as [r|]; [|done].
  case_bool_decide; [done|].
  destruct (decide (r < length (roomObjs σ))) as [Hlt|Hge].
  - rewrite getR_setR_eq by done. unfold find_player. simpl.
    assert (Hnone : find
                (λ l0, bool_decide (p_id (getP σ l0) = playerId))
                (filter (λ l0, p_id (getP σ l0) ≠ playerId) (r_players (getR σ r)))
              = None).
    { apply find_all_false. intros l0 [Hne _]%list_elem_of_filter.
      by apply bool_decide_eq_false. }
    assert (∀ room, find (λ l0, bool_decide (p_id (getP (setR r room σ) l0) = playerId))
              (filter (λ l0, p_id (getP σ l0) ≠ playerId) (r_players (getR σ r)))
            = find (λ l0, bool_decide (p_id (getP σ l0) = playerId))
                (filter (λ l0, p_id (getP σ l0) ≠ playerId) (r_players (getR σ r))))
      as -> by done.
    by rewrite Hnone.
  - unfold setR at 1 2 3. rewrite list_insert_ge by lia.
    assert (Hempty : r_players (getR σ r) = []).
    { unfold getR. rewrite list_lookup_total_alt. by rewrite lookup_ge_None_2 by lia. }
    rewrite Hempty in *. done.
Qed.

(** * Further properties of the handlers *)

(** ** How an event changes a room object *)

Lemma registered_dec (σ : Server) (r : loc) :
  (∃ roomId, rooms σ !! roomId = Some r) ∨ (∀ roomId, rooms σ !! roomId ≠ Some r).
Proof.
  destruct (decide (r ∈ (map_to_list (rooms σ)).*2)) as [Hin|Hnot].
  - left. apply list_elem_of_fmap in Hin as ([roomId r'] & -> & Hin).
    exists roomId. by apply elem_of_map_to_list.
  - right. intros roomId Hr. apply Hnot. apply list_elem_of_fmap.
    exists (roomId, r). split; [done|]. by apply elem_of_map_to_list.
Qed.

Lemma leaveRoom_room_step σ roomId playerId r :
  wf σ → room_step (snapshot σ r) (snapshot (leaveRoom roomId playerId σ) r).
Proof.
  intros Hwf. destruct (rooms σ !! roomId) as [r0|] eqn:Hr0.
  - destruct (decide (r = r0)) as [->|Hne].
    + rewrite (leaveRoom_snapshot σ roomId) by done. constructor.
    + rewrite (leaveRoom_frame σ roomId playerId r0) by done. constructor.
  - rewrite leaveRoom_absent by done. constructor.
Qed.

Lemma setR_room_step σ r0 room' s' r :
  r0 < length (roomObjs σ) →
  r_players room' = r_players (getR σ r0) →
  snapshot (setR r0 room' σ) r0 = s' → room_step (snapshot σ r0) s' →
  room_step (snapshot σ r) (snapshot (setR r0 room' σ) r).
Proof.
  intros Hlt Hps Hsnap Hstep. destruct (decide (r0 = r)) as [<-|Hne].
  - by rewrite Hsnap.
  - rewrite snapshot_setR_ne by done. constructor.
Qed.

(** What one turn of the event loop does to a room object. *)
Lemma handle_room_step e σ σ' out r :
  inv σ → r < length (roomObjs σ) → handle e σ = Some (σ', out) →
  room_step (snapshot σ r) (snapshot σ' r).
Proof.
  intros Hinv Halloc. pose proof (inv_wf σ Hinv) as Hwf. destruct e as [socket m|i]; simpl.
  - destruct m as [generated settings callback|[d|] callback|roomId|roomId
                   |roomId callback|[d|]|[d|]|[d|]|roomId callback|];
      simpl; try done.
    + rewrite on_createRoom_cases.
      destruct (is_null settings); [done|]. cbv zeta.
      intros [-> _]%completed_reply_last.
      change (snapshot (socket_join socket generated
                          (created_state generated (s_id socket) settings σ)) r)
        with (snapshot (created_state generated (s_id socket) settings σ) r).
      rewrite create_frame by done. constructor.
    + state_of_result. rewrite on_joinRoom_state.
      pose proof (joinRoom_cases σ (jd_roomId d) (s_id socket) (jd_playerName d)) as Hj.
      destruct (rooms σ !! jd_roomId d) as [r0|] eqn:Hr0; [|rewrite Hj; constructor].
      simpl in Hj. destruct (decide (4 ≤ _)) as [|Hlen]; [rewrite Hj; constructor|].
      destruct (decide (_ = waiting)) as [Hst|]; [|rewrite Hj; constructor].
      rewrite Hj. cbv beta iota zeta. cbn [fst].
      change (snapshot (socket_join socket (jd_roomId d)
                (joined_state r0 (s_id socket) (jd_playerName d) σ)) r)
        with (snapshot (joined_state r0 (s_id socket) (jd_playerName d) σ) r).
      destruct (decide (r = r0)) as [->|Hne].
      * erewrite join_snapshot by done. constructor; [|done].
        simpl. unfold players_of. rewrite length_fmap. lia.
      * erewrite join_frame by done. constructor.
    + state_of_result. unfold on_leaveRoom. cbn [fst].
      change (snapshot (socket_leave socket roomId (leaveRoom roomId (s_id socket) σ)) r)
        with (snapshot (leaveRoom roomId (s_id socket) σ) r).
      by apply leaveRoom_room_step.
    + state_of_result.
      pose proof (on_startGame_cases socket roomId σ) as Hc. simpl in Hc.
      destruct (rooms σ !! roomId) as [r0|] eqn:Hr0; [|rewrite Hc; constructor].
      destruct (decide (_ < 2)) as [|Hlen]; [rewrite Hc; constructor|].
      destruct (was_host _ _); [|rewrite Hc; constructor].
      assert (Hlt : r0 < length (roomObjs σ)) by by eapply wf_rooms_alloc.
      rewrite Hc by done. cbn [fst]. unfold started_state.
      eapply setR_room_step; [done|done|by apply snapshot_setR_eq|].
      apply (step_start (snapshot σ r0)).
      simpl. unfold players_of. rewrite length_fmap. lia.
    + state_of_result. rewrite on_getRoomState_state. constructor.
    + state_of_result. unfold on_gameReady.
      destruct (rooms σ !! _) as [r0|] eqn:Hr0; [|constructor].
      case_bool_decide; [constructor|]. cbn [fst].
      assert (Hlt : r0 < length (roomObjs σ)) by by eapply wf_rooms_alloc.
      eapply setR_room_step; [done|done|by apply snapshot_setR_eq|].
      apply (step_ready (snapshot σ r0)).
    + state_of_result. unfold on_gameStateUpdate.
      destruct (rooms σ !! _) as [r0|] eqn:Hr0; [|constructor].
      destruct (find_player _ _ _); [|constructor]. cbn [fst].
      assert (Hlt : r0 < length (roomObjs σ)) by by eapply wf_rooms_alloc.
      eapply setR_room_step; [done|done|by apply snapshot_setR_eq|].
      apply (step_store (snapshot σ r0)).
    + state_of_result.
      destruct (on_playerAction_state socket (ad_roomId d) (ad_action d) (ad_params d) σ)
        as [->|(r0 & player & _ & _ & ->)]; constructor.
    + state_of_result. rewrite on_requestTurnInfo_state. constructor.
    + state_of_result.
      destruct (registered_dec σ r) as [[roomId Hr]|Hnot].
      * rewrite (on_disconnect_snapshot socket σ Hinv roomId) by done. constructor.
      * rewrite on_disconnect_frame by done. constructor.
  - destruct (timers σ !! i); intros [= <- _]; constructor.
Qed.

(** An id is registered after a turn with the room object it had, or with
    the object that [createRoom] has just made. *)
Lemma handle_registry e σ σ' out roomId r :
  inv σ → handle e σ = Some (σ', out) → rooms σ' !! roomId = Some r →
  rooms σ !! roomId = Some r ∨
  (length (roomObjs σ) ≤ r ∧ ∃ hostId settings, snapshot σ' r = created_room hostId settings).
Proof.
  intros Hinv. pose proof (inv_wf σ Hinv) as Hwf. destruct e as [socket m|i]; simpl.
  - destruct m as [generated settings callback|[d|] callback|roomId0|roomId0
                   |roomId0 callback|[d|]|[d|]|[d|]|roomId0 callback|];
      simpl; try done.
    + rewrite on_createRoom_cases.
      destruct (is_null settings); [done|]. cbv zeta.
      intros [-> _]%completed_reply_last.
      change (rooms (socket_join socket generated
                       (created_state generated (s_id socket) settings σ)))
        with (<[generated := length (roomObjs σ)]> (rooms σ)).
      intros [[<- <-]|[_ Hr]]%lookup_insert_Some; [right|by left].
      split; [done|]. exists (s_id socket), settings.
      change (snapshot (socket_join socket generated
                          (created_state generated (s_id socket) settings σ)))
        with (snapshot (created_state generated (s_id socket) settings σ)).
      apply create_snapshot.
    + state_of_result. rewrite on_joinRoom_state.
      pose proof (joinRoom_cases σ (jd_roomId d) (s_id socket) (jd_playerName d)) as Hj.
      destruct (rooms σ !! jd_roomId d) as [r0|] eqn:Hr0; [|rewrite Hj; by left].
      simpl in Hj. destruct (decide (4 ≤ _)) as [|Hlen]; [rewrite Hj; by left|].
      destruct (decide (_ = waiting)) as [Hst|]; [|rewrite Hj; by left].
      rewrite Hj. by left.
    + state_of_result. unfold on_leaveRoom. cbn [fst].
      change (rooms (socket_leave socket roomId0 (leaveRoom roomId0 (s_id socket) σ)))
        with (rooms (leaveRoom roomId0 (s_id socket) σ)).
      intros ?%leaveRoom_lookup_Some. by left.
    + state_of_result.
      pose proof (on_startGame_cases socket roomId0 σ) as Hc. simpl in Hc.
      destruct (rooms σ !! roomId0) as [r0|] eqn:Hr0; [|rewrite Hc; by left].
      destruct (decide (_ < 2)) as [|Hlen]; [rewrite Hc; by left|].
      destruct (was_host _ _); [|rewrite Hc; by left].
      rewrite Hc by by eapply wf_rooms_alloc. by left.
    + state_of_result. rewrite on_getRoomState_state. by left.
    + state_of_result. unfold on_gameReady.
      destruct (rooms σ !! _) as [r0|] eqn:Hr0; [|by left].
      case_bool_decide; by left.
    + state_of_result. unfold on_gameStateUpdate.
      destruct (rooms σ !! _) as [r0|] eqn:Hr0; [|by left].
      destruct (find_player _ _ _); by left.
    + state_of_result.
      destruct (on_playerAction_state socket (ad_roomId d) (ad_action d) (ad_params d) σ)
        as [->|(r0 & player & _ & _ & ->)]; by left.
    + state_of_result. rewrite on_requestTurnInfo_state. by left.
    + state_of_result. rewrite on_disconnect_rooms by done.
      destruct (rooms σ !! roomId) as [r'|]; [|done].
      case_decide; [done|]. by left.
  - destruct (timers σ !! i); intros [= <- _]; by left.
Qed.

(** Objects are never freed. *)
Lemma leaveRoom_alloc σ roomId playerId :
  length (roomObjs (leaveRoom roomId playerId σ)) = length (roomObjs σ).
Proof.
  unfold leaveRoom. destruct (rooms σ !! roomId); [|done].
  repeat (case_bool_decide || case_match); simpl; by rewrite ?length_insert.
Qed.

Lemma leave_all_alloc playerId roomIds σ :
  length (roomObjs (leave_all playerId roomIds σ)) = length (roomObjs σ).
Proof.
  revert σ. induction roomIds as [|k ks IH]; intros σ; [done|].
  simpl. by rewrite IH, leaveRoom_alloc.
Qed.

Lemma handle_alloc e σ σ' out :
  inv σ → handle e σ = Some (σ', out) → length (roomObjs σ) ≤ length (roomObjs σ').
Proof.
  intros Hinv. destruct e as [socket m|i]; simpl.
  - destruct m as [generated settings callback|[d|] callback|roomId|roomId
                   |roomId callback|[d|]|[d|]|[d|]|roomId callback|];
      simpl; try done.
    + rewrite on_createRoom_cases.
      destruct (is_null settings); [done|]. cbv zeta.
      intros [-> _]%completed_reply_last.
      simpl. rewrite length_app. lia.
    + state_of_result. rewrite on_joinRoom_state.
      pose proof (joinRoom_cases σ (jd_roomId d) (s_id socket) (jd_playerName d)) as Hj.
      destruct (rooms σ !! jd_roomId d) as [r0|] eqn:Hr0; [|by rewrite Hj].
      simpl in Hj. destruct (decide (4 ≤ _)) as [|Hlen]; [by rewrite Hj|].
      destruct (decide (_ = waiting)) as [Hst|]; [|by rewrite Hj].
      rewrite Hj. simpl. by rewrite length_insert.
    + state_of_result. unfold on_leaveRoom. cbn [fst].
      change (roomObjs (socket_leave socket roomId (leaveRoom roomId (s_id socket) σ)))
        with (roomObjs (leaveRoom roomId (s_id socket) σ)).
      by rewrite leaveRoom_alloc.
    + state_of_result.
      pose proof (on_startGame_cases socket roomId σ) as Hc. simpl in Hc.
      destruct (rooms σ !! roomId) as [r0|] eqn:Hr0; [|by rewrite Hc].
      destruct (decide (_ < 2)) as [|Hlen]; [by rewrite Hc|].
      destruct (was_host _ _); [|by rewrite Hc].
      rewrite Hc by (eapply wf_rooms_alloc; [apply Hinv|done]).
      simpl. by rewrite length_insert.
    + state_of_result. by rewrite on_getRoomState_state.
    + state_of_result. unfold on_gameReady.
      destruct (rooms σ !! _) as [r0|] eqn:Hr0; [|done].
      case_bool_decide; [done|]. simpl. by rewrite length_insert.
    + state_of_result. unfold on_gameStateUpdate.
      destruct (rooms σ !! _) as [r0|] eqn:Hr0; [|done].
      destruct (find_player _ _ _); [|done]. simpl. by rewrite length_insert.
    + state_of_result.
      by destruct (on_playerAction_state socket (ad_roomId d) (ad_action d)
                     (ad_params d) σ) as [->|(r0 & player & _ & _ & ->)].
    + state_of_result. by rewrite on_requestTurnInfo_state.
    + state_of_result. rewrite on_disconnect_state by done.
      by rewrite leave_all_alloc.
  - by destruct (timers σ !! i); intros [= <- _].
Qed.

(** A run changes a room object that exists step by step. *)
Lemma run_room_steps es σ σ' out r :
  reachable σ → r < length (roomObjs σ) → run es σ = Some (σ', out) →
  rtc room_step (snapshot σ r) (snapshot σ' r).
Proof.
  revert σ out. induction es as [|e es IH]; intros σ out Hreach Halloc; simpl.
  - intros [= <- _]. constructor.
  - destruct (handle e σ) as [[σ1 out1]|] eqn:He; simpl; [|done].
    destruct (run es σ1) as [[σ2 out2]|] eqn:Hrun; simpl; [|done].
    intros [= <- _]. pose proof (reachable_inv σ Hreach) as Hinv.
    eapply rtc_l; [by eapply handle_room_step|].
    eapply IH; [by eapply reachable_step| |done].
    pose proof (handle_alloc e σ σ1 out1 Hinv He). lia.
Qed.

(** ** Size of a room and range of the seats *)

Lemma sublist_lookup {A} (l1 l2 : list A) i x :
  l1 `sublist_of` l2 → l1 !! i = Some x → ∃ j, i ≤ j ∧ l2 !! j = Some x.
Proof.
  intros Hsub. revert i.
  induction Hsub as [|y l1 l2 Hsub IH|y l1 l2 Hsub IH]; intros i Hi.
  - done.
  - destruct i as [|i]; simpl in Hi.
    + exists 0. split; [lia|done].
    + destruct (IH i Hi) as (j & Hle & Hj). exists (S j). split; [lia|done].
  - destruct (IH i Hi) as (j & Hle & Hj). exists (S j). split; [lia|done].
Qed.

Lemma seats_promote ps : p_seat <$> promote ps = p_seat <$> ps.
Proof. by destruct ps. Qed.

Lemma room_step_bounds s s' :
  room_step s s' →
  length (snap_players s) ≤ 4 ∧ seat_bounds (p_seat <$> snap_players s) →
  length (snap_players s') ≤ 4 ∧ seat_bounds (p_seat <$> snap_players s').
Proof.
  intros Hstep [Hlen Hseats].
  destruct Hstep as [s|s playerId playerName Hlt Hst|s playerId|s Hge|s|s g]; try done.
  - simpl. rewrite length_app. simpl. split; [lia|].
    rewrite fmap_app. intros i seat Hi.
    apply lookup_app_Some in Hi as [Hi|[Hge Hi]]; [by apply Hseats|].
    rewrite length_fmap in Hge, Hi. simpl in Hi.
    apply list_lookup_singleton_Some in Hi as [Hi <-]. lia.
  - assert (Hsub : p_seat <$> snap_players (after_leave playerId s)
                     `sublist_of` p_seat <$> snap_players s).
    { unfold after_leave; simpl.
      destruct (was_host _ _); rewrite ?seats_promote; apply fmap_sublist, sublist_filter. }
    split.
    + apply sublist_length in Hsub. rewrite !length_fmap in Hsub. lia.
    + intros i seat Hi. destruct (sublist_lookup _ _ _ _ Hsub Hi) as (j & Hle & Hj).
      apply Hseats in Hj. lia.
Qed.

Lemma reachable_bounds σ roomId r :
  reachable σ → rooms σ !! roomId = Some r →
  length (snap_players (snapshot σ r)) ≤ 4
  ∧ seat_bounds (p_seat <$> snap_players (snapshot σ r)).
Proof.
  intros Hreach. revert roomId r.
  induction Hreach as [|σ e σ' out Hreach IH Hstep]; intros roomId r Hr; [done|].
  pose proof (reachable_inv σ Hreach) as Hinv.
  destruct (handle_registry e σ σ' out roomId r Hinv Hstep Hr)
    as [Hold|(_ & hostId & settings & ->)].
  - eapply room_step_bounds; [|by eapply IH].
    eapply handle_room_step; [done| |done].
    eapply wf_rooms_alloc; [apply Hinv|done].
  - simpl. split; [lia|]. intros [|i] seat; simpl; [|done].
    intros [= <-]. lia.
Qed.

(** X1. A registered room has between one and four players, and the seat
    of the player at index [i] of the array is at least [i] and at most 3:
    [joinRoom] hands out [players.length] only while it is below four, and
    [leaveRoom] only takes players out of the array. *)
Theorem room_size_and_seats σ roomId r :
  reachable σ → rooms σ !! roomId = Some r →
  1 ≤ length (players_of σ (getR σ r)) ≤ 4
  ∧ seat_bounds (p_seat <$> players_of σ (getR σ r)).
Proof.
  intros Hreach Hr.
  destruct (reachable_bounds σ roomId r Hreach Hr) as [Hlen Hseats].
  split; [|done]. split; [|done].
  pose proof (inv_hosts σ (reachable_inv σ Hreach) roomId r Hr) as Hhost.
  apply host_first_nonempty in Hhost. simpl in Hhost.
  destruct (players_of σ (getR σ r)); [done|simpl; lia].
Qed.

Lemma room_size_and_seats_witness :
  1 ≤ length (players_of seats_out_of_order (getR seats_out_of_order 0)) ≤ 4
  ∧ seat_bounds (p_seat <$> players_of seats_out_of_order (getR seats_out_of_order 0)).
Proof.
  apply (room_size_and_seats seats_out_of_order "R" 0).
  - apply state_after_reachable. by vm_compute.
  - by vm_compute.
Defined.

(** ** What never changes *)

Lemma room_step_settings s s' : room_step s s' → snap_settings s' = snap_settings s.
Proof. by destruct 1. Qed.

(** X2. The settings of a room object are those it was created with: no
    handler and no timer writes [room.settings]. *)
Theorem settings_never_change es σ σ' out r :
  reachable σ → r < length (roomObjs σ) → run es σ = Some (σ', out) →
  r_settings (getR σ' r) = r_settings (getR σ r).
Proof.
  intros Hreach Halloc Hrun.
  change (snap_settings (snapshot σ' r) = snap_settings (snapshot σ r)).
  induction (run_room_steps es σ σ' out r Hreach Halloc Hrun) as [|s1 s2 s3 H12 _ IH];
    [done|].
  rewrite IH. by apply room_step_settings.
Qed.

Lemma settings_never_change_witness :
  r_settings (getR seats_out_of_order 0) = r_settings (getR alone 0).
Proof.
  apply (settings_never_change
           [join "B" "R"; join "C" "R"; join "D" "R";
            leave "B" "R"; leave "C" "R"; join "E" "R"] alone seats_out_of_order
           (from_option snd [] (run [join "B" "R"; join "C" "R"; join "D" "R";
                                     leave "B" "R"; leave "C" "R"; join "E" "R"] alone))).
  - apply state_after_reachable. by vm_compute.
  - vm_compute. lia.
  - by vm_compute.
Defined.

Lemma room_step_playing s s' :
  room_step s s' → snap_status s = playing →
  snap_status s' = playing
  ∧ identity <$> snap_players s' `sublist_of` identity <$> snap_players s.
Proof.
  intros Hstep Hplaying.
  destruct Hstep as [s|s playerId playerName Hlt Hst|s playerId|s Hge|s|s g]; try done.
  - congruence.
  - split; [done|]. rewrite after_leave_identity. apply fmap_sublist, sublist_filter.
Qed.

(** X3. A room whose game has started stays in status [playing], and from
    then on nobody enters it: the players it has later are, in the same
    order and with the same id, name and seat, among those it had. *)
Theorem playing_room_is_closed es σ σ' out r :
  reachable σ → run es σ = Some (σ', out) → r_status (getR σ r) = playing →
  r_status (getR σ' r) = playing
  ∧ identity <$> players_of σ' (getR σ' r)
      `sublist_of` identity <$> players_of σ (getR σ r).
Proof.
  intros Hreach Hrun Hplaying.
  assert (Halloc : r < length (roomObjs σ)).
  { destruct (decide (r < length (roomObjs σ))) as [|Hge]; [done|].
    unfold getR in Hplaying. rewrite list_lookup_total_alt in Hplaying.
    by rewrite lookup_ge_None_2 in Hplaying by lia. }
  change (snap_status (snapshot σ r) = playing) in Hplaying.
  change (snap_status (snapshot σ' r) = playing
          ∧ identity <$> snap_players (snapshot σ' r)
              `sublist_of` identity <$> snap_players (snapshot σ r)).
  induction (run_room_steps es σ σ' out r Hreach Halloc Hrun) as [|s1 s2 s3 H12 _ IH];
    [done|].
  destruct (room_step_playing s1 s2 H12 Hplaying) as [Hp2 Hsub12].
  destruct (IH Hp2) as [Hp3 Hsub23]. split; [done|]. by etrans.
Qed.

Lemma playing_room_is_closed_witness :
  r_status (getR (state_after [create "A" "R"; join "B" "R"; start "A" "R";
                               join "C" "R"; leave "A" "R"]) 0) = playing
  ∧ identity <$> players_of (state_after [create "A" "R"; join "B" "R"; start "A" "R";
                                          join "C" "R"; leave "A" "R"])
                   (getR (state_after [create "A" "R"; join "B" "R"; start "A" "R";
                                       join "C" "R"; leave "A" "R"]) 0)
      `sublist_of` identity <$> players_of two_playing (getR two_playing 0).
Proof.
  apply (playing_room_is_closed [join "C" "R"; leave "A" "R"] two_playing _
           (from_option snd [] (run [join "C" "R"; leave "A" "R"] two_playing))).
  - apply state_after_reachable. by vm_compute.
  - by vm_compute.
  - by vm_compute.
Defined.

(** ** Leaving a room *)

Lemma leaveRoom_removes σ roomId playerId r :
  wf σ → rooms (leaveRoom roomId playerId σ) !! roomId = Some r →
  rooms σ !! roomId = Some r
  ∧ snap_players (snapshot (leaveRoom roomId playerId σ) r) ≠ []
  ∧ Forall (λ p, p_id p ≠ playerId) (snap_players (snapshot (leaveRoom roomId playerId σ) r)).
Proof.
  intros Hwf Hr'. pose proof (leaveRoom_lookup_Some _ _ _ _ _ Hr') as Hr.
  split; [done|]. rewrite (leaveRoom_rooms σ roomId playerId r) in Hr' by done.
  rewrite (leaveRoom_snapshot σ roomId playerId r) by done.
  destruct (decide (filter _ _ = [])) as [|Hne].
  { by rewrite lookup_delete_eq in Hr'. }
  split.
  - by rewrite after_leave_empty.
  - apply Forall_forall. intros p Hp. by apply after_leave_ids in Hp as [? _].
Qed.

Lemma leaveRoom_twice σ roomId playerId :
  wf σ →
  leaveRoom roomId playerId (leaveRoom roomId playerId σ) = leaveRoom roomId playerId σ.
Proof.
  intros Hwf.
  destruct (rooms (leaveRoom roomId playerId σ) !! roomId) as [r|] eqn:Hr';
    [|by apply leaveRoom_absent].
  destruct (leaveRoom_removes σ roomId playerId r Hwf Hr') as (Hr & Hne & Hall).
  eapply leaveRoom_nonmember; [by apply leaveRoom_wf|done..].
Qed.

(** X4. After [leaveRoom] no player of the room carries the id that left,
    also when the connection had joined the room more than once; the room
    is registered afterwards only if somebody else remains, and a second
    [leaveRoom] for the same id changes nothing. *)
Theorem leaveRoom_removes_every_record σ roomId playerId :
  reachable σ →
  let σ' := leaveRoom roomId playerId σ in
  (∀ r, rooms σ' !! roomId = Some r →
        rooms σ !! roomId = Some r
        ∧ players_of σ' (getR σ' r) ≠ []
        ∧ Forall (λ p, p_id p ≠ playerId) (players_of σ' (getR σ' r)))
  ∧ leaveRoom roomId playerId σ' = σ'.
Proof.
  intros Hreach σ'. pose proof (inv_wf σ (reachable_inv σ Hreach)) as Hwf. split.
  - intros r Hr'. by apply leaveRoom_removes.
  - by apply leaveRoom_twice.
Qed.

(** B has joined the waiting room of A twice and leaves. *)
Lemma leaveRoom_removes_every_record_witness :
  let σ := state_after [create "A" "R"; join "B" "R"; join "B" "R"] in
  p_id <$> players_of σ (getR σ 0) = ["A"; "B"; "B"]
  ∧ p_id <$> players_of (leaveRoom "R" "B" σ) (getR (leaveRoom "R" "B" σ) 0) = ["A"]
  ∧ leaveRoom "R" "B" (leaveRoom "R" "B" σ) = leaveRoom "R" "B" σ.
Proof.
  intros σ. split; [by vm_compute|]. split; [by vm_compute|].
  apply (leaveRoom_removes_every_record σ "R" "B").
  apply state_after_reachable. by vm_compute.
Defined.

(** X5. The [leaveRoom] message: when the room is registered afterwards,
    exactly one [roomState] goes to its group, with the players that remain
    and the host after a transfer; the connection that left is not among
    the recipients and every remaining player is, and no other room object
    is touched. When the id is unknown or the last player has left, nothing
    is sent. *)
Theorem leaveRoom_message socket roomId σ :
  reachable σ →
  let σ' := (on_leaveRoom socket roomId σ).1 in
  let out := (on_leaveRoom socket roomId σ).2 in
  match rooms σ' !! roomId with
  | None =>
      out = [] ∧
      (∀ r, rooms σ !! roomId = Some r →
            Forall (λ p, p_id p = s_id socket) (players_of σ (getR σ r)))
  | Some r =>
      let s := after_leave (s_id socket) (snapshot σ r) in
      rooms σ !! roomId = Some r ∧
      snapshot σ' r = s ∧
      out = [(ToRoom roomId,
              roomState (snap_players s) (snap_status s) (snap_settings s)
                        (snap_hostId s) (snap_gameReady s))] ∧
      (s_id socket ∉ recipients σ' (ToRoom roomId)) ∧
      (∀ p, p ∈ snap_players s → p_id p ∈ recipients σ' (ToRoom roomId)) ∧
      (∀ r', r' ≠ r → snapshot σ' r' = snapshot σ r')
  end.
Proof.
  intros Hreach. pose proof (reachable_inv σ Hreach) as [Hwf Hh Hs].
  unfold on_leaveRoom. cbn [fst snd]. cbv zeta.
  set (σ1 := leaveRoom roomId (s_id socket) σ).
  change (rooms (socket_leave socket roomId σ1)) with (rooms σ1).
  unfold broadcastRoomState.
  change (rooms (socket_leave socket roomId σ1)) with (rooms σ1).
  destruct (rooms σ1 !! roomId) as [r|] eqn:Hr'.
  - pose proof (leaveRoom_lookup_Some _ _ _ _ _ Hr') as Hr.
    assert (Hsnap : snapshot σ1 r = after_leave (s_id socket) (snapshot σ r))
      by by apply leaveRoom_snapshot.
    change (snapshot (socket_leave socket roomId σ1) r) with (snapshot σ1 r).
    split_and!; [done|done| | | |intros r' Hne; by eapply leaveRoom_frame].
    + change (getR (socket_leave socket roomId σ1) r) with (getR σ1 r).
      change (players_of (socket_leave socket roomId σ1) (getR σ1 r))
        with (snap_players (snapshot σ1 r)).
      change (r_status (getR σ1 r)) with (snap_status (snapshot σ1 r)).
      change (r_settings (getR σ1 r)) with (snap_settings (snapshot σ1 r)).
      change (r_hostId (getR σ1 r)) with (snap_hostId (snapshot σ1 r)).
      change (r_gameReady (getR σ1 r)) with (snap_gameReady (snapshot σ1 r)).
      by rewrite Hsnap.
    + simpl. rewrite group_socket_leave, decide_True by done.
      intros [_ Hn]%elem_of_difference. apply Hn. by apply elem_of_singleton.
    + intros p Hp. simpl. rewrite group_socket_leave, decide_True by done.
      apply after_leave_ids in Hp as (Hne & q & Hq & Heq).
      apply elem_of_difference. split.
      * unfold group. subst σ1. rewrite leaveRoom_groups. rewrite <- Heq.
        by apply (Hs roomId r q).
      * by intros ?%elem_of_singleton.
  - split; [done|]. intros r Hr. subst σ1.
    rewrite (leaveRoom_rooms σ roomId (s_id socket) r) in Hr' by done.
    destruct (decide (filter _ _ = [])) as [Hnil|]; [|congruence].
    apply Forall_forall. intros p Hp.
    destruct (decide (p_id p = s_id socket)) as [|Hne]; [done|].
    assert (p ∈ filter (λ p, p_id p ≠ s_id socket) (snap_players (snapshot σ r)))
      as Hin by by apply list_elem_of_filter.
    rewrite Hnil in Hin. by apply elem_of_nil in Hin.
Qed.

(** B leaves the waiting room of A and B. *)
Lemma leaveRoom_message_witness :
  (on_leaveRoom (sock "B") "R" two_waiting).2
  = [(ToRoom "R",
      roomState [mkPlayer "A" (JStr "玩家1") true 0] waiting
                (make_settings ∅) "A" false)]
  ∧ "B" ∉ recipients (on_leaveRoom (sock "B") "R" two_waiting).1 (ToRoom "R").
Proof.
  pose proof (leaveRoom_message (sock "B") "R" two_waiting) as H.
  cbv zeta in H.
  assert (Hr : rooms (on_leaveRoom (sock "B") "R" two_waiting).1 !! "R" = Some (0 : loc))
    by by vm_compute.
  rewrite Hr in H.
  destruct H as (_ & _ & Hout & Hnot & _); [apply state_after_reachable; by vm_compute|].
  split; [|done]. rewrite Hout. by vm_compute.
Defined.

(** ** Joining a room *)

(** X6. The [joinRoom] message for a waiting room with fewer than four
    players: the connection gets the seat [players.length] whether or not
    it is in the room already, its new player object is appended, it is
    put into the group of the room, it is sent [roomJoined], and the room
    gets [roomState] with the new array, which every player, the new one
    included, receives. The handler then ends with
    [if (callback) callback(result)]: the acknowledgement function is
    given the room, the seat and the player; a falsy value is skipped; any
    other value is called and raises a TypeError, after the join and the
    two messages. Nothing else changes. *)
Theorem joinRoom_message socket roomId playerName callback σ r :
  reachable σ → rooms σ !! roomId = Some r →
  length (r_players (getR σ r)) < 4 → r_status (getR σ r) = waiting →
  let σ' := (result (on_joinRoom socket roomId playerName callback σ)).1 in
  let seat := length (r_players (getR σ r)) in
  let player := joined_player (s_id socket) playerName seat in
  let s := after_join (s_id socket) playerName (snapshot σ r) in
  let sent :=
    [(ToSocket (s_id socket), roomJoined roomId seat false player);
     (ToRoom roomId,
      roomState (snap_players s) waiting (snap_settings s)
                (snap_hostId s) (snap_gameReady s))] in
  on_joinRoom socket roomId playerName callback σ =
    match callback with
    | CallbackFunction =>
        Returns (σ', sent ++ [(Callback (s_id socket), ack_joined s seat player)])
    | CallbackValue v => if truthy v then Throws (σ', sent) else Returns (σ', sent)
    end ∧
  rooms σ' = rooms σ ∧
  snapshot σ' r = s ∧
  (∀ r', r' ≠ r → snapshot σ' r' = snapshot σ r') ∧
  (∀ roomId', group σ' roomId' =
     if decide (roomId' = roomId) then {[s_id socket]} ∪ group σ roomId
     else group σ roomId') ∧
  timers σ' = timers σ ∧
  (∀ p, p ∈ snap_players s → p_id p ∈ recipients σ' (ToRoom roomId)).
Proof.
  intros Hreach Hr Hlen Hst. pose proof (reachable_inv σ Hreach) as [Hwf Hh Hs].
  pose proof (joinRoom_cases σ roomId (s_id socket) playerName) as Hj.
  rewrite Hr in Hj. simpl in Hj.
  rewrite decide_False in Hj by lia. rewrite decide_True in Hj by done.
  cbv zeta. rewrite on_joinRoom_state, Hj. cbv beta iota zeta.
  set (σ1 := joined_state r (s_id socket) playerName σ).
  assert (Hsnap : snapshot σ1 r = after_join (s_id socket) playerName (snapshot σ r))
    by by eapply join_snapshot.
  assert (Hnew : getP σ1 (length (playerObjs σ))
                 = joined_player (s_id socket) playerName (length (r_players (getR σ r))))
    by by eapply join_getP_new.
  change (snapshot (socket_join socket roomId σ1)) with (snapshot σ1).
  split_and!; try done.
  - unfold on_joinRoom. rewrite Hj. cbv beta iota zeta. fold σ1.
    change (snapshot (socket_join socket roomId σ1)) with (snapshot σ1).
    change (getP (socket_join socket roomId σ1)) with (getP σ1).
    unfold broadcastRoomState.
    change (rooms (socket_join socket roomId σ1)) with (rooms σ). rewrite Hr.
    change (getR (socket_join socket roomId σ1) r) with (getR σ1 r).
    change (players_of (socket_join socket roomId σ1) (getR σ1 r))
      with (snap_players (snapshot σ1 r)).
    change (r_status (getR σ1 r)) with (snap_status (snapshot σ1 r)).
    change (r_settings (getR σ1 r)) with (snap_settings (snapshot σ1 r)).
    change (r_hostId (getR σ1 r)) with (snap_hostId (snapshot σ1 r)).
    change (r_gameReady (getR σ1 r)) with (snap_gameReady (snapshot σ1 r)).
    rewrite Hsnap, Hnew. unfold reply_last, reply.
    destruct callback as [|v]; [|destruct (truthy v)]; simpl; rewrite Hst;
      by rewrite ?app_nil_r.
  - intros r' Hne. by eapply join_frame.
  - intros roomId'. by rewrite group_socket_join.
  - intros p Hp. simpl. rewrite group_socket_join, decide_True by done.
    simpl in Hp. apply elem_of_app in Hp as [Hp|Hp].
    + apply elem_of_union_r. by apply (Hs roomId r p).
    + apply list_elem_of_singleton in Hp as ->. apply elem_of_union_l.
      by apply elem_of_singleton.
Qed.

(** C joins the waiting room of A and B: with the acknowledgement
    function, and with the string [ack] in its place. *)
Lemma joinRoom_message_witness :
  let σ' := (result (on_joinRoom (sock "C") "R" (JStr "Chen") CallbackFunction
                       two_waiting)).1 in
  p_id <$> players_of σ' (getR σ' 0) = ["A"; "B"; "C"]
  ∧ (∃ sent, on_joinRoom (sock "C") "R" (JStr "Chen") CallbackFunction two_waiting
             = Returns (σ', sent))
  ∧ (∃ σ1 sent, on_joinRoom (sock "C") "R" (JStr "Chen") (CallbackValue (JStr "ack"))
                  two_waiting
                = Throws (σ1, sent)
                ∧ p_id <$> players_of σ1 (getR σ1 0) = ["A"; "B"; "C"]).
Proof.
  intros σ'. split; [by vm_compute|].
  assert (Hreach : reachable two_waiting)
    by (apply state_after_reachable; by vm_compute).
  split.
  - destruct (joinRoom_message (sock "C") "R" (JStr "Chen") CallbackFunction
                two_waiting 0 Hreach) as (Hout & _);
      [by vm_compute|vm_compute; lia|by vm_compute|].
    eexists. exact Hout.
  - destruct (joinRoom_message (sock "C") "R" (JStr "Chen") (CallbackValue (JStr "ack"))
                two_waiting 0 Hreach) as (Hout & _);
      [by vm_compute|vm_compute; lia|by vm_compute|].
    eexists _, _. split; [exact Hout|]. by vm_compute.
Defined.

(** ** The host announces that the game is ready *)

(** X7. [gameReady] for an id that is not registered, or from a connection
    whose id is not the [hostId] of the room, changes nothing and sends
    nothing. From the host it sets [gameReady] and nothing else, in a
    waiting room as in a playing one, and sends the stored game state,
    which may be [null], to the group of the room, which every player is
    in. *)
Theorem gameReady_outcomes socket roomId σ :
  reachable σ →
  (rooms σ !! roomId = None → on_gameReady socket roomId σ = (σ, [])) ∧
  (∀ r, rooms σ !! roomId = Some r → r_hostId (getR σ r) ≠ s_id socket →
        on_gameReady socket roomId σ = (σ, [])) ∧
  (∀ r, rooms σ !! roomId = Some r → r_hostId (getR σ r) = s_id socket →
        ∃ σ',
          on_gameReady socket roomId σ
          = (σ', [(ToRoom roomId, gameReadyNotify (r_gameState (getR σ r)))]) ∧
          snapshot σ' r = readied (snapshot σ r) ∧
          rooms σ' = rooms σ ∧ groups σ' = groups σ ∧ timers σ' = timers σ ∧
          (∀ r', r' ≠ r → snapshot σ' r' = snapshot σ r') ∧
          (∃ first rest, players_of σ (getR σ r) = first :: rest
                         ∧ p_id first = s_id socket) ∧
          (∀ p, p ∈ players_of σ (getR σ r) → p_id p ∈ recipients σ' (ToRoom roomId))).
Proof.
  intros Hreach. pose proof (reachable_inv σ Hreach) as [Hwf Hh Hs]. split_and!.
  - intros Hr. unfold on_gameReady. by rewrite Hr.
  - intros r Hr Hne. unfold on_gameReady. rewrite Hr.
    by rewrite bool_decide_eq_true_2.
  - intros r Hr Heq. unfold on_gameReady. rewrite Hr.
    rewrite bool_decide_eq_false_2 by (by intros ?).
    assert (Hlt : r < length (roomObjs σ)) by by eapply wf_rooms_alloc.
    eexists. split; [|split_and!].
    + f_equal. by rewrite getR_setR_eq.
    + by rewrite snapshot_setR_eq.
    + done.
    + done.
    + done.
    + intros r' Hne. by apply snapshot_setR_ne.
    + destruct (Hh roomId r Hr) as (first & rest & Hps & _ & Hid & _).
      exists first, rest. split; [done|]. simpl in Hid. congruence.
    + intros p Hp. by apply (Hs roomId r p).
Qed.

(** A, the host of a waiting room without a stored state, announces that
    the game is ready; B does the same and is ignored. *)
Lemma gameReady_outcomes_witness :
  on_gameReady (sock "B") "R" two_waiting = (two_waiting, [])
  ∧ (on_gameReady (sock "A") "R" two_waiting).2 = [(ToRoom "R", gameReadyNotify JNull)]
  ∧ r_gameReady (getR (on_gameReady (sock "A") "R" two_waiting).1 0) = true.
Proof.
  assert (Hreach : reachable two_waiting)
    by (apply state_after_reachable; by vm_compute).
  destruct (gameReady_outcomes (sock "B") "R" two_waiting Hreach) as (_ & Hother & _).
  destruct (gameReady_outcomes (sock "A") "R" two_waiting Hreach) as (_ & _ & Hhost).
  split; [apply (Hother 0); by vm_compute|].
  destruct (Hhost 0) as (σ' & -> & Hsnap & _); [by vm_compute..|].
  split; [by vm_compute|]. cbn [fst].
  change (snap_gameReady (snapshot σ' 0) = true). by rewrite Hsnap.
Defined.

(** ** The two tests for the host *)

(** X8. [startGame] takes the requester for the host when the first player
    object with its id has [isHost] set, [gameReady] when [room.hostId] is
    its id. For a registered room the two tests accept the same
    connections. *)
Theorem host_tests_agree σ roomId r id :
  reachable σ → rooms σ !! roomId = Some r →
  from_option (λ l, p_isHost (getP σ l)) false (find_player σ (getR σ r) id) = true
  ↔ r_hostId (getR σ r) = id.
Proof.
  intros Hreach Hr. pose proof (inv_hosts σ (reachable_inv σ Hreach) roomId r Hr) as Hhost.
  rewrite was_host_deref.
  change (players_of σ (getR σ r)) with (snap_players (snapshot σ r)).
  rewrite (was_host_hostId _ id Hhost). simpl. apply bool_decide_eq_true.
Qed.

(** In the room of [seats_out_of_order], whose first host has not left, A
    passes both tests and D passes neither. *)
Lemma host_tests_agree_witness :
  (from_option (λ l, p_isHost (getP seats_out_of_order l)) false
     (find_player seats_out_of_order (getR seats_out_of_order 0) "A") = true
   ↔ r_hostId (getR seats_out_of_order 0) = "A")
  ∧ (from_option (λ l, p_isHost (getP seats_out_of_order l)) false
       (find_player seats_out_of_order (getR seats_out_of_order 0) "D") = true
     ↔ r_hostId (getR seats_out_of_order 0) = "D").
Proof.
  split.
  - apply (host_tests_agree seats_out_of_order "R" 0 "A");
      [apply state_after_reachable; by vm_compute|by vm_compute].
  - apply (host_tests_agree seats_out_of_order "R" 0 "D");
      [apply state_after_reachable; by vm_compute|by vm_compute].
Defined.

(** ** Reading the stored game state *)

(** X9. What a member stores with [gameStateUpdate] is what
    [requestTurnInfo] and [getRoomState] read back, for any connection,
    member of the room or not: the answer of [requestTurnInfo] is the
    [turn] and [phase] of the stored value and the host of the room when
    the value is truthy and the error otherwise, the answer of
    [getRoomState] is the room as it is. Both handlers do nothing but
    [if (callback) callback(answer)]: the answer goes to the
    acknowledgement function, a falsy [callback] is skipped, and any other
    value is called and raises a TypeError; the state is unchanged in all
    three cases. *)
Theorem stored_state_read_back socket roomId gameState reader callback σ r l :
  reachable σ → rooms σ !! roomId = Some r →
  find_player σ (getR σ r) (s_id socket) = Some l →
  let σ' := (on_gameStateUpdate socket roomId gameState σ).1 in
  let turnInfo :=
    if truthy gameState
    then ack_turnInfo (field gameState "turn") (field gameState "phase")
                      (r_hostId (getR σ r))
    else ack_failed GameNotStarted in
  let room :=
    ack_roomState (stored gameState (snapshot σ r))
                  (r_hostId (getR σ r)) (r_gameReady (getR σ r)) in
  on_requestTurnInfo reader roomId callback σ'
  = match callback with
    | CallbackFunction => Returns (σ', [(Callback (s_id reader), turnInfo)])
    | CallbackValue v => if truthy v then Throws (σ', []) else Returns (σ', [])
    end
  ∧ on_getRoomState reader roomId callback σ'
    = match callback with
      | CallbackFunction => Returns (σ', [(Callback (s_id reader), room)])
      | CallbackValue v => if truthy v then Throws (σ', []) else Returns (σ', [])
      end.
Proof.
  intros Hreach Hr Hl σ'. pose proof (reachable_inv σ Hreach) as [Hwf Hh Hs].
  assert (Hlt : r < length (roomObjs σ)) by by eapply wf_rooms_alloc.
  assert (Hσ' : σ' = setR r (with_gameState gameState (getR σ r)) σ).
  { subst σ'. unfold on_gameStateUpdate. by rewrite Hr, Hl. }
  assert (Hget : getR σ' r = with_gameState gameState (getR σ r)).
  { rewrite Hσ'. by apply getR_setR_eq. }
  assert (Hrooms : rooms σ' !! roomId = Some r) by by rewrite Hσ'.
  cbv zeta. split.
  - unfold on_requestTurnInfo. rewrite Hrooms. cbv zeta. rewrite Hget.
    unfold reply_last, reply. simpl.
    by destruct (truthy gameState), callback as [|v]; try destruct (truthy v).
  - unfold on_getRoomState. rewrite Hrooms. cbv zeta. rewrite Hget.
    unfold reply_last, reply. simpl.
    destruct callback as [|v]; [|by destruct (truthy v)].
    do 5 f_equal. rewrite Hσ'. by rewrite snapshot_setR_eq.
Qed.

(** A stores a state in the room of A and B; C, who is in no room, asks for
    the turn, with the acknowledgement function and with the number 1 in
    its place. *)
Lemma stored_state_read_back_witness :
  let g := JObj (FCons "turn" (JNum 2) (FCons "phase" (JStr "discard") FNil)) in
  let σ' := (on_gameStateUpdate (sock "A") "R" g two_waiting).1 in
  on_requestTurnInfo (sock "C") "R" CallbackFunction σ'
  = Returns (σ', [(Callback "C", ack_turnInfo (JNum 2) (JStr "discard") "A")])
  ∧ on_requestTurnInfo (sock "C") "R" (CallbackValue (JNum 1)) σ' = Throws (σ', []).
Proof.
  intros g σ'.
  assert (Hreach : reachable two_waiting)
    by (apply state_after_reachable; by vm_compute).
  split.
  - destruct (stored_state_read_back (sock "A") "R" g (sock "C") CallbackFunction
                two_waiting 0 0 Hreach) as [Hturn _]; [by vm_compute|by vm_compute|].
    exact Hturn.
  - destruct (stored_state_read_back (sock "A") "R" g (sock "C")
                (CallbackValue (JNum 1)) two_waiting 0 0 Hreach) as [Hturn _];
      [by vm_compute|by vm_compute|].
    exact Hturn.
Defined.

(** ** A connection closes *)

Lemma filter_all_out (ps : list Player) id :
  filter (λ p, p_id p ≠ id) ps = [] → Forall (λ p, p_id p = id) ps.
Proof.
  intros Hnil. apply Forall_forall. intros p Hp.
  destruct (decide (p_id p = id)) as [|Hne]; [done|].
  assert (p ∈ filter (λ p, p_id p ≠ id) ps) as Hin by by apply list_elem_of_filter.
  rewrite Hnil in Hin. by apply elem_of_nil in Hin.
Qed.

Lemma existsb_nonmember (ps : list Player) id :
  Forall (λ p, p_id p ≠ id) ps → existsb (λ p, bool_decide (p_id p = id)) ps = false.
Proof.
  induction 1 as [|p ps Hp _ IH]; [done|]. simpl.
  by rewrite bool_decide_eq_false_2.
Qed.

Lemma existsb_is_member (ps : list Player) id p :
  p ∈ ps → p_id p = id → existsb (λ p, bool_decide (p_id p = id)) ps = true.
Proof.
  intros Hin Hid. apply existsb_exists. exists p. split.
  - by apply list_elem_of_In.
  - by apply bool_decide_eq_true.
Qed.

(** The loop passes over the rooms the connection is not in. *)
Lemma disconnect_loop_outsider socket (entries : list (string * loc)) σ out :
  (∀ roomId r, (roomId, r) ∈ entries →
     Forall (λ p, p_id p ≠ s_id socket) (players_of σ (getR σ r))) →
  foldl (disconnect_room socket) (σ, out) entries = (σ, out).
Proof.
  induction entries as [|[roomId r] entries IH]; intros Hall; [done|].
  cbn [foldl]. unfold disconnect_room at 2.
  rewrite existsb_nonmember by (apply (Hall roomId r); left).
  apply IH. intros roomId' r' Hin. apply (Hall roomId' r'). by right.
Qed.

(** X10. When a connection closes it is taken out of every group and out
    of every room: a room that stays registered has lost exactly the
    player objects with its id, a room is no longer registered only if all
    its players were this connection, the other connections stay in their
    groups, and no pending timer is cancelled. *)
Theorem disconnect_removes_connection socket σ :
  reachable σ →
  let σ' := (on_disconnect socket σ).1 in
  (∀ roomId id, id ∈ group σ' roomId ↔ id ∈ group σ roomId ∧ id ≠ s_id socket) ∧
  (∀ roomId r, rooms σ' !! roomId = Some r →
     rooms σ !! roomId = Some r ∧
     snapshot σ' r = after_leave (s_id socket) (snapshot σ r) ∧
     Forall (λ p, p_id p ≠ s_id socket) (players_of σ' (getR σ' r))) ∧
  (∀ roomId r, rooms σ !! roomId = Some r → rooms σ' !! roomId = None →
     Forall (λ p, p_id p = s_id socket) (players_of σ (getR σ r))) ∧
  timers σ' = timers σ.
Proof.
  intros Hreach σ'. pose proof (reachable_inv σ Hreach) as Hinv. subst σ'. split_and!.
  - intros roomId id. rewrite on_disconnect_group by done.
    rewrite elem_of_difference, elem_of_singleton. done.
  - intros roomId r Hr'. rewrite on_disconnect_rooms in Hr' by done.
    destruct (rooms σ !! roomId) as [r0|] eqn:Hr; [|done].
    destruct (decide (filter _ _ = [])); [done|]. injection Hr' as ->.
    split; [done|].
    assert (Hsnap : snapshot (on_disconnect socket σ).1 r
                    = after_leave (s_id socket) (snapshot σ r))
      by by apply (on_disconnect_snapshot socket σ Hinv roomId).
    split; [done|].
    change (players_of (on_disconnect socket σ).1 (getR (on_disconnect socket σ).1 r))
      with (snap_players (snapshot (on_disconnect socket σ).1 r)).
    rewrite Hsnap. apply Forall_forall. intros p Hp.
    by apply after_leave_ids in Hp as [? _].
  - intros roomId r Hr Hr'. rewrite on_disconnect_rooms, Hr in Hr' by done.
    destruct (decide (filter _ _ = [])) as [Hnil|]; [|done].
    by apply filter_all_out.
  - by apply on_disconnect_timers.
Qed.

(** B, who has acted in the room of A and B, closes the connection. *)
Lemma disconnect_removes_connection_witness :
  let σ := state_after [create "A" "R"; join "B" "R"; update "A" "R" (JNum 1);
                        act "B" "R"] in
  ("B" ∉ group (on_disconnect (sock "B") σ).1 "R")
  ∧ length (timers (on_disconnect (sock "B") σ).1) = 1.
Proof.
  intros σ.
  destruct (disconnect_removes_connection (sock "B") σ) as (Hgroup & _ & _ & Htimers).
  { apply state_after_reachable. by vm_compute. }
  split.
  - intros Hin. apply Hgroup in Hin as [_ Hne]. by apply Hne.
  - rewrite Htimers. by vm_compute.
Defined.

(** X11. When a connection that is a player of no registered room closes,
    the loop of the handler changes nothing and sends nothing: all that
    happens is that the connection leaves the groups. *)
Theorem disconnect_outsider socket σ :
  (∀ roomId r, rooms σ !! roomId = Some r →
     Forall (λ p, p_id p ≠ s_id socket) (players_of σ (getR σ r))) →
  on_disconnect socket σ = (socket_leaveAll socket σ, []).
Proof.
  intros Hall. unfold on_disconnect. apply disconnect_loop_outsider.
  intros roomId r Hin. apply elem_of_map_to_list in Hin. by apply (Hall roomId r).
Qed.

(** C, who is in no room, closes the connection while A and B wait. *)
Lemma disconnect_outsider_witness :
  on_disconnect (sock "C") two_waiting = (socket_leaveAll (sock "C") two_waiting, []).
Proof.
  apply (disconnect_outsider (sock "C") two_waiting).
  intros roomId r Hr. apply elem_of_map_to_list in Hr.
  assert (Hlist : map_to_list (rooms two_waiting) = [("R", 0 : loc)]) by by vm_compute.
  rewrite Hlist in Hr. apply list_elem_of_singleton in Hr as [= -> ->].
  vm_compute. repeat constructor; by intros [=].
Defined.

(** The loop of the disconnect handler when the connection is a player of
    one registered room only. *)
Lemma disconnect_loop_member socket (entries : list (string * loc)) σ roomId r :
  wf σ → NoDup entries.*1 →
  (∀ roomId' r', (roomId', r') ∈ entries → rooms σ !! roomId' = Some r') →
  (roomId, r) ∈ entries →
  (∃ p, p ∈ players_of σ (getR σ r) ∧ p_id p = s_id socket) →
  (∀ roomId' r', rooms σ !! roomId' = Some r' → roomId' ≠ roomId →
     Forall (λ p, p_id p ≠ s_id socket) (players_of σ (getR σ r'))) →
  foldl (disconnect_room socket) (σ, []) entries
  = disconnect_room socket (σ, []) (roomId, r).
Proof.
  intros Hwf Hnd Hreg Hin (p & Hp & Hid) Hothers.
  apply list_elem_of_split in Hin as (l1 & l2 & ->).
  rewrite fmap_app, fmap_cons in Hnd. simpl in Hnd.
  apply NoDup_app in Hnd as (_ & Hl1 & Hnd). apply NoDup_cons in Hnd as [Hl2 _].
  assert (Hr : rooms σ !! roomId = Some r).
  { apply Hreg. apply elem_of_app. right. left. }
  rewrite foldl_app. cbn [foldl].
  rewrite disconnect_loop_outsider.
  2:{ intros roomId' r' Hin'. apply (Hothers roomId' r').
      - apply Hreg. apply elem_of_app. by left.
      - intros ->. apply (Hl1 roomId); [|left].
        apply list_elem_of_fmap. by exists (roomId, r'). }
  destruct (disconnect_room socket (σ, []) (roomId, r)) as [σ1 out1] eqn:Hbody.
  apply disconnect_loop_outsider. intros roomId' r' Hin'.
  assert (Hne : roomId' ≠ roomId).
  { intros ->. apply Hl2. apply list_elem_of_fmap. by exists (roomId, r'). }
  assert (Hr' : rooms σ !! roomId' = Some r').
  { apply Hreg. apply elem_of_app. right. by right. }
  assert (Hσ1 : σ1 = leaveRoom roomId (s_id socket) σ).
  { unfold disconnect_room in Hbody.
    rewrite (existsb_is_member _ _ p Hp Hid) in Hbody. by injection Hbody as <- _. }
  change (players_of σ1 (getR σ1 r')) with (snap_players (snapshot σ1 r')).
  rewrite Hσ1, (leaveRoom_frame σ roomId (s_id socket) r) by
    (try done; intros ->; apply Hne; by eapply wf_rooms_inj).
  by apply (Hothers roomId' r').
Qed.

(** X12. The messages of a disconnection, for a connection that is a
    player of one registered room: the players that remain get [roomState]
    if there are any, and then, if the game of the room has started,
    [playerDisconnected] with the host after the transfer goes to the
    group of the room, also when the room has just been deleted. The
    connection that closed is not in the group. *)
Theorem disconnect_messages socket σ roomId r :
  reachable σ → rooms σ !! roomId = Some r →
  (∃ p, p ∈ players_of σ (getR σ r) ∧ p_id p = s_id socket) →
  (∀ roomId' r', rooms σ !! roomId' = Some r' → roomId' ≠ roomId →
     Forall (λ p, p_id p ≠ s_id socket) (players_of σ (getR σ r'))) →
  let σ' := (on_disconnect socket σ).1 in
  let s := after_leave (s_id socket) (snapshot σ r) in
  (on_disconnect socket σ).2
  = (if decide (snap_players s = []) then []
     else [(ToRoom roomId,
            roomState (snap_players s) (snap_status s) (snap_settings s)
                      (snap_hostId s) (snap_gameReady s))])
    ++ (if decide (snap_status s = playing)
        then [(ToRoom roomId, playerDisconnected (s_id socket) (snap_hostId s))]
        else [])
  ∧ (s_id socket ∉ recipients σ' (ToRoom roomId))
  ∧ (∀ p, p ∈ snap_players s → p_id p ∈ recipients σ' (ToRoom roomId)).
Proof.
  intros Hreach Hr Hmember Hothers σ' s.
  pose proof (reachable_inv σ Hreach) as Hinv. destruct (Hinv) as [Hwf Hh Hs].
  split_and!.
  - unfold on_disconnect.
    set (σ0 := socket_leaveAll socket σ).
    assert (Hwf0 : wf σ0) by by apply wf_set_groups.
    rewrite (disconnect_loop_member socket _ σ0 roomId r); try done.
    + destruct Hmember as (p & Hp & Hid). unfold disconnect_room.
      change (players_of σ0 (getR σ0 r)) with (players_of σ (getR σ r)).
      rewrite (existsb_is_member _ _ p Hp Hid). cbn [snd]. rewrite app_nil_l.
      set (σ1 := leaveRoom roomId (s_id socket) σ0).
      assert (Hsnap : snapshot σ1 r = s) by by apply (leaveRoom_snapshot σ0).
      change (r_status (getR σ1 r)) with (snap_status (snapshot σ1 r)).
      change (r_hostId (getR σ1 r)) with (snap_hostId (snapshot σ1 r)).
      rewrite Hsnap. f_equal.
      * unfold broadcastRoomState. subst σ1.
        rewrite (leaveRoom_rooms σ0 roomId (s_id socket) r) by done.
        change (snapshot σ0 r) with (snapshot σ r).
        destruct (decide (filter _ _ = [])) as [Hnil|Hne].
        -- rewrite lookup_delete_eq.
           by rewrite decide_True by by apply after_leave_empty.
        -- change (rooms σ0) with (rooms σ). rewrite Hr.
           rewrite decide_False by by intros ?%after_leave_empty.
           set (σ1 := leaveRoom roomId (s_id socket) σ0) in *.
           change (players_of σ1 (getR σ1 r)) with (snap_players (snapshot σ1 r)).
           change (r_status (getR σ1 r)) with (snap_status (snapshot σ1 r)).
           change (r_settings (getR σ1 r)) with (snap_settings (snapshot σ1 r)).
           change (r_hostId (getR σ1 r)) with (snap_hostId (snapshot σ1 r)).
           change (r_gameReady (getR σ1 r)) with (snap_gameReady (snapshot σ1 r)).
           by rewrite Hsnap.
      * by destruct (decide (snap_status s = playing)); 
          [rewrite bool_decide_eq_true_2|rewrite bool_decide_eq_false_2].
    + apply NoDup_fst_map_to_list.
    + intros roomId' r' Hin. by apply elem_of_map_to_list in Hin.
    + by apply elem_of_map_to_list.
  - subst σ'. simpl. rewrite on_disconnect_group by done.
    intros [_ Hn]%elem_of_difference. apply Hn. by apply elem_of_singleton.
  - intros p Hp. subst σ'. simpl. rewrite on_disconnect_group by done.
    apply after_leave_ids in Hp as (Hne & q & Hq & Heq).
    apply elem_of_difference. split.
    + rewrite <- Heq. by apply (Hs roomId r q).
    + by intros ?%elem_of_singleton.
Qed.

(** A, the host of a playing room that B has left, closes the connection:
    the room is deleted and [playerDisconnected] names A as the new host. *)
Lemma disconnect_messages_witness :
  let σ := state_after [create "A" "R"; join "B" "R"; start "A" "R"; leave "B" "R"] in
  (on_disconnect (sock "A") σ).2 = [(ToRoom "R", playerDisconnected "A" "A")]
  ∧ rooms (on_disconnect (sock "A") σ).1 !! "R" = None.
Proof.
  intros σ. split; [|by vm_compute].
  destruct (disconnect_messages (sock "A") σ "R" 0) as (Hout & _ & _).
  - apply state_after_reachable. by vm_compute.
  - by vm_compute.
  - exists (getP σ 0). split; [|by vm_compute].
    assert (Hps : players_of σ (getR σ 0) = [getP σ 0]) by by vm_compute.
    rewrite Hps. left.
  - intros roomId' r' Hr' Hne. apply elem_of_map_to_list in Hr'.
    assert (Hlist : map_to_list (rooms σ) = [("R", 0 : loc)]) by by vm_compute.
    rewrite Hlist in Hr'. by apply list_elem_of_singleton in Hr' as [= -> ->].
  - rewrite Hout. by vm_compute.
Defined.

(** ** Groups and players *)

(** X13. As long as [generateRoomId] draws no id that is registered, the
    group of an id consists of the ids of the players of the room
    registered under it, and is empty when no room is. *)
Theorem group_is_members σ roomId :
  reachable_fresh σ →
  group σ roomId = from_option (λ r, member_ids (snapshot σ r)) ∅ (rooms σ !! roomId).
Proof.
  intros Hfresh. destruct (reachable_fresh_inv σ Hfresh) as [Ht _].
  pose proof (reachable_inv σ (reachable_fresh_reachable σ Hfresh)) as [_ _ Hs].
  apply set_eq. intros id. split.
  - intros Hin. destruct (Ht roomId id Hin) as (r & p & Hr & Hp & Hid).
    rewrite Hr. simpl. unfold member_ids.
    apply elem_of_list_to_set, list_elem_of_fmap. by exists p.
  - destruct (rooms σ !! roomId) as [r|] eqn:Hr; simpl; [|by intros ?%elem_of_empty].
    unfold member_ids. intros (p & -> & Hp)%elem_of_list_to_set%list_elem_of_fmap.
    by apply (Hs roomId r p).
Qed.

(** The room of [seats_out_of_order], which B and C have left. *)
Lemma group_is_members_witness :
  group seats_out_of_order "R" = {["A"; "D"; "E"]}
  ∧ group seats_out_of_order "S" = ∅.
Proof.
  assert (Hfresh : reachable_fresh seats_out_of_order).
  { apply (run_fresh_reachable
             [create "A" "R"; join "B" "R"; join "C" "R"; join "D" "R";
              leave "B" "R"; leave "C" "R"; join "E" "R"] init);
      [apply reachable_fresh_init|by vm_compute]. }
  split.
  - rewrite (group_is_members seats_out_of_order "R" Hfresh).
    assert (Hr : rooms seats_out_of_order !! "R" = Some (0 : loc)) by by vm_compute.
    rewrite Hr. simpl. unfold member_ids.
    assert (Hids : p_id <$> snap_players (snapshot seats_out_of_order 0)
                   = ["A"; "D"; "E"]) by by vm_compute.
    rewrite Hids. simpl. set_solver.
  - rewrite (group_is_members seats_out_of_order "S" Hfresh).
    assert (Hr : rooms seats_out_of_order !! "S" = (None : option loc)) by by vm_compute.
    by rewrite Hr.
Defined.

(** ** Creating a room *)

(** X14. The [createRoom] message with settings that are not [null]: a new
    room object with the creator alone on seat 0 is registered under the
    drawn id, whatever was registered under it, the creator is put into the
    group of the id, and [roomCreated] and [roomState] are sent; the room
    objects that exist are not touched. The handler then ends with
    [if (callback) callback({ success: true, roomId })]: the
    acknowledgement function is given the id, a falsy [callback] is
    skipped, and any other value is called and raises a TypeError, after
    the room is registered and the two messages are sent. *)
Theorem createRoom_message socket generated settings callback σ :
  reachable σ → is_null settings = false →
  let r := length (roomObjs σ) in
  let s := created_room (s_id socket) settings in
  let sent :=
    [(ToSocket (s_id socket), roomCreated generated 0 true);
     (ToRoom generated,
      roomState [created_host (s_id socket) settings] waiting
                (snap_settings s) (s_id socket) false)] in
  ∃ σ',
    on_createRoom socket generated settings callback σ
    = match callback with
      | CallbackFunction =>
          Returns (σ', sent ++ [(Callback (s_id socket), ack_created generated)])
      | CallbackValue v => if truthy v then Throws (σ', sent) else Returns (σ', sent)
      end ∧
    rooms σ' = <[generated := r]> (rooms σ) ∧
    snapshot σ' r = s ∧
    (∀ r', r' < r → snapshot σ' r' = snapshot σ r') ∧
    (∀ roomId', group σ' roomId' =
       if decide (roomId' = generated) then {[s_id socket]} ∪ group σ generated
       else group σ roomId') ∧
    timers σ' = timers σ.
Proof.
  intros Hreach Hnull r s sent. pose proof (reachable_inv σ Hreach) as [Hwf Hh Hs].
  rewrite on_createRoom_cases, Hnull. cbv zeta.
  set (σ1 := created_state generated (s_id socket) settings σ).
  assert (Hsnap : snapshot σ1 r = s) by by apply create_snapshot.
  exists (socket_join socket generated σ1). split; [|split_and!].
  - rewrite reply_last_cases.
    assert ([(ToSocket (s_id socket), roomCreated generated 0 true)]
            ++ broadcastRoomState generated (socket_join socket generated σ1) = sent)
      as ->; [|done].
    subst sent. simpl. do 2 f_equal. unfold broadcastRoomState.
    change (rooms (socket_join socket generated σ1))
      with (<[generated := r]> (rooms σ)).
    rewrite lookup_insert_eq.
    change (getR (socket_join socket generated σ1) r) with (getR σ1 r).
    change (players_of (socket_join socket generated σ1) (getR σ1 r))
      with (snap_players (snapshot σ1 r)).
    change (r_status (getR σ1 r)) with (snap_status (snapshot σ1 r)).
    change (r_settings (getR σ1 r)) with (snap_settings (snapshot σ1 r)).
    change (r_hostId (getR σ1 r)) with (snap_hostId (snapshot σ1 r)).
    change (r_gameReady (getR σ1 r)) with (snap_gameReady (snapshot σ1 r)).
    by rewrite Hsnap.
  - done.
  - done.
  - intros r' Hlt. by apply create_frame.
  - intros roomId'. by rewrite group_socket_join.
  - done.
Qed.

(** C creates a room with settings of its own: with the acknowledgement
    function, and with an object that is not a function in its place. *)
Lemma createRoom_message_witness :
  (∃ σ', on_createRoom (sock "C") "S" custom_settings CallbackFunction two_waiting
         = Returns (σ', [(ToSocket "C", roomCreated "S" 0 true);
                         (ToRoom "S",
                          roomState [mkPlayer "C" (JStr "玩家1") true 0] waiting
                                    (snap_settings (created_room "C" custom_settings))
                                    "C" false);
                         (Callback "C", ack_created "S")])
         ∧ rooms σ' !! "S" = Some 1)
  ∧ (∃ σ', on_createRoom (sock "C") "S" custom_settings (CallbackValue (JObj FNil))
             two_waiting
           = Throws (σ', [(ToSocket "C", roomCreated "S" 0 true);
                          (ToRoom "S",
                           roomState [mkPlayer "C" (JStr "玩家1") true 0] waiting
                                     (snap_settings (created_room "C" custom_settings))
                                     "C" false)])
           ∧ rooms σ' !! "S" = Some 1).
Proof.
  assert (Hreach : reachable two_waiting)
    by (apply state_after_reachable; by vm_compute).
  split.
  - destruct (createRoom_message (sock "C") "S" custom_settings CallbackFunction
                two_waiting Hreach) as (σ' & Hout & Hrooms & _); [done|].
    exists σ'. split; [by rewrite Hout|].
    rewrite Hrooms. by rewrite lookup_insert_eq.
  - destruct (createRoom_message (sock "C") "S" custom_settings
                (CallbackValue (JObj FNil)) two_waiting Hreach)
      as (σ' & Hout & Hrooms & _); [done|].
    exists σ'. split; [by rewrite Hout|].
    rewrite Hrooms. by rewrite lookup_insert_eq.
Defined.

(** X15. When [generateRoomId] draws an id that is registered, the room
    that was registered under it cannot be reached through the registry
    any more, under any id, although its object is unchanged; its players
    are still in the group of the id and receive what is sent to the new
    room. This is the state that the handler reaches whatever its
    [callback] argument is. *)
Theorem createRoom_collision socket generated settings callback σ r0 :
  reachable σ → rooms σ !! generated = Some r0 → is_null settings = false →
  ∃ σ' out,
    result (on_createRoom socket generated settings callback σ) = (σ', out) ∧
    (∀ roomId, rooms σ' !! roomId ≠ Some r0) ∧
    snapshot σ' r0 = snapshot σ r0 ∧
    (∀ p, p ∈ snap_players (snapshot σ r0) →
          p_id p ∈ recipients σ' (ToRoom generated)) ∧
    member_ids (snapshot σ r0) ∪ {[s_id socket]} ⊆ group σ' generated.
Proof.
  intros Hreach Hr0 Hnull. pose proof (reachable_inv σ Hreach) as [Hwf Hh Hs].
  assert (Hlt : r0 < length (roomObjs σ)) by by eapply wf_rooms_alloc.
  set (σ1 := created_state generated (s_id socket) settings σ).
  exists (socket_join socket generated σ1),
         (result (on_createRoom socket generated settings callback σ)).2.
  split.
  { rewrite (surjective_pairing (result _)). f_equal.
    rewrite on_createRoom_cases, Hnull. cbv zeta. by rewrite result_reply_last. }
  change (snapshot (socket_join socket generated σ1)) with (snapshot σ1).
  assert (Hgroup : ∀ p, p ∈ snap_players (snapshot σ r0) →
                        p_id p ∈ group (socket_join socket generated σ1) generated).
  { intros p Hp. rewrite group_socket_join, decide_True by done.
    apply elem_of_union_r. by apply (Hs generated r0 p). }
  split_and!.
  - intros roomId.
    change (rooms (socket_join socket generated σ1))
      with (<[generated := length (roomObjs σ)]> (rooms σ)).
    intros [[_ Heq]|[Hne Hr]]%lookup_insert_Some; [lia|].
    apply Hne. by eapply wf_rooms_inj.
  - by apply create_frame.
  - done.
  - intros id [Hin|Hin]%elem_of_union.
    + unfold member_ids in Hin.
      apply elem_of_list_to_set, list_elem_of_fmap in Hin as (p & -> & Hp). by apply Hgroup.
    + apply elem_of_singleton in Hin as ->.
      rewrite group_socket_join, decide_True by done.
      apply elem_of_union_l. by apply elem_of_singleton.
Qed.

(** C creates a room and the id drawn is that of the room of A and B. *)
Lemma createRoom_collision_witness :
  ∃ σ' out,
    on_createRoom (sock "C") "R" ArgUndefined no_callback two_waiting
    = Returns (σ', out)
    ∧ (∀ roomId, rooms σ' !! roomId ≠ Some 0)
    ∧ {["A"; "B"; "C"]} ⊆ group σ' "R".
Proof.
  destruct (createRoom_collision (sock "C") "R" ArgUndefined no_callback two_waiting 0)
    as (σ' & out & Hcreate & Hgone & _ & _ & Hgroup).
  - apply state_after_reachable. by vm_compute.
  - by vm_compute.
  - done.
  - exists σ', out. split.
    { rewrite <- Hcreate. by vm_compute. }
    split; [done|].
    assert (Hids : member_ids (snapshot two_waiting 0) = {["A"; "B"]}).
    { unfold member_ids.
      assert (Hl : p_id <$> snap_players (snapshot two_waiting 0) = ["A"; "B"])
        by by vm_compute.
      rewrite Hl. simpl. set_solver. }
    rewrite Hids in Hgroup. simpl in Hgroup. set_solver.
Defined.

(** ** Timers *)

Local Ltac no_new_timer :=
  exists []; rewrite app_nil_r; split; [|split; [simpl; lia|by intros ? ?%elem_of_nil]].

Lemma handle_timers socket m σ σ' out :
  inv σ → handle (Receive socket m) σ = Some (σ', out) →
  ∃ new, timers σ' = timers σ ++ new ∧ length new ≤ 1 ∧
         (∀ t, t ∈ new →
            ∃ d r, m = playerAction_msg (Some d) ∧ rooms σ !! ad_roomId d = Some r ∧
                   find_player σ (getR σ r) (s_id socket) = Some (t_player t) ∧
                   t = mkTimer 100 (s_id socket) (ad_roomId d) r (t_player t)).
Proof.
  intros Hinv. simpl.
  destruct m as [generated settings callback|[d|] callback|roomId|roomId
                 |roomId callback|[d|]|[d|]|[d|]|roomId callback|];
    simpl; try done.
  - rewrite on_createRoom_cases. destruct (is_null settings); [done|]. cbv zeta.
    intros [-> _]%completed_reply_last. by no_new_timer.
  - state_of_result. rewrite on_joinRoom_state.
    pose proof (joinRoom_cases σ (jd_roomId d) (s_id socket) (jd_playerName d)) as Hj.
    no_new_timer.
    destruct (rooms σ !! jd_roomId d) as [r0|] eqn:Hr0; [|by rewrite Hj].
    simpl in Hj. destruct (decide (4 ≤ _)) as [|Hlen]; [by rewrite Hj|].
    destruct (decide (_ = waiting)) as [Hst|]; [|by rewrite Hj].
    by rewrite Hj.
  - state_of_result. unfold on_leaveRoom. cbn [fst].
    no_new_timer.
    change (timers (socket_leave socket roomId (leaveRoom roomId (s_id socket) σ)))
      with (timers (leaveRoom roomId (s_id socket) σ)).
    apply leaveRoom_timers.
  - state_of_result. no_new_timer.
    pose proof (on_startGame_cases socket roomId σ) as Hc. simpl in Hc.
    destruct (rooms σ !! roomId) as [r0|] eqn:Hr0; [|by rewrite Hc].
    destruct (decide (_ < 2)) as [|Hlen]; [by rewrite Hc|].
    destruct (was_host _ _); [|by rewrite Hc].
    by rewrite Hc by (eapply wf_rooms_alloc; [apply Hinv|done]).
  - state_of_result. rewrite on_getRoomState_state. by no_new_timer.
  - state_of_result. no_new_timer.
    unfold on_gameReady. destruct (rooms σ !! _) as [r0|] eqn:Hr0; [|done].
    by case_bool_decide.
  - state_of_result. no_new_timer.
    unfold on_gameStateUpdate. destruct (rooms σ !! _) as [r0|] eqn:Hr0; [|done].
    by destruct (find_player _ _ _).
  - state_of_result.
    destruct (on_playerAction_state socket (ad_roomId d) (ad_action d) (ad_params d) σ)
      as [->|(r0 & l & Hr0 & Hl & ->)]; [by no_new_timer|].
    eexists [_]. split; [done|]. split; [simpl; lia|].
    intros t ->%list_elem_of_singleton. by exists d, r0.
  - state_of_result. rewrite on_requestTurnInfo_state. by no_new_timer.
  - state_of_result. no_new_timer.
    by apply on_disconnect_timers.
Qed.

(** X16. No message cancels a timer: whatever the clients send, the
    timers that are pending stay pending, in their order, until they fire;
    a message adds at most one timer, and only [playerAction] adds one. *)
Theorem timers_never_cancelled socket m σ σ' out :
  reachable σ → handle (Receive socket m) σ = Some (σ', out) →
  ∃ new, timers σ' = timers σ ++ new ∧ length new ≤ 1 ∧
         (new ≠ [] → ∃ d, m = playerAction_msg (Some d)).
Proof.
  intros Hreach Hstep.
  destruct (handle_timers socket m σ σ' out (reachable_inv σ Hreach) Hstep)
    as (new & Htimers & Hlen & Hnew).
  exists new. split_and!; [done..|]. intros Hne.
  destruct new as [|t new]; [done|].
  destruct (Hnew t) as (d & _ & -> & _); [left|]. by exists d.
Qed.

(** B has acted in the room of A and B; then A, the last player but one,
    closes the connection. *)
Lemma timers_never_cancelled_witness :
  let σ := state_after [create "A" "R"; join "B" "R"; update "A" "R" (JNum 1);
                        act "B" "R"] in
  ∃ new, timers (on_disconnect (sock "A") σ).1 = timers σ ++ new.
Proof.
  intros σ.
  destruct (timers_never_cancelled (sock "A") disconnect_msg σ
              (on_disconnect (sock "A") σ).1 (on_disconnect (sock "A") σ).2)
    as (new & Hnew & _).
  - apply state_after_reachable. by vm_compute.
  - exact (f_equal Some (surjective_pairing (on_disconnect (sock "A") σ))).
  - by exists new.
Defined.

(** ** Names *)

Lemma room_step_names s s' :
  room_step s s' →
  Forall (λ p, truthy (p_name p) = true) (snap_players s) →
  Forall (λ p, truthy (p_name p) = true) (snap_players s').
Proof.
  intros Hstep Hall.
  destruct Hstep as [s|s playerId playerName Hlt Hst|s playerId|s Hge|s|s g]; try done.
  - simpl. apply Forall_app. split; [done|]. apply Forall_singleton. simpl.
    unfold js_or. by destruct (truthy playerName) eqn:Hname.
  - assert (Hrem : Forall (λ p, truthy (p_name p) = true)
                     (filter (λ p, p_id p ≠ playerId) (snap_players s))).
    { apply Forall_forall. intros p [_ Hp]%list_elem_of_filter.
      by apply (proj1 (Forall_forall _ _) Hall). }
    unfold after_leave; simpl. destruct (was_host _ _); [|done].
    destruct Hrem as [|p ps Hp Hps]; [done|]. simpl. by constructor.
Qed.

(** X17. Every player of a registered room has a name that is truthy: a
    missing or empty name is replaced when the player object is made, by
    [玩家1] for the creator and by [玩家] and the seat plus one for a
    joiner, and no handler writes a name afterwards. *)
Theorem names_are_truthy σ roomId r :
  reachable σ → rooms σ !! roomId = Some r →
  Forall (λ p, truthy (p_name p) = true) (players_of σ (getR σ r)).
Proof.
  intros Hreach. revert roomId r.
  induction Hreach as [|σ e σ' out Hreach IH Hstep]; intros roomId r Hr; [done|].
  pose proof (reachable_inv σ Hreach) as Hinv.
  change (players_of σ' (getR σ' r)) with (snap_players (snapshot σ' r)).
  destruct (handle_registry e σ σ' out roomId r Hinv Hstep Hr)
    as [Hold|(_ & hostId & settings & ->)].
  - apply (room_step_names (snapshot σ r)); [|by apply (IH roomId r)].
    eapply handle_room_step; [done| |done].
    eapply wf_rooms_alloc; [apply Hinv|done].
  - simpl. apply Forall_singleton. simpl. unfold js_or.
    by destruct (truthy (prop _ _)) eqn:Hname.
Qed.

(** B joins with an empty name and gets the name of the second seat. *)
Lemma names_are_truthy_witness :
  let σ := state_after
             [create "A" "R";
              Receive (sock "B")
                (joinRoom_msg (Some {| jd_roomId := "R"; jd_playerName := JStr "" |})
                   no_callback)] in
  p_name <$> players_of σ (getR σ 0) = [JStr "玩家1"; JStr "玩家2"]
  ∧ Forall (λ p, truthy (p_name p) = true) (players_of σ (getR σ 0)).
Proof.
  intros σ. split; [by vm_compute|].
  apply (names_are_truthy σ "R" 0).
  - apply state_after_reachable. by vm_compute.
  - by vm_compute.
Defined.

(** ** The other copy of the server *)

Lemma part_000_lookup_none σ (ls : list loc) playerId :
  find (λ l, bool_decide (p_id (getP σ l) = playerId))
       (filter (λ l, p_id (getP σ l) ≠ playerId) ls) = None.
Proof.
  apply find_all_false. intros l [Hne _]%list_elem_of_filter.
  by apply bool_decide_eq_false.
Qed.

(** What [leaveRoom] of part_000 comes to: it filters the array and
    deletes the room when nobody remains. *)
Lemma part_000_leaveRoom_filters σ roomId playerId r :
  rooms σ !! roomId = Some r →
  let remaining := filter (λ l, p_id (getP σ l) ≠ playerId) (r_players (getR σ r)) in
  let σ1 := setR r (with_players remaining (getR σ r)) σ in
  part_000.leaveRoom roomId playerId σ
  = if decide (remaining = []) then set_rooms (delete roomId (rooms σ)) σ1 else σ1.
Proof.
  intros Hr remaining σ1. unfold part_000.leaveRoom. rewrite Hr. cbv zeta.
  fold remaining. fold σ1.
  destruct (decide (remaining = [])) as [Hnil|Hne].
  - rewrite bool_decide_eq_true_2; [done|]. by rewrite Hnil.
  - rewrite bool_decide_eq_false_2 by (by destruct remaining).
    destruct (decide (r < length (roomObjs σ))) as [Hlt|Hge].
    + unfold find_player. subst σ1. rewrite getR_setR_eq by done. simpl.
      change (getP (setR r (with_players remaining (getR σ r)) σ)) with (getP σ).
      subst remaining. by rewrite part_000_lookup_none.
    + exfalso. apply Hne. subst remaining. unfold getR.
      rewrite list_lookup_total_alt, lookup_ge_None_2 by lia. done.
Qed.

(** X18. [leaveRoom] of the older copy (part_000) looks the leaving player
    up after the array has been filtered, so it finds nobody. It does what
    [leaveRoom] of server.js does when the room is emptied or the leaving
    connection is not the host; when the host leaves and others remain,
    it leaves the room without a host, so that the test of [startGame] for
    the host fails for every connection. *)
Theorem part_000_leaveRoom_host_lost σ roomId playerId r :
  reachable σ → rooms σ !! roomId = Some r →
  let remaining := filter (λ p, p_id p ≠ playerId) (players_of σ (getR σ r)) in
  let σ' := part_000.leaveRoom roomId playerId σ in
  (remaining = [] ∨ r_hostId (getR σ r) ≠ playerId →
   σ' = leaveRoom roomId playerId σ) ∧
  (remaining ≠ [] → r_hostId (getR σ r) = playerId →
   players_of σ' (getR σ' r) = remaining ∧
   Forall (λ p, p_isHost p = false) (players_of σ' (getR σ' r)) ∧
   ∀ id, from_option (λ l, p_isHost (getP σ' l)) false
                     (find_player σ' (getR σ' r) id) = false).
Proof.
  intros Hreach Hr remaining σ'. pose proof (reachable_inv σ Hreach) as [Hwf Hh Hs].
  assert (Hlt : r < length (roomObjs σ)) by by eapply wf_rooms_alloc.
  pose proof (part_000_leaveRoom_filters σ roomId playerId r Hr) as Hpart.
  cbv zeta in Hpart. fold σ' in Hpart.
  pose proof (filter_deref σ (getR σ r) playerId) as Hfilter. fold remaining in Hfilter.
  pose proof (Hh roomId r Hr) as Hhost.
  pose proof (was_host_hostId _ playerId Hhost) as Hwas. simpl in Hwas.
  split.
  - intros Hcase.
    destruct (leaveRoom_cases σ roomId playerId r Hwf Hr)
      as [[Hnil ->]|[(first & rest & Hrem & Hw & _)|(Hne & Hw & ->)]].
    + rewrite Hpart. by rewrite decide_True.
    + exfalso. rewrite Hw in Hwas. symmetry in Hwas.
      apply bool_decide_eq_true in Hwas.
      destruct Hcase as [Hnil|Hne]; [|done].
      rewrite Hrem in Hfilter. rewrite Hnil in Hfilter. done.
    + rewrite Hpart. by rewrite decide_False.
  - intros Hne Hid.
    assert (Hlocs : filter (λ l, p_id (getP σ l) ≠ playerId) (r_players (getR σ r)) ≠ []).
    { intros Hnil. rewrite Hnil in Hfilter. by apply Hne. }
    rewrite decide_False in Hpart by done.
    assert (Hps : players_of σ' (getR σ' r) = remaining).
    { rewrite Hpart. rewrite getR_setR_eq by done. unfold players_of at 1. simpl.
      exact Hfilter. }
    split; [done|].
    assert (Hguests : Forall (λ p, p_isHost p = false) (players_of σ' (getR σ' r))).
    { rewrite Hps. subst remaining.
      destruct Hhost as (first & rest & Hplayers & Hfirst & Hhid & Hrest).
      simpl in Hplayers, Hhid. rewrite Hplayers.
      rewrite filter_cons_False by (intros Hn; apply Hn; congruence).
      apply Forall_forall. intros p [_ Hp]%list_elem_of_filter.
      by apply (proj1 (Forall_forall _ _) Hrest). }
    split; [done|]. intros id. rewrite was_host_deref. by apply was_host_guests.
Qed.

(** A, the host, leaves the room of A and B; B leaves it. *)
Lemma part_000_leaveRoom_host_lost_witness :
  p_isHost <$> players_of (part_000.leaveRoom "R" "A" two_waiting)
                          (getR (part_000.leaveRoom "R" "A" two_waiting) 0) = [false]
  ∧ part_000.leaveRoom "R" "B" two_waiting = leaveRoom "R" "B" two_waiting.
Proof.
  assert (Hreach : reachable two_waiting)
    by (apply state_after_reachable; by vm_compute).
  split; [by vm_compute|].
  destruct (part_000_leaveRoom_host_lost two_waiting "R" "B" 0 Hreach) as [Hsame _];
    [by vm_compute|].
  apply Hsame. right. by vm_compute.
Defined.

(** ** Player objects *)

Lemma same_player_refl p : same_player p p.
Proof. by split. Qed.

Lemma same_player_trans p1 p2 p3 :
  same_player p1 p2 → same_player p2 p3 → same_player p1 p3.
Proof. intros [H1 H1'] [H2 H2']. split; [congruence|auto]. Qed.

Lemma leaveRoom_getP σ roomId playerId l :
  wf σ → same_player (getP σ l) (getP (leaveRoom roomId playerId σ) l).
Proof.
  intros Hwf. destruct (rooms σ !! roomId) as [r|] eqn:Hr.
  2:{ rewrite leaveRoom_absent by done. apply same_player_refl. }
  destruct (leaveRoom_cases σ roomId playerId r Hwf Hr)
    as [[Hnil ->]|[(first & rest & Hrem & Hw & ->)|(Hne & Hw & ->)]];
    [apply same_player_refl| |apply same_player_refl].
  assert (Hfirst : first < length (playerObjs σ)).
  { eapply (wf_players_alloc σ Hwf r (getR σ r)).
    - apply getR_lookup. by eapply wf_rooms_alloc.
    - assert (first ∈ filter (λ l, p_id (getP σ l) ≠ playerId) (r_players (getR σ r)))
        as [_ ?]%list_elem_of_filter; [|done].
      rewrite Hrem. left. }
  match goal with
  | |- same_player _ (getP (setR ?r0 ?room0 ?σ0) l) =>
      change (getP (setR r0 room0 σ0) l) with (getP σ0 l)
  end.
  destruct (decide (l = first)) as [->|Hne].
  - rewrite getP_setP_eq by done. by split.
  - rewrite getP_setP_ne by done. apply same_player_refl.
Qed.

Lemma leaveRoom_players_alloc σ roomId playerId :
  length (playerObjs (leaveRoom roomId playerId σ)) = length (playerObjs σ).
Proof.
  unfold leaveRoom. destruct (rooms σ !! roomId); [|done].
  repeat (case_bool_decide || case_match); simpl; by rewrite ?length_insert.
Qed.

Lemma leave_all_getP playerId roomIds σ l :
  wf σ → same_player (getP σ l) (getP (leave_all playerId roomIds σ) l).
Proof.
  revert σ. induction roomIds as [|k ks IH]; intros σ Hwf; [apply same_player_refl|].
  simpl. eapply same_player_trans; [by apply (leaveRoom_getP σ k playerId)|].
  apply IH. by apply leaveRoom_wf.
Qed.

Lemma leave_all_players_alloc playerId roomIds σ :
  length (playerObjs (leave_all playerId roomIds σ)) = length (playerObjs σ).
Proof.
  revert σ. induction roomIds as [|k ks IH]; intros σ; [done|].
  simpl. by rewrite IH, leaveRoom_players_alloc.
Qed.

(** What one turn of the event loop does to a player object. *)
Lemma handle_getP e σ σ' out l :
  inv σ → l < length (playerObjs σ) → handle e σ = Some (σ', out) →
  same_player (getP σ l) (getP σ' l) ∧ length (playerObjs σ) ≤ length (playerObjs σ').
Proof.
  intros Hinv Halloc. pose proof (inv_wf σ Hinv) as Hwf. destruct e as [socket m|i]; simpl.
  - destruct m as [generated settings callback|[d|] callback|roomId|roomId
                   |roomId callback|[d|]|[d|]|[d|]|roomId callback|];
      simpl; try done.
    + rewrite on_createRoom_cases. destruct (is_null settings); [done|]. cbv zeta.
      intros [-> _]%completed_reply_last.
      unfold getP; simpl. rewrite lookup_total_app_l, length_app by done.
      split; [apply same_player_refl|lia].
    + state_of_result. rewrite on_joinRoom_state.
      pose proof (joinRoom_cases σ (jd_roomId d) (s_id socket) (jd_playerName d)) as Hj.
      destruct (rooms σ !! jd_roomId d) as [r0|] eqn:Hr0;
        [|rewrite Hj; split; [apply same_player_refl|done]].
      simpl in Hj. destruct (decide (4 ≤ _)) as [|Hlen];
        [rewrite Hj; split; [apply same_player_refl|done]|].
      destruct (decide (_ = waiting)) as [Hst|];
        [|rewrite Hj; split; [apply same_player_refl|done]].
      rewrite Hj. cbv beta iota zeta.
      unfold getP; simpl. rewrite lookup_total_app_l, length_app by done.
      split; [apply same_player_refl|lia].
    + state_of_result. unfold on_leaveRoom. cbn [fst].
      change (getP (socket_leave socket roomId (leaveRoom roomId (s_id socket) σ)))
        with (getP (leaveRoom roomId (s_id socket) σ)).
      change (playerObjs (socket_leave socket roomId (leaveRoom roomId (s_id socket) σ)))
        with (playerObjs (leaveRoom roomId (s_id socket) σ)).
      rewrite leaveRoom_players_alloc. split; [by apply leaveRoom_getP|done].
    + state_of_result.
      pose proof (on_startGame_cases socket roomId σ) as Hc. simpl in Hc.
      destruct (rooms σ !! roomId) as [r0|] eqn:Hr0;
        [|rewrite Hc; split; [apply same_player_refl|done]].
      destruct (decide (_ < 2)) as [|Hlen];
        [rewrite Hc; split; [apply same_player_refl|done]|].
      destruct (was_host _ _); [|rewrite Hc; split; [apply same_player_refl|done]].
      rewrite Hc by by eapply wf_rooms_alloc.
      split; [apply same_player_refl|done].
    + state_of_result. rewrite on_getRoomState_state.
      split; [apply same_player_refl|done].
    + state_of_result. unfold on_gameReady.
      destruct (rooms σ !! _) as [r0|] eqn:Hr0; [|split; [apply same_player_refl|done]].
      case_bool_decide; split; (apply same_player_refl || done).
    + state_of_result. unfold on_gameStateUpdate.
      destruct (rooms σ !! _) as [r0|] eqn:Hr0; [|split; [apply same_player_refl|done]].
      destruct (find_player _ _ _); split; (apply same_player_refl || done).
    + state_of_result.
      destruct (on_playerAction_state socket (ad_roomId d) (ad_action d) (ad_params d) σ)
        as [->|(r0 & player & _ & _ & ->)]; split; (apply same_player_refl || done).
    + state_of_result. rewrite on_requestTurnInfo_state.
      split; [apply same_player_refl|done].
    + state_of_result. rewrite on_disconnect_state by done.
      rewrite leave_all_players_alloc. split; [|done].
      apply (leave_all_getP _ _ (socket_leaveAll socket σ)). by apply wf_set_groups.
  - destruct (timers σ !! i); intros [= <- _]; split; (apply same_player_refl || done).
Qed.

(** X19. A player object keeps the id, the name and the seat it was made
    with, and its [isHost] flag is never cleared: the only write to a
    player object is [players[0].isHost = true]. This also holds for the
    objects of players who have left, which a pending timer may still
    read. *)
Theorem player_objects_keep_identity es σ σ' out l :
  reachable σ → l < length (playerObjs σ) → run es σ = Some (σ', out) →
  identity (getP σ' l) = identity (getP σ l)
  ∧ (p_isHost (getP σ l) = true → p_isHost (getP σ' l) = true).
Proof.
  revert σ out. induction es as [|e es IH]; intros σ out Hreach Halloc; simpl.
  - by intros [= <- _].
  - destruct (handle e σ) as [[σ1 out1]|] eqn:He; simpl; [|done].
    destruct (run es σ1) as [[σ2 out2]|] eqn:Hrun; simpl; [|done].
    intros [= <- _]. pose proof (reachable_inv σ Hreach) as Hinv.
    destruct (handle_getP e σ σ1 out1 l Hinv Halloc He) as [Hsame Hlen].
    apply (same_player_trans _ (getP σ1 l)); [done|].
    eapply IH; [by eapply reachable_step|lia|done].
Qed.

(** A, the host, leaves the room of A and B and joins it again: the object
    of the first stay still says that A is the host. *)
Lemma player_objects_keep_identity_witness :
  let σ' := state_after [create "A" "R"; join "B" "R"; leave "A" "R"; join "A" "R"] in
  identity (getP σ' 0) = identity (getP two_waiting 0)
  ∧ p_isHost (getP σ' 0) = true
  ∧ r_hostId (getR σ' 0) = "B".
Proof.
  intros σ'.
  destruct (player_objects_keep_identity [leave "A" "R"; join "A" "R"] two_waiting σ'
              (from_option snd [] (run [leave "A" "R"; join "A" "R"] two_waiting)) 0)
    as [Hid Hhost].
  - apply state_after_reachable. by vm_compute.
  - vm_compute. lia.
  - by vm_compute.
  - split; [done|]. split; [|by vm_compute]. apply Hhost. by vm_compute.
Defined.

Lemma reachable_timer_player σ t :
  reachable σ → t ∈ timers σ → p_id (getP σ (t_player t)) = t_socket t.
Proof.
  intros Hreach. revert t.
  induction Hreach as [|σ e σ' out Hreach IH Hstep]; intros t Hin.
  { by apply elem_of_nil in Hin. }
  pose proof (reachable_inv σ Hreach) as Hinv. pose proof (inv_wf σ Hinv) as Hwf.
  assert (Hold : ∀ t, t ∈ timers σ → p_id (getP σ' (t_player t)) = t_socket t).
  { intros t0 Hin0. destruct (wf_timers_alloc σ Hwf t0 Hin0) as [_ Hlt].
    destruct (handle_getP e σ σ' out (t_player t0) Hinv Hlt Hstep) as [[Hid _] _].
    rewrite <- (IH t0 Hin0). unfold identity in Hid. congruence. }
  destruct e as [socket m|i].
  - destruct (handle_timers socket m σ σ' out Hinv Hstep) as (new & Htimers & _ & Hnew).
    rewrite Htimers in Hin. apply elem_of_app in Hin as [Hin|Hin]; [by apply Hold|].
    destruct (Hnew t Hin) as (d & r & -> & Hr & Hfind & Ht).
    simpl in Hstep. apply completed_result, (f_equal fst) in Hstep. cbn [fst] in Hstep.
    assert (Hσ' : getP σ' = getP σ).
    { rewrite Hstep.
      by destruct (on_playerAction_state socket (ad_roomId d) (ad_action d)
                     (ad_params d) σ) as [->|(r0 & player & _ & _ & ->)]. }
    rewrite Hσ'. apply find_player_Some in Hfind as [_ Hid].
    rewrite Hid. by rewrite Ht.
  - simpl in Hstep. destruct (timers σ !! i) as [t0|] eqn:Hi.
    + injection Hstep as <- _. apply Hold. simpl in Hin.
      by apply list_elem_of_delete_inv in Hin.
    + injection Hstep as <- _. by apply IH.
Qed.

(** X20. The delayed relay of an action names the player who acted: the
    player object that a pending timer has captured carries the id of the
    connection whose message set the timer, whatever has happened to the
    room since. *)
Theorem relay_names_the_actor σ i t :
  reachable σ → timers σ !! i = Some t →
  p_id (getP σ (t_player t)) = t_socket t
  ∧ ∃ σ', handle (Timeout i) σ
          = Some (σ', [(ToRoomExcept (t_roomId t) (p_id (getP σ (t_player t))),
                        gameStateSync (r_gameState (getR σ (t_room t)))
                                      (p_seat (getP σ (t_player t)))
                                      (p_isHost (getP σ (t_player t))))]).
Proof.
  intros Hreach Hi.
  assert (Hid : p_id (getP σ (t_player t)) = t_socket t).
  { apply reachable_timer_player; [done|]. by eapply list_elem_of_lookup_2. }
  split; [done|]. eexists. simpl. rewrite Hi. unfold delayed_sync. by rewrite Hid.
Qed.

(** B acts in the room of A and B and leaves before the timer fires. *)
Lemma relay_names_the_actor_witness :
  ∃ t, timers actor_left !! 0 = Some t
       ∧ p_id (getP actor_left (t_player t)) = "B" ∧ t_socket t = "B".
Proof.
  exists (mkTimer 100 "B" "R" 0 1).
  destruct (relay_names_the_actor actor_left 0 (mkTimer 100 "B" "R" 0 1)) as [Hid _].
  - apply state_after_reachable. by vm_compute.
  - by vm_compute.
  - split; [by vm_compute|]. split; [|done]. by rewrite Hid.
Defined.

(** ** When the host changes *)

Lemma room_step_host s s' :
  room_step s s' → host_first s → snap_hostId s' ≠ snap_hostId s →
  Forall (λ p, p_id p ≠ snap_hostId s) (snap_players s')
  ∧ ∃ first rest, snap_players s' = first :: rest ∧ snap_hostId s' = p_id first.
Proof.
  intros Hstep Hhost Hne.
  destruct Hstep as [s|s playerId playerName Hlt Hst|s playerId|s Hge|s|s g]; try done.
  pose proof (was_host_hostId s playerId Hhost) as Hwas.
  unfold after_leave in *; simpl in *.
  destruct (was_host playerId (snap_players s)); [|done].
  symmetry in Hwas. apply bool_decide_eq_true in Hwas.
  destruct (filter (λ p, p_id p ≠ playerId) (snap_players s)) as [|first rest] eqn:Hrem;
    [done|].
  split; [|by exists (with_isHost true first), rest].
  assert (Hall : Forall (λ p, p_id p ≠ playerId) (first :: rest)).
  { rewrite <- Hrem. apply Forall_forall. by intros p [? _]%list_elem_of_filter. }
  rewrite Hwas. apply Forall_cons in Hall as [Hfirst Hrest]. by constructor.
Qed.

(** X21. The host of a registered room changes only when the host leaves:
    if a turn of the event loop has changed [hostId], then no player of
    the room carries the old host's id any more, and the new host is the
    first player of the array. *)
Theorem host_changes_only_when_host_leaves e σ σ' out roomId r :
  reachable σ → rooms σ !! roomId = Some r → handle e σ = Some (σ', out) →
  r_hostId (getR σ' r) ≠ r_hostId (getR σ r) →
  Forall (λ p, p_id p ≠ r_hostId (getR σ r)) (players_of σ' (getR σ' r))
  ∧ ∃ first rest, players_of σ' (getR σ' r) = first :: rest
                  ∧ r_hostId (getR σ' r) = p_id first.
Proof.
  intros Hreach Hr Hstep Hne. pose proof (reachable_inv σ Hreach) as Hinv.
  apply (room_step_host (snapshot σ r) (snapshot σ' r)).
  - eapply handle_room_step; [done| |done].
    eapply wf_rooms_alloc; [apply Hinv|done].
  - by apply (inv_hosts σ Hinv roomId r).
  - done.
Qed.

(** A, the host of the room of A and B, leaves. *)
Lemma host_changes_only_when_host_leaves_witness :
  let σ' := (on_leaveRoom (sock "A") "R" two_waiting).1 in
  Forall (λ p, p_id p ≠ "A") (players_of σ' (getR σ' 0)) ∧ r_hostId (getR σ' 0) = "B".
Proof.
  intros σ'.
  destruct (host_changes_only_when_host_leaves (leave "A" "R") two_waiting σ'
              (on_leaveRoom (sock "A") "R" two_waiting).2 "R" 0) as [Hgone _].
  - apply state_after_reachable. by vm_compute.
  - by vm_compute.
  - exact (f_equal Some (surjective_pairing (on_leaveRoom (sock "A") "R" two_waiting))).
  - by vm_compute.
  - split; [|by vm_compute].
    assert (Hold : r_hostId (getR two_waiting 0) = "A") by by vm_compute.
    by rewrite Hold in Hgone.
Defined.

(** ** Sharing of player objects *)

(** X22. Player objects are not shared: a player object is in the array of
    one room object only, and once in it, so the write
    [players[0].isHost = true] of [leaveRoom] is seen through one array
    entry of one room. *)
Theorem player_objects_not_shared σ r1 r2 i1 i2 l :
  reachable σ →
  r_players (getR σ r1) !! i1 = Some l → r_players (getR σ r2) !! i2 = Some l →
  r1 = r2 ∧ i1 = i2 ∧ l < length (playerObjs σ).
Proof.
  intros Hreach H1 H2. pose proof (inv_wf σ (reachable_inv σ Hreach)) as Hwf.
  assert (Halloc : ∀ r i, r_players (getR σ r) !! i = Some l →
                          roomObjs σ !! r = Some (getR σ r)).
  { intros r i Hi. apply getR_lookup.
    destruct (decide (r < length (roomObjs σ))) as [|Hge]; [done|].
    unfold getR in Hi. rewrite list_lookup_total_alt in Hi.
    by rewrite (lookup_ge_None_2 (roomObjs σ) r) in Hi by lia. }
  pose proof (Halloc r1 i1 H1) as Hr1. pose proof (Halloc r2 i2 H2) as Hr2.
  assert (r1 = r2) as <-.
  { apply (wf_players_disj σ Hwf r1 r2 (getR σ r1) (getR σ r2) l Hr1 Hr2);
      by eapply list_elem_of_lookup_2. }
  split; [done|]. split.
  - eapply NoDup_lookup; [exact (wf_players_nodup σ Hwf r1 _ Hr1)|done..].
  - apply (wf_players_alloc σ Hwf r1 (getR σ r1) l Hr1). by eapply list_elem_of_lookup_2.
Qed.

(** The two player objects of the room of A and B. *)
Lemma player_objects_not_shared_witness :
  r_players (getR two_waiting 0) = [0; 1] ∧ 1 < length (playerObjs two_waiting).
Proof.
  split; [by vm_compute|].
  apply (player_objects_not_shared two_waiting 0 0 1 1 1).
  - apply state_after_reachable. by vm_compute.
  - by vm_compute.
  - by vm_compute.
Defined.

(** ** What is sent, and to whom *)

Lemma broadcastRoomState_elem σ roomId em :
  em ∈ broadcastRoomState roomId σ →
  ∃ r, rooms σ !! roomId = Some r ∧ em = (ToRoom roomId, roomState_of (snapshot σ r)).
Proof.
  unfold broadcastRoomState.
  destruct (rooms σ !! roomId) as [r|]; [|by intros ?%elem_of_nil].
  intros ->%list_elem_of_singleton. by exists r.
Qed.

(** What the loop of the disconnect handler sends: for a room it has
    visited, the [roomState] of the room as the loop leaves it, and
    [playerDisconnected]. *)
Lemma disconnect_loop_out socket (entries : list (string * loc)) σ out em :
  wf σ → hosts_ok σ → NoDup entries.*1 →
  (∀ roomId r, (roomId, r) ∈ entries → rooms σ !! roomId = Some r) →
  em ∈ (foldl (disconnect_room socket) (σ, out) entries).2 →
  em ∈ out ∨
  ∃ roomId r, (roomId, r) ∈ entries ∧
    ((rooms (leave_all (s_id socket) entries.*1 σ) !! roomId = Some r ∧
      em = (ToRoom roomId,
            roomState_of (snapshot (leave_all (s_id socket) entries.*1 σ) r)))
     ∨ ∃ newHostId, em = (ToRoom roomId, playerDisconnected (s_id socket) newHostId)).
Proof.
  revert σ out.
  induction entries as [|[k r] rest IH]; intros σ out Hwf Hh Hnd Hreg Hin; [by left|].
  rewrite fmap_cons in *. cbn [foldl fst] in *.
  apply NoDup_cons in Hnd as [Hnotin Hnd].
  assert (Hk : rooms σ !! k = Some r) by (apply Hreg; left).
  pose proof (disconnect_room_state socket σ out k r Hwf Hh Hk) as Hstate.
  destruct (disconnect_room socket (σ, out) (k, r)) as [σ1 out1] eqn:Hbody.
  cbn [fst] in Hstate. subst σ1.
  set (σ1 := leaveRoom k (s_id socket) σ) in *.
  assert (Hwf1 : wf σ1) by by apply leaveRoom_wf.
  assert (Hreg1 : ∀ roomId r', (roomId, r') ∈ rest → rooms σ1 !! roomId = Some r').
  { intros roomId r' Hin'. subst σ1. rewrite leaveRoom_other_rooms.
    - apply Hreg. by right.
    - intros ->. apply Hnotin. apply list_elem_of_fmap. by exists (k, r'). }
  change (leave_all (s_id socket) (k :: rest.*1) σ)
    with (leave_all (s_id socket) rest.*1 σ1).
  destruct (IH σ1 out1 Hwf1 (leaveRoom_hosts_ok _ _ _ Hwf Hh) Hnd Hreg1 Hin)
    as [Hout1|(roomId & r' & Hin' & Hcase)].
  2:{ right. exists roomId, r'. split; [by right|done]. }
  unfold disconnect_room in Hbody. destruct (existsb _ _).
  all: apply (f_equal snd) in Hbody; cbn [snd] in Hbody; subst out1.
  2:{ by left. }
  fold σ1 in Hout1.
  apply elem_of_app in Hout1 as [Hout|Hout1]; [by left|]. right. exists k, r.
  split; [left|].
  apply elem_of_app in Hout1 as [Hroom|Hgone].
  - left. apply broadcastRoomState_elem in Hroom as (r1 & Hr1 & ->).
    assert (r1 = r) as ->.
    { apply leaveRoom_lookup_Some in Hr1. congruence. }
    rewrite leave_all_rooms, decide_False by done.
    split; [done|]. rewrite leave_all_frame; [done|done|].
    intros roomId Hin' Hr'. apply Hnotin.
    by rewrite (wf_rooms_inj σ1 Hwf1 k roomId r Hr1 Hr').
  - right. case_bool_decide; [|by apply elem_of_nil in Hgone].
    apply list_elem_of_singleton in Hgone as ->. by eexists.
Qed.

Local Ltac other_message Hin :=
  repeat (apply elem_of_cons in Hin as [Hin|Hin]; [discriminate Hin|]);
  try (by apply elem_of_nil in Hin).

Local Ltac no_roomState Hin :=
  repeat (apply elem_of_cons in Hin as [Hin|Hin]; [by injection Hin|]);
  try (by apply elem_of_nil in Hin).

Lemma reply_elem σ out socket callback m σ' out' em :
  completed (reply_last σ out (reply socket callback m)) = Some (σ', out') →
  em ∈ out' → σ' = σ ∧ (em ∈ out ∨ em = (Callback (s_id socket), m)).
Proof.
  intros (-> & sent & Hsent & ->)%completed_reply_last Hin. split; [done|].
  apply elem_of_app in Hin as [Hin|Hin]; [by left|]. right.
  apply reply_Some in Hsent as [->| ->]; [by apply elem_of_nil in Hin|].
  by apply list_elem_of_singleton in Hin.
Qed.

Lemma handle_roomState e σ σ' out t m :
  inv σ → handle e σ = Some (σ', out) → (t, m) ∈ out →
  (∀ players status settings hostId gameReady,
     m ≠ roomState players status settings hostId gameReady)
  ∨ ∃ roomId r, rooms σ' !! roomId = Some r ∧
                (t, m) = (ToRoom roomId, roomState_of (snapshot σ' r)).
Proof.
  intros Hinv. pose proof (inv_wf σ Hinv) as Hwf. destruct e as [socket msg|i]; simpl.
  - destruct msg as [generated settings callback|[d|] callback|roomId|roomId
                     |roomId callback|[d|]|[d|]|[d|]|roomId callback|];
      simpl; try done.
    + rewrite on_createRoom_cases. destruct (is_null settings); [done|]. cbv zeta.
      intros Heq Hin.
      destruct (reply_elem _ _ _ _ _ _ _ _ Heq Hin) as [-> [Hsent|Hack]];
        [|left; by injection Hack as -> ->].
      apply elem_of_cons in Hsent as [Hsent|Hsent]; [left; by injection Hsent as -> ->|].
      right. apply broadcastRoomState_elem in Hsent as (r & Hr & ->). by exists generated, r.
    + unfold on_joinRoom. intros Heq Hin.
      destruct (joinRoom _ _ _ σ) as [[error|room seat player] σ1];
        (destruct (reply_elem _ _ _ _ _ _ _ _ Heq Hin) as [-> [Hsent|Hack]];
         [|left; by injection Hack as -> ->]).
      * by apply elem_of_nil in Hsent.
      * apply elem_of_cons in Hsent as [Hsent|Hsent]; [left; by injection Hsent as -> ->|].
        right. apply broadcastRoomState_elem in Hsent as (r & Hr & ->).
        by exists (jd_roomId d), r.
    + unfold on_leaveRoom. intros [= <- <-] Hin. right.
      apply broadcastRoomState_elem in Hin as (r & Hr & ->). by exists roomId, r.
    + intros Heq Hin. injection Heq as Heq. left.
      pose proof (on_startGame_cases socket roomId σ) as Hc. simpl in Hc.
      assert (Hcases :
        out = (if s_connected socket
               then [(ToSocket (s_id socket), error InsufficientPlayers)] else [])
        ∨ out = (if s_connected socket
                 then [(ToSocket (s_id socket), error NotHost)] else [])
        ∨ ∃ ps se h, out = [(ToRoom roomId, gameStarted ps se playing h)]).
      { destruct (rooms σ !! roomId) as [r0|] eqn:Hr0.
        2:{ rewrite Hc in Heq. injection Heq as _ <-. by left. }
        destruct (decide (_ < 2)) as [|Hlen].
        { rewrite Hc in Heq. injection Heq as _ <-. by left. }
        destruct (was_host _ _).
        2:{ rewrite Hc in Heq. injection Heq as _ <-. right. by left. }
        rewrite Hc in Heq by by eapply wf_rooms_alloc.
        injection Heq as _ <-. right. right. by eexists _, _, _. }
      destruct Hcases as [->|[->|(ps & se & h & ->)]].
      * destruct (s_connected socket); [|by apply elem_of_nil in Hin].
        apply list_elem_of_singleton in Hin. by injection Hin as -> ->.
      * destruct (s_connected socket); [|by apply elem_of_nil in Hin].
        apply list_elem_of_singleton in Hin. by injection Hin as -> ->.
      * apply list_elem_of_singleton in Hin. by injection Hin as -> ->.
    + unfold on_getRoomState. intros Heq Hin. left.
      destruct (rooms σ !! roomId);
        (destruct (reply_elem _ _ _ _ _ _ _ _ Heq Hin) as [_ [Hsent|Hack]];
         [by apply elem_of_nil in Hsent|by injection Hack as -> ->]).
    + unfold on_gameReady. intros Heq Hin. left.
      destruct (rooms σ !! _) as [r0|];
        [|injection Heq as _ <-; by apply elem_of_nil in Hin].
      case_bool_decide; injection Heq as _ <-; [by apply elem_of_nil in Hin|].
      apply list_elem_of_singleton in Hin. by injection Hin as -> ->.
    + unfold on_gameStateUpdate. intros Heq Hin. left.
      destruct (rooms σ !! _) as [r0|];
        [|injection Heq as _ <-; by apply elem_of_nil in Hin].
      destruct (find_player _ _ _); injection Heq as _ <-;
        [|by apply elem_of_nil in Hin].
      apply list_elem_of_singleton in Hin. by injection Hin as -> ->.
    + unfold on_playerAction, completed. intros Heq Hin. left.
      destruct (rooms σ !! _) as [r0|];
        [|injection Heq as _ <-; by apply elem_of_nil in Hin].
      destruct (find_player _ _ _);
        [|injection Heq as _ <-; by apply elem_of_nil in Hin].
      destruct (negb _); [done|].
      destruct (truthy _); injection Heq as _ <-;
        apply list_elem_of_singleton in Hin; by injection Hin as -> ->.
    + unfold on_requestTurnInfo. intros Heq Hin. left.
      destruct (rooms σ !! roomId); [destruct (negb _)|];
        (destruct (reply_elem _ _ _ _ _ _ _ _ Heq Hin) as [_ [Hsent|Hack]];
         [by apply elem_of_nil in Hsent|by injection Hack as -> ->]).
    + intros Heq Hin. injection Heq as Heq.
      assert (Hσ' : σ' = (on_disconnect socket σ).1) by by rewrite Heq.
      assert (Hout : out = (on_disconnect socket σ).2) by by rewrite Heq.
      rewrite Hout in Hin. unfold on_disconnect in Hin.
      apply disconnect_loop_out in Hin.
      * destruct Hin as [Hin|(roomId & r & _ & [[Hr ->]|[h Hem]])].
        -- by apply elem_of_nil in Hin.
        -- right. exists roomId, r. rewrite Hσ', on_disconnect_state by done. done.
        -- left. by injection Hem as -> ->.
      * by apply wf_set_groups.
      * intros roomId r Hr. by apply (inv_hosts σ Hinv roomId r).
      * apply NoDup_fst_map_to_list.
      * intros roomId r Hr. by apply elem_of_map_to_list in Hr.
  - intros Heq Hin. left. destruct (timers σ !! i).
    + injection Heq as _ <-. unfold delayed_sync in Hin.
      apply list_elem_of_singleton in Hin. by injection Hin as -> ->.
    + injection Heq as _ <-. by apply elem_of_nil in Hin.
Qed.

(** X23. Every [roomState] that a turn of the event loop sends goes to the
    group of an id that is registered after the turn, describes the room
    registered under that id as it is after the turn, and reaches all
    players of that room. *)
Theorem roomState_is_current e σ σ' out t players status settings hostId gameReady :
  reachable σ → handle e σ = Some (σ', out) →
  (t, roomState players status settings hostId gameReady) ∈ out →
  ∃ roomId r,
    t = ToRoom roomId ∧ rooms σ' !! roomId = Some r ∧
    roomState players status settings hostId gameReady = roomState_of (snapshot σ' r) ∧
    (∀ p, p ∈ players → p_id p ∈ recipients σ' t).
Proof.
  intros Hreach Hstep Hin.
  pose proof (reachable_inv σ Hreach) as Hinv.
  pose proof (reachable_inv σ' (reachable_step σ e σ' out Hreach Hstep)) as [_ _ Hs'].
  destruct (handle_roomState e σ σ' out _ _ Hinv Hstep Hin)
    as [Hno|(roomId & r & Hr & Heq)]; [by destruct (Hno players status settings hostId gameReady)|].
  apply pair_equal_spec in Heq as [-> Hm]. exists roomId, r. split_and!; [done..|].
  intros p Hp. unfold roomState_of in Hm. injection Hm as -> _ _ _ _.
  by apply (Hs' roomId r p).
Qed.

(** A, the host of a room with seats out of order, closes the connection. *)
Lemma roomState_is_current_witness :
  let result := on_disconnect (sock "A") seats_out_of_order in
  ∃ r, rooms result.1 !! "R" = Some r
       ∧ result.2 = [(ToRoom "R", roomState_of (snapshot result.1 r))].
Proof.
  intros result.
  assert (Hout : ∃ ps st se h g, result.2 = [(ToRoom "R", roomState ps st se h g)]).
  { by eexists _, _, _, _, _; vm_compute. }
  destruct Hout as (ps & st & se & h & g & Hout).
  destruct (roomState_is_current (Receive (sock "A") disconnect_msg) seats_out_of_order
              result.1 result.2 (ToRoom "R") ps st se h g)
    as (roomId & r & Ht & Hr & Hm & _).
  - apply state_after_reachable. by vm_compute.
  - exact (f_equal Some (surjective_pairing result)).
  - rewrite Hout. left.
  - injection Ht as <-. exists r. split; [done|]. by rewrite Hout, Hm.
Defined.

Lemma handle_targets socket m σ σ' out t msg :
  inv σ → handle (Receive socket m) σ = Some (σ', out) → (t, msg) ∈ out →
  addressed_for (s_id socket) t.
Proof.
  intros Hinv. pose proof (inv_wf σ Hinv) as Hwf. simpl.
  destruct m as [generated settings callback|[d|] callback|roomId|roomId
                 |roomId callback|[d|]|[d|]|[d|]|roomId callback|];
    simpl; try done.
  - rewrite on_createRoom_cases. destruct (is_null settings); [done|]. cbv zeta.
    intros Heq Hin.
    destruct (reply_elem _ _ _ _ _ _ _ _ Heq Hin) as [_ [Hsent|Hack]];
      [|by injection Hack as -> ->].
    apply elem_of_cons in Hsent as [Hsent|Hsent]; [by injection Hsent as -> ->|].
    apply broadcastRoomState_elem in Hsent as (r & Hr & Hem). by injection Hem as -> _.
  - unfold on_joinRoom. intros Heq Hin.
    destruct (joinRoom _ _ _ σ) as [[error|room seat player] σ1];
      (destruct (reply_elem _ _ _ _ _ _ _ _ Heq Hin) as [_ [Hsent|Hack]];
       [|by injection Hack as -> ->]).
    + by apply elem_of_nil in Hsent.
    + apply elem_of_cons in Hsent as [Hsent|Hsent]; [by injection Hsent as -> ->|].
      apply broadcastRoomState_elem in Hsent as (r & Hr & Hem). by injection Hem as -> _.
  - unfold on_leaveRoom. intros [= <- <-] Hin.
    apply broadcastRoomState_elem in Hin as (r & Hr & Heq). by injection Heq as -> _.
  - intros Heq Hin. injection Heq as Heq. unfold on_startGame in Heq.
    repeat (case_match || case_bool_decide); injection Heq as _ <-;
      try (by apply elem_of_nil in Hin);
      apply list_elem_of_singleton in Hin; by injection Hin as -> ->.
  - unfold on_getRoomState. intros Heq Hin.
    destruct (rooms σ !! roomId);
      (destruct (reply_elem _ _ _ _ _ _ _ _ Heq Hin) as [_ [Hsent|Hack]];
       [by apply elem_of_nil in Hsent|by injection Hack as -> ->]).
  - unfold on_gameReady. intros Heq Hin.
    repeat (case_match || case_bool_decide); injection Heq as _ <-;
      try (by apply elem_of_nil in Hin);
      apply list_elem_of_singleton in Hin; by injection Hin as -> ->.
  - unfold on_gameStateUpdate. intros Heq Hin.
    repeat (case_match || case_bool_decide); injection Heq as _ <-;
      try (by apply elem_of_nil in Hin);
      apply list_elem_of_singleton in Hin; by injection Hin as -> ->.
  - unfold on_playerAction, completed. intros Heq Hin.
    destruct (rooms σ !! _) as [r0|];
      [|injection Heq as _ <-; by apply elem_of_nil in Hin].
    destruct (find_player _ _ _);
      [|injection Heq as _ <-; by apply elem_of_nil in Hin].
    destruct (negb _); [done|].
    destruct (truthy _); injection Heq as _ <-;
      apply list_elem_of_singleton in Hin; by injection Hin as -> ->.
  - unfold on_requestTurnInfo. intros Heq Hin.
    destruct (rooms σ !! roomId); [destruct (negb _)|];
      (destruct (reply_elem _ _ _ _ _ _ _ _ Heq Hin) as [_ [Hsent|Hack]];
       [by apply elem_of_nil in Hsent|by injection Hack as -> ->]).
  - intros Heq Hin. injection Heq as Heq.
    assert (Hout : out = (on_disconnect socket σ).2) by by rewrite Heq.
    rewrite Hout in Hin. unfold on_disconnect in Hin.
    apply disconnect_loop_out in Hin.
    + destruct Hin as [Hin|(roomId & r & _ & [[Hr Hem]|[h Hem]])].
      * by apply elem_of_nil in Hin.
      * by injection Hem as -> _.
      * by injection Hem as -> _.
    + by apply wf_set_groups.
    + intros roomId r Hr. by apply (inv_hosts σ Hinv roomId r).
    + apply NoDup_fst_map_to_list.
    + intros roomId r Hr. by apply elem_of_map_to_list in Hr.
Qed.

(** X24. While it serves a message of a connection, the server sends to
    rooms, to a room without that connection, and to that connection
    alone: no handler addresses another single connection, and the
    acknowledgement goes to the connection that asked. *)
Theorem direct_messages_go_to_sender socket m σ σ' out t msg :
  reachable σ → handle (Receive socket m) σ = Some (σ', out) → (t, msg) ∈ out →
  addressed_for (s_id socket) t.
Proof.
  intros Hreach Hstep Hin.
  eapply handle_targets; [by apply reachable_inv|done..].
Qed.

(** B, who is not the host, asks to start the game of the room of A and B. *)
Lemma direct_messages_go_to_sender_witness :
  (on_startGame (sock "B") "R" two_waiting).2 = [(ToSocket "B", error NotHost)]
  ∧ addressed_for "B" (ToSocket "B").
Proof.
  assert (Hout : (on_startGame (sock "B") "R" two_waiting).2
                 = [(ToSocket "B", error NotHost)]) by by vm_compute.
  split; [done|].
  apply (direct_messages_go_to_sender (sock "B") (startGame_msg "R") two_waiting
           (on_startGame (sock "B") "R" two_waiting).1
           (on_startGame (sock "B") "R" two_waiting).2 (ToSocket "B") (error NotHost)).
  - apply state_after_reachable. by vm_compute.
  - exact (f_equal Some (surjective_pairing (on_startGame (sock "B") "R" two_waiting))).
  - rewrite Hout. left.
Defined.

(** ** The order in which rooms are left *)

Lemma filter_locs_ext σ σ' (ls : list loc) playerId :
  (∀ l, l ∈ ls → getP σ' l = getP σ l) →
  filter (λ l, p_id (getP σ' l) ≠ playerId) ls
  = filter (λ l, p_id (getP σ l) ≠ playerId) ls.
Proof.
  induction ls as [|l ls IH]; intros Hext; [done|].
  assert (Hl : getP σ' l = getP σ l) by (apply Hext; left).
  assert (Hls : ∀ l', l' ∈ ls → getP σ' l' = getP σ l') by (intros; apply Hext; by right).
  destruct (decide (p_id (getP σ l) ≠ playerId)) as [Hne|Heq].
  - rewrite !filter_cons_True by (by rewrite ?Hl). by rewrite IH.
  - rewrite !filter_cons_False by (by rewrite ?Hl). by apply IH.
Qed.

(** The writes of [leaveRoom] depend on the room object and on the player
    objects of its array only. *)
Lemma leave_effect_ext σ σ' r playerId :
  getR σ' r = getR σ r →
  (∀ l, l ∈ r_players (getR σ r) → getP σ' l = getP σ l) →
  leave_effect σ' r playerId = leave_effect σ r playerId.
Proof.
  intros Hroom Hext. unfold leave_effect. rewrite Hroom.
  rewrite (filter_locs_ext σ σ') by done.
  assert (players_of σ' (getR σ r) = players_of σ (getR σ r)) as ->.
  { unfold players_of. apply list_fmap_ext. intros i l Hl.
    apply Hext. by eapply list_elem_of_lookup_2. }
  destruct (filter _ _) as [|first rest] eqn:Hrem; [done|].
  assert (Hfirst : getP σ' first = getP σ first).
  { apply Hext.
    assert (first ∈ filter (λ l, p_id (getP σ l) ≠ playerId) (r_players (getR σ r)))
      as [_ ?]%list_elem_of_filter; [|done].
    rewrite Hrem. left. }
  by rewrite Hfirst.
Qed.

(** [leaveRoom] on a registered room, written as one record. *)
Lemma leaveRoom_effect σ roomId playerId r :
  wf σ → rooms σ !! roomId = Some r →
  leaveRoom roomId playerId σ =
    {| rooms := if decide (r_players (leave_effect σ r playerId).1 = [])
                then delete roomId (rooms σ) else rooms σ;
       roomObjs := <[r := (leave_effect σ r playerId).1]> (roomObjs σ);
       playerObjs := match (leave_effect σ r playerId).2 with
                     | Some (l, p) => <[l := p]> (playerObjs σ)
                     | None => playerObjs σ
                     end;
       groups := groups σ;
       timers := timers σ |}.
Proof.
  intros Hwf Hr. unfold leave_effect.
  destruct (leaveRoom_cases σ roomId playerId r Hwf Hr)
    as [[Hnil ->]|[(first & rest & Hrem & Hw & ->)|(Hne & Hw & ->)]].
  - rewrite Hnil. cbn [fst snd with_players r_players].
    by rewrite decide_True.
  - rewrite Hrem, Hw. cbn [fst snd with_players with_hostId r_players].
    rewrite decide_False by done.
    unfold setR, setP; simpl. by rewrite list_insert_insert_eq.
  - rewrite Hw. destruct (filter _ _) as [|first rest] eqn:Hrem; [done|].
    cbn [fst snd with_players r_players]. by rewrite decide_False.
Qed.

(** The player object that [leaveRoom] writes is in the array of the room. *)
Lemma leave_effect_player σ r playerId l p :
  (leave_effect σ r playerId).2 = Some (l, p) → l ∈ r_players (getR σ r).
Proof.
  unfold leave_effect.
  destruct (filter _ _) as [|first rest] eqn:Hrem; [done|].
  destruct (was_host _ _); [|done]. simpl. intros [= <- _].
  assert (first ∈ filter (λ l, p_id (getP σ l) ≠ playerId) (r_players (getR σ r)))
    as [_ ?]%list_elem_of_filter; [|done].
  rewrite Hrem. left.
Qed.

(** What [leaveRoom] on one room leaves of another room. *)
Lemma leave_effect_other σ roomId playerId r r' playerId' :
  wf σ → rooms σ !! roomId = Some r → r' ≠ r →
  leave_effect (leaveRoom roomId playerId σ) r' playerId' = leave_effect σ r' playerId'.
Proof.
  intros Hwf Hr Hne.
  assert (Hlt : r < length (roomObjs σ)) by by eapply wf_rooms_alloc.
  rewrite (leaveRoom_effect σ roomId playerId r) by done.
  apply leave_effect_ext.
  - unfold getR; simpl. by apply list_lookup_total_insert_ne.
  - intros l Hl. unfold getP; simpl.
    destruct (leave_effect σ r playerId).2 as [[l0 p0]|] eqn:Heff; [|done].
    apply list_lookup_total_insert_ne. intros ->.
    apply leave_effect_player in Heff. apply Hne.
    destruct (decide (r' < length (roomObjs σ))) as [Hlt'|Hge].
    + apply (wf_players_disj σ Hwf r' r (getR σ r') (getR σ r) l);
        [by apply getR_lookup|by apply getR_lookup|done..].
    + unfold getR in Hl. rewrite list_lookup_total_alt in Hl.
      rewrite (lookup_ge_None_2 (roomObjs σ) r') in Hl by lia.
      by apply elem_of_nil in Hl.
Qed.

Lemma leaveRoom_commute σ roomId1 roomId2 playerId1 playerId2 :
  wf σ → roomId1 ≠ roomId2 →
  leaveRoom roomId1 playerId1 (leaveRoom roomId2 playerId2 σ)
  = leaveRoom roomId2 playerId2 (leaveRoom roomId1 playerId1 σ).
Proof.
  intros Hwf Hne.
  destruct (rooms σ !! roomId1) as [r1|] eqn:Hr1.
  2:{ rewrite (leaveRoom_absent σ roomId1) by done.
      rewrite leaveRoom_absent; [done|]. by rewrite leaveRoom_other_rooms. }
  destruct (rooms σ !! roomId2) as [r2|] eqn:Hr2.
  2:{ rewrite (leaveRoom_absent σ roomId2) by done.
      rewrite (leaveRoom_absent (leaveRoom _ _ _)); [done|].
      by rewrite leaveRoom_other_rooms. }
  assert (Hr : r1 ≠ r2).
  { intros ->. apply Hne. by eapply wf_rooms_inj. }
  rewrite (leaveRoom_effect (leaveRoom roomId2 playerId2 σ) roomId1 playerId1 r1);
    [|by apply leaveRoom_wf|by rewrite leaveRoom_other_rooms].
  rewrite (leaveRoom_effect (leaveRoom roomId1 playerId1 σ) roomId2 playerId2 r2);
    [|by apply leaveRoom_wf|by rewrite leaveRoom_other_rooms].
  rewrite (leave_effect_other σ roomId2 playerId2 r2 r1) by done.
  rewrite (leave_effect_other σ roomId1 playerId1 r1 r2) by done.
  rewrite (leaveRoom_effect σ roomId1 playerId1 r1) by done.
  rewrite (leaveRoom_effect σ roomId2 playerId2 r2) by done.
  simpl.
  pose proof (leave_effect_player σ r1 playerId1) as Hp1.
  pose proof (leave_effect_player σ r2 playerId2) as Hp2.
  destruct (leave_effect σ r1 playerId1) as [room1 w1].
  destruct (leave_effect σ r2 playerId2) as [room2 w2]. simpl in *.
  f_equal.
  - repeat case_decide; try done. apply delete_delete.
  - by apply list_insert_insert_ne.
  - destruct w1 as [[l1 p1]|], w2 as [[l2 p2]|]; try done.
    apply list_insert_insert_ne. intros ->. apply Hr.
    specialize (Hp1 l2 p1 eq_refl). specialize (Hp2 l2 p2 eq_refl).
    destruct (decide (r1 < length (roomObjs σ))) as [Hlt1|Hge].
    2:{ unfold getR in Hp1. rewrite list_lookup_total_alt in Hp1.
        rewrite (lookup_ge_None_2 (roomObjs σ) r1) in Hp1 by lia.
        by apply elem_of_nil in Hp1. }
    assert (Hlt2 : r2 < length (roomObjs σ)) by by eapply wf_rooms_alloc.
    apply (wf_players_disj σ Hwf r1 r2 (getR σ r1) (getR σ r2) l2);
      [by apply getR_lookup|by apply getR_lookup|done..].
Qed.

(** X25. Leaving two different rooms commutes: the state after two calls
    of [leaveRoom] on different room ids, for the same or for different
    connections, does not depend on their order. *)
Theorem leaveRoom_commutes σ roomId1 roomId2 playerId1 playerId2 :
  reachable σ → roomId1 ≠ roomId2 →
  leaveRoom roomId1 playerId1 (leaveRoom roomId2 playerId2 σ)
  = leaveRoom roomId2 playerId2 (leaveRoom roomId1 playerId1 σ).
Proof.
  intros Hreach. apply leaveRoom_commute. by apply reachable_inv.
Qed.

(** A is the host of two rooms, with B in the first and C in the second,
    and leaves both. *)
Lemma leaveRoom_commutes_witness :
  let σ := state_after [create "A" "R"; join "B" "R"; create "A" "S"; join "C" "S"] in
  leaveRoom "R" "A" (leaveRoom "S" "A" σ) = leaveRoom "S" "A" (leaveRoom "R" "A" σ)
  ∧ r_hostId (getR (leaveRoom "R" "A" (leaveRoom "S" "A" σ)) 0) = "B"
  ∧ r_hostId (getR (leaveRoom "R" "A" (leaveRoom "S" "A" σ)) 1) = "C".
Proof.
  intros σ. split; [|by vm_compute].
  apply (leaveRoom_commutes σ "R" "S" "A" "A"); [|done].
  apply state_after_reachable. by vm_compute.
Defined.

Lemma leave_all_perm playerId roomIds roomIds' σ :
  wf σ → roomIds ≡ₚ roomIds' →
  leave_all playerId roomIds σ = leave_all playerId roomIds' σ.
Proof.
  intros Hwf Hperm. revert σ Hwf.
  induction Hperm as [|k ks ks' _ IH|k1 k2 ks|ks1 ks2 ks3 _ IH1 _ IH2]; intros σ Hwf.
  - done.
  - simpl. apply IH. by apply leaveRoom_wf.
  - simpl. destruct (decide (k1 = k2)) as [->|Hne]; [done|].
    by rewrite (leaveRoom_commute σ k1 k2).
  - by rewrite IH1, IH2.
Qed.

(** What the loop of the disconnect handler sends: for each room it
    visits, what [disconnect_block] makes of the room as it was before the
    loop. *)
Lemma disconnect_loop_blocks socket (entries : list (string * loc)) σ out :
  wf σ → hosts_ok σ → NoDup entries.*1 →
  (∀ roomId r, (roomId, r) ∈ entries → rooms σ !! roomId = Some r) →
  (foldl (disconnect_room socket) (σ, out) entries).2
  = out ++ mjoin ((λ e, disconnect_block socket e.1 (snapshot σ e.2)) <$> entries).
Proof.
  revert σ out.
  induction entries as [|[k r] rest IH]; intros σ out Hwf Hh Hnd Hreg.
  { simpl. by rewrite app_nil_r. }
  rewrite fmap_cons in *. cbn [foldl fst] in *.
  apply NoDup_cons in Hnd as [Hnotin Hnd].
  assert (Hk : rooms σ !! k = Some r) by (apply Hreg; left).
  pose proof (disconnect_room_state socket σ out k r Hwf Hh Hk) as Hstate.
  destruct (disconnect_room socket (σ, out) (k, r)) as [σ1 out1] eqn:Hbody.
  cbn [fst] in Hstate. subst σ1.
  set (σ1 := leaveRoom k (s_id socket) σ) in *.
  assert (Hwf1 : wf σ1) by by apply leaveRoom_wf.
  assert (Hreg1 : ∀ roomId r', (roomId, r') ∈ rest → rooms σ1 !! roomId = Some r').
  { intros roomId r' Hin'. subst σ1. rewrite leaveRoom_other_rooms.
    - apply Hreg. by right.
    - intros ->. apply Hnotin. apply list_elem_of_fmap. by exists (k, r'). }
  rewrite (IH σ1 out1 Hwf1 (leaveRoom_hosts_ok _ _ _ Hwf Hh) Hnd Hreg1).
  assert (Hrest : (λ e, disconnect_block socket e.1 (snapshot σ1 e.2)) <$> rest
                  = (λ e, disconnect_block socket e.1 (snapshot σ e.2)) <$> rest).
  { apply list_fmap_ext. intros i [k' r'] Hi. simpl.
    apply list_elem_of_lookup_2 in Hi.
    subst σ1. rewrite (leaveRoom_frame σ k (s_id socket) r); [done..|].
    intros Heq. apply Hnotin. apply list_elem_of_fmap. exists (k', r').
    split; [|done]. simpl. apply (wf_rooms_inj σ Hwf k k' r); [done|].
    rewrite <- Heq. apply Hreg. by right. }
  rewrite Hrest. simpl. rewrite app_assoc. f_equal.
  apply (f_equal snd) in Hbody. cbn [snd] in Hbody. rewrite <- Hbody.
  unfold disconnect_room, disconnect_block.
  change (players_of σ (getR σ r)) with (snap_players (snapshot σ r)).
  destruct (existsb _ _); [|by rewrite app_nil_r]. cbn [snd]. f_equal.
  fold σ1.
  assert (Hsnap : snapshot σ1 r = after_leave (s_id socket) (snapshot σ r))
    by by apply leaveRoom_snapshot.
  change (r_status (getR σ1 r)) with (snap_status (snapshot σ1 r)).
  change (r_hostId (getR σ1 r)) with (snap_hostId (snapshot σ1 r)).
  rewrite Hsnap. cbv zeta. f_equal.
  unfold broadcastRoomState. subst σ1.
  rewrite (leaveRoom_rooms σ k (s_id socket) r) by done.
  destruct (decide (filter _ _ = [])) as [Hnil|Hne].
  - rewrite lookup_delete_eq. by rewrite decide_True by by apply after_leave_empty.
  - rewrite Hk. rewrite decide_False by by intros ?%after_leave_empty.
    set (σ1 := leaveRoom k (s_id socket) σ) in *. unfold roomState_of.
    change (players_of σ1 (getR σ1 r)) with (snap_players (snapshot σ1 r)).
    change (r_status (getR σ1 r)) with (snap_status (snapshot σ1 r)).
    change (r_settings (getR σ1 r)) with (snap_settings (snapshot σ1 r)).
    change (r_hostId (getR σ1 r)) with (snap_hostId (snapshot σ1 r)).
    change (r_gameReady (getR σ1 r)) with (snap_gameReady (snapshot σ1 r)).
    by rewrite Hsnap.
Qed.

(** X26. The disconnect handler does not depend on the order in which it
    visits the rooms: for every order of the entries of the registry the
    loop ends in the same state, and it sends the same messages, room by
    room, each room's messages made of the room as it was before the loop. *)
Theorem disconnect_any_order socket σ entries :
  reachable σ → entries ≡ₚ map_to_list (rooms σ) →
  let result := foldl (disconnect_room socket) (socket_leaveAll socket σ, []) entries in
  result.1 = (on_disconnect socket σ).1
  ∧ result.2 = mjoin ((λ e, disconnect_block socket e.1 (snapshot σ e.2)) <$> entries)
  ∧ result.2 ≡ₚ (on_disconnect socket σ).2.
Proof.
  intros Hreach Hperm result. pose proof (reachable_inv σ Hreach) as Hinv.
  destruct (Hinv) as [Hwf Hh Hs].
  set (σ0 := socket_leaveAll socket σ) in *.
  assert (Hwf0 : wf σ0) by by apply wf_set_groups.
  assert (Hh0 : hosts_ok σ0) by (intros roomId r Hr; by apply (Hh roomId r)).
  assert (Hnd : NoDup entries.*1).
  { rewrite Hperm. apply NoDup_fst_map_to_list. }
  assert (Hreg : ∀ roomId r, (roomId, r) ∈ entries → rooms σ0 !! roomId = Some r).
  { intros roomId r Hin. rewrite Hperm in Hin. by apply elem_of_map_to_list in Hin. }
  assert (Hout : ∀ es, NoDup es.*1 →
            (∀ roomId r, (roomId, r) ∈ es → rooms σ0 !! roomId = Some r) →
            (foldl (disconnect_room socket) (σ0, []) es).2
            = mjoin ((λ e, disconnect_block socket e.1 (snapshot σ e.2)) <$> es)).
  { intros es Hnd' Hreg'. by rewrite disconnect_loop_blocks. }
  split_and!.
  - subst result. rewrite disconnect_loop_state by done.
    rewrite on_disconnect_state by done. apply leave_all_perm; [done|].
    by rewrite Hperm.
  - by apply Hout.
  - subst result. rewrite Hout by done. unfold on_disconnect. fold σ0.
    rewrite (Hout (map_to_list (rooms σ0))).
    + by rewrite Hperm.
    + apply NoDup_fst_map_to_list.
    + intros roomId r Hin. by apply elem_of_map_to_list in Hin.
Qed.

(** A, who is in the rooms R and S, closes the connection; the loop visits
    R first, as the iteration of a JavaScript [Map] does. *)
Lemma disconnect_any_order_witness :
  let σ := state_after [create "A" "R"; join "B" "R"; create "A" "S"; join "C" "S"] in
  (foldl (disconnect_room (sock "A")) (socket_leaveAll (sock "A") σ, [])
         [("R", 0); ("S", 1)]).1
  = (on_disconnect (sock "A") σ).1.
Proof.
  intros σ.
  destruct (disconnect_any_order (sock "A") σ [("R", 0); ("S", 1)]) as (Hstate & _).
  - apply state_after_reachable. by vm_compute.
  - assert (Hkeys : map_to_list (rooms σ) = [("S", 1 : loc); ("R", 0 : loc)])
      by by vm_compute.
    rewrite Hkeys. apply Permutation_swap.
  - done.
Defined.

(** ** Seats that are given twice *)

(** X27. Seats are not kept apart: when a player of a waiting room holds
    the seat [players.length], which happens after somebody who joined
    earlier has left, the next connection that joins is given that seat as
    well. *)
Theorem seat_can_be_shared socket roomId playerName callback σ r p :
  reachable σ → rooms σ !! roomId = Some r →
  r_status (getR σ r) = waiting → length (r_players (getR σ r)) < 4 →
  p ∈ players_of σ (getR σ r) → p_seat p = length (r_players (getR σ r)) →
  let σ' := (result (on_joinRoom socket roomId playerName callback σ)).1 in
  ∃ q, players_of σ' (getR σ' r) = players_of σ (getR σ r) ++ [q]
       ∧ p_id q = s_id socket ∧ p_seat q = p_seat p.
Proof.
  intros Hreach Hr Hst Hlen Hp Hseat. pose proof (reachable_inv σ Hreach) as [Hwf Hh Hs].
  cbv zeta. rewrite on_joinRoom_state.
  pose proof (joinRoom_cases σ roomId (s_id socket) playerName) as Hj.
  rewrite Hr in Hj. simpl in Hj.
  rewrite decide_False in Hj by lia. rewrite decide_True in Hj by done.
  rewrite Hj. cbv beta iota zeta.
  set (σ1 := joined_state r (s_id socket) playerName σ).
  assert (Hsnap : snapshot σ1 r = after_join (s_id socket) playerName (snapshot σ r))
    by by eapply join_snapshot.
  change (players_of (socket_join socket roomId σ1) (getR (socket_join socket roomId σ1) r))
    with (snap_players (snapshot σ1 r)).
  rewrite Hsnap. eexists. split; [done|]. split; [done|]. simpl.
  unfold players_of. by rewrite length_fmap.
Qed.

(** A creates a room, B and C join, B leaves, and D joins: C and D both
    have seat 2. *)
Lemma seat_can_be_shared_witness :
  let σ := state_after [create "A" "R"; join "B" "R"; join "C" "R"; leave "B" "R"] in
  let σ' := (result (on_joinRoom (sock "D") "R" JUndefined no_callback σ)).1 in
  ∃ q, players_of σ' (getR σ' 0) = players_of σ (getR σ 0) ++ [q]
       ∧ p_id q = "D" ∧ p_seat q = 2.
Proof.
  intros σ.
  apply (seat_can_be_shared (sock "D") "R" JUndefined no_callback σ 0
           (mkPlayer "C" (JStr "玩家3") false 2)).
  - apply state_after_reachable. by vm_compute.
  - by vm_compute.
  - by vm_compute.
  - vm_compute. lia.
  - assert (Hps : players_of σ (getR σ 0)
                  = [mkPlayer "A" (JStr "玩家1") true 0;
                     mkPlayer "C" (JStr "玩家3") false 2]) by by vm_compute.
    rewrite Hps. right. left.
  - by vm_compute.
Defined.

(** ** Who writes the game fields of a room *)

Lemma leaveRoom_game_fields σ roomId playerId r :
  wf σ →
  game_fields (snapshot (leaveRoom roomId playerId σ) r) = game_fields (snapshot σ r).
Proof.
  intros Hwf. destruct (rooms σ !! roomId) as [r0|] eqn:Hr0.
  - destruct (decide (r = r0)) as [->|Hne].
    + by rewrite (leaveRoom_snapshot σ roomId) by done.
    + by rewrite (leaveRoom_frame σ roomId playerId r0) by done.
  - by rewrite leaveRoom_absent by done.
Qed.

(** What one turn of the event loop does to the game fields of a room
    object. *)
Lemma handle_game_fields e σ σ' out r :
  inv σ → r < length (roomObjs σ) → handle e σ = Some (σ', out) →
  game_fields (snapshot σ' r) = game_fields (snapshot σ r)
  ∨ (∃ socket d l,
       e = Receive socket (gameStateUpdate_msg (Some d)) ∧
       rooms σ !! sd_roomId d = Some r ∧
       find_player σ (getR σ r) (s_id socket) = Some l ∧
       snapshot σ' r = stored (sd_gameState d) (snapshot σ r))
  ∨ (∃ socket roomId,
       e = Receive socket (startGame_msg roomId) ∧
       rooms σ !! roomId = Some r ∧ r_hostId (getR σ r) = s_id socket ∧
       2 ≤ length (r_players (getR σ r)) ∧
       snapshot σ' r = started (snapshot σ r))
  ∨ (∃ socket d,
       e = Receive socket (gameReady_msg (Some d)) ∧
       rooms σ !! rd_roomId d = Some r ∧ r_hostId (getR σ r) = s_id socket ∧
       snapshot σ' r = readied (snapshot σ r)).
Proof.
  intros Hinv Halloc. pose proof (inv_wf σ Hinv) as Hwf. destruct e as [socket m|i]; simpl.
  - destruct m as [generated settings callback|[d|] callback|roomId|roomId
                   |roomId callback|[d|]|[d|]|[d|]|roomId callback|];
      simpl; try done.
    + rewrite on_createRoom_cases. destruct (is_null settings); [done|]. cbv zeta.
      intros [-> _]%completed_reply_last. left.
      change (snapshot (socket_join socket generated
                          (created_state generated (s_id socket) settings σ)) r)
        with (snapshot (created_state generated (s_id socket) settings σ) r).
      by rewrite create_frame by done.
    + state_of_result. left. rewrite on_joinRoom_state.
      pose proof (joinRoom_cases σ (jd_roomId d) (s_id socket) (jd_playerName d)) as Hj.
      destruct (rooms σ !! jd_roomId d) as [r0|] eqn:Hr0; [|by rewrite Hj].
      simpl in Hj. destruct (decide (4 ≤ _)) as [|Hlen]; [by rewrite Hj|].
      destruct (decide (_ = waiting)) as [Hst|]; [|by rewrite Hj].
      rewrite Hj. cbv beta iota zeta.
      change (snapshot (socket_join socket (jd_roomId d)
                (joined_state r0 (s_id socket) (jd_playerName d) σ)) r)
        with (snapshot (joined_state r0 (s_id socket) (jd_playerName d) σ) r).
      destruct (decide (r = r0)) as [->|Hne].
      * by erewrite join_snapshot by done.
      * by erewrite join_frame by done.
    + state_of_result. left. unfold on_leaveRoom. cbn [fst].
      change (snapshot (socket_leave socket roomId (leaveRoom roomId (s_id socket) σ)) r)
        with (snapshot (leaveRoom roomId (s_id socket) σ) r).
      by apply leaveRoom_game_fields.
    + state_of_result.
      pose proof (on_startGame_cases socket roomId σ) as Hc. simpl in Hc.
      destruct (rooms σ !! roomId) as [r0|] eqn:Hr0; [|rewrite Hc; by left].
      destruct (decide (_ < 2)) as [|Hlen]; [rewrite Hc; by left|].
      destruct (was_host _ _) eqn:Hw; [|rewrite Hc; by left].
      assert (Hlt : r0 < length (roomObjs σ)) by by eapply wf_rooms_alloc.
      rewrite Hc by done. cbn [fst]. unfold started_state.
      destruct (decide (r0 = r)) as [->|Hne].
      * right. right. left. exists socket, roomId. split_and!; [done|done| |lia|].
        -- pose proof (was_host_hostId _ (s_id socket) (inv_hosts σ Hinv roomId r Hr0))
             as Hhost.
           change (snap_players (snapshot σ r)) with (players_of σ (getR σ r)) in Hhost.
           rewrite Hw in Hhost. symmetry in Hhost. by apply bool_decide_eq_true in Hhost.
        -- by rewrite snapshot_setR_eq.
      * left. by rewrite snapshot_setR_ne.
    + state_of_result. rewrite on_getRoomState_state. by left.
    + state_of_result. unfold on_gameReady.
      destruct (rooms σ !! _) as [r0|] eqn:Hr0; [|by left].
      case_bool_decide as Hhost; [by left|]. cbn [fst].
      assert (Hlt : r0 < length (roomObjs σ)) by by eapply wf_rooms_alloc.
      destruct (decide (r0 = r)) as [->|Hne].
      * right. right. right. exists socket, d. split_and!; [done|done| |].
        -- by destruct (decide (r_hostId (getR σ r) = s_id socket)).
        -- by rewrite snapshot_setR_eq.
      * left. by rewrite snapshot_setR_ne.
    + state_of_result. unfold on_gameStateUpdate.
      destruct (rooms σ !! _) as [r0|] eqn:Hr0; [|by left].
      destruct (find_player _ _ _) as [l|] eqn:Hl; [|by left]. cbn [fst].
      assert (Hlt : r0 < length (roomObjs σ)) by by eapply wf_rooms_alloc.
      destruct (decide (r0 = r)) as [->|Hne].
      * right. left. exists socket, d, l. split_and!; [done..|].
        by rewrite snapshot_setR_eq.
      * left. by rewrite snapshot_setR_ne.
    + state_of_result. left.
      by destruct (on_playerAction_state socket (ad_roomId d) (ad_action d)
                     (ad_params d) σ) as [->|(r0 & player & _ & _ & ->)].
    + state_of_result. rewrite on_requestTurnInfo_state. by left.
    + state_of_result. left.
      destruct (registered_dec σ r) as [[roomId Hr]|Hnot].
      * by rewrite (on_disconnect_snapshot socket σ Hinv roomId) by done.
      * by rewrite on_disconnect_frame by done.
  - destruct (timers σ !! i); intros [= <- _]; by left.
Qed.

(** X28. The stored game state, the status and the ready flag of a room
    object are written on behalf of the right connections only: if an
    event changes one of them, the room is registered and the event is a
    [gameStateUpdate] from one of its players, which stores the value sent,
    or a [startGame] or a [gameReady] from its host. *)
Theorem game_fields_writers e σ σ' out r :
  reachable σ → r < length (roomObjs σ) → handle e σ = Some (σ', out) →
  game_fields (snapshot σ' r) ≠ game_fields (snapshot σ r) →
  ∃ socket roomId,
    rooms σ !! roomId = Some r ∧
    ((∃ g l, e = Receive socket (gameStateUpdate_msg
                                   (Some {| sd_roomId := roomId; sd_gameState := g |})) ∧
             find_player σ (getR σ r) (s_id socket) = Some l ∧
             snapshot σ' r = stored g (snapshot σ r))
     ∨ (e = Receive socket (startGame_msg roomId) ∧
        r_hostId (getR σ r) = s_id socket ∧ snapshot σ' r = started (snapshot σ r))
     ∨ (e = Receive socket (gameReady_msg (Some {| rd_roomId := roomId |})) ∧
        r_hostId (getR σ r) = s_id socket ∧ snapshot σ' r = readied (snapshot σ r))).
Proof.
  intros Hreach Halloc Hstep Hne.
  destruct (handle_game_fields e σ σ' out r (reachable_inv σ Hreach) Halloc Hstep)
    as [Hsame|[(socket & d & l & -> & Hr & Hl & Hsnap)
              |[(socket & roomId & -> & Hr & Hhost & _ & Hsnap)
               |(socket & d & -> & Hr & Hhost & Hsnap)]]]; [done|..].
  - exists socket, (sd_roomId d). split; [done|]. left.
    exists (sd_gameState d), l. by destruct d.
  - exists socket, roomId. split; [done|]. right. by left.
  - exists socket, (rd_roomId d). split; [done|]. right. right. by destruct d.
Qed.

(** B, a player of the room of A and B who is not the host, stores a game
    state. *)
Lemma game_fields_writers_witness :
  ∃ socket roomId,
    rooms two_waiting !! roomId = Some 0 ∧
    ((∃ g l, update "B" "R" (JNum 7)
             = Receive socket (gameStateUpdate_msg
                                 (Some {| sd_roomId := roomId; sd_gameState := g |})) ∧
             find_player two_waiting (getR two_waiting 0) (s_id socket) = Some l ∧
             snapshot (on_gameStateUpdate (sock "B") "R" (JNum 7) two_waiting).1 0
             = stored g (snapshot two_waiting 0))
     ∨ (update "B" "R" (JNum 7) = Receive socket (startGame_msg roomId) ∧
        r_hostId (getR two_waiting 0) = s_id socket ∧
        snapshot (on_gameStateUpdate (sock "B") "R" (JNum 7) two_waiting).1 0
        = started (snapshot two_waiting 0))
     ∨ (update "B" "R" (JNum 7)
        = Receive socket (gameReady_msg (Some {| rd_roomId := roomId |})) ∧
        r_hostId (getR two_waiting 0) = s_id socket ∧
        snapshot (on_gameStateUpdate (sock "B") "R" (JNum 7) two_waiting).1 0
        = readied (snapshot two_waiting 0))).
Proof.
  apply (game_fields_writers (update "B" "R" (JNum 7)) two_waiting
           (on_gameStateUpdate (sock "B") "R" (JNum 7) two_waiting).1
           (on_gameStateUpdate (sock "B") "R" (JNum 7) two_waiting).2 0).
  - apply state_after_reachable. by vm_compute.
  - vm_compute. lia.
  - exact (f_equal Some
             (surjective_pairing (on_gameStateUpdate (sock "B") "R" (JNum 7) two_waiting))).
  - by vm_compute.
Defined.

(** ** The point settings *)

(** X29. Every registered room has the three point settings
    [basePoints], [perFanPoints] and [initialPoints]: [createRoom] writes
    them, with the caller's value or the default, and nothing removes
    them. *)
Theorem point_settings_present σ roomId r k :
  reachable σ → rooms σ !! roomId = Some r →
  k ∈ ["basePoints"; "perFanPoints"; "initialPoints"] →
  is_Some (r_settings (getR σ r) !! k).
Proof.
  intros Hreach Hr Hk. revert roomId r Hr.
  induction Hreach as [|σ e σ' out Hreach IH Hstep]; intros roomId r Hr; [done|].
  pose proof (reachable_inv σ Hreach) as Hinv.
  change (r_settings (getR σ' r)) with (snap_settings (snapshot σ' r)).
  destruct (handle_registry e σ σ' out roomId r Hinv Hstep Hr)
    as [Hold|(_ & hostId & settings & ->)].
  - rewrite (room_step_settings (snapshot σ r)).
    + by apply (IH roomId r).
    + eapply handle_room_step; [done| |done].
      eapply wf_rooms_alloc; [apply Hinv|done].
  - simpl. rewrite make_settings_lookup.
    destruct (settings_props settings !! k); [done|].
    repeat (apply elem_of_cons in Hk as [->|Hk]; [by eexists|]).
    by apply elem_of_nil in Hk.
Qed.

(** The room that C has created with [basePoints] 0 and a key of its own. *)
Lemma point_settings_present_witness :
  let σ := state_after [Receive (sock "C") (createRoom_msg "S" custom_settings no_callback)] in
  r_settings (getR σ 0) !! "basePoints" = Some (JNum 0)
  ∧ is_Some (r_settings (getR σ 0) !! "perFanPoints").
Proof.
  intros σ. split; [by vm_compute|].
  apply (point_settings_present σ "S" 0 "perFanPoints").
  - apply state_after_reachable. by vm_compute.
  - by vm_compute.
  - right. left.
Defined.
